(** * APIHive: the request resolution and execution engine

    A shallow embedding of the renderer utilities
    ([src/renderer/utils]: [applyVariables], [buildUrl], [buildHeaders],
    [isValidHttpUrl]), of the [variableMap] and [handleSend] closures of the
    [App] component, and of the main-process handler of the
    ["http:request"] channel, followed by the properties of the engine.

    Conventions of the embedding.
    - A JavaScript string is the list of its UTF-16 code units ([list N]);
      [js "..."] writes an ASCII literal.
    - A [Record<string, string>] is a plain object, made by the literal
      [{}] and filled by assignments: a finite map ([gmap]) holds its own
      properties, and what its prototype, [Object.prototype], adds to
      reading and to writing a property is written out ([valueOrEmpty],
      [setProperty]).
    - A JavaScript exception is a value of [thrown]; code that can throw
      returns [result A], the sum of a thrown value and a normal result.
    - React state is passed explicitly ([AppState]); whatever the closures
      read from the platform (clock, identifiers, the transport exposed on
      [window.api], the URL parser) is an explicit argument. *)

From Stdlib Require Import ZArith NArith Ascii String Bool List Lia.
From stdpp Require Import base option list gmap.

#[local] Open Scope N_scope.

(** ** Strings *)

(** An ASCII literal as a string of code units. *)
Definition js (s : string) : list N :=
  map N_of_ascii (list_ascii_of_string s).

Module Char.

Definition hash : N := 0x23.
Definition percent : N := 0x25.
Definition amp : N := 0x26.
Definition hyphen : N := 0x2D.
Definition dot : N := 0x2E.
Definition colon : N := 0x3A.
Definition equals : N := 0x3D.
Definition question : N := 0x3F.
Definition underscore : N := 0x5F.
Definition lbrace : N := 0x7B.
Definition rbrace : N := 0x7D.

Definition between (lo hi c : N) : bool := (lo <=? c) && (c <=? hi).

Definition isDigit (c : N) : bool := between 0x30 0x39 c.
Definition isUpper (c : N) : bool := between 0x41 0x5A c.
Definition isLower (c : N) : bool := between 0x61 0x7A c.
Definition isAlnum (c : N) : bool := isDigit c || isUpper c || isLower c.

(** The WhiteSpace and LineTerminator code points of ECMAScript: what
    [String.prototype.trim] strips and what [\s] matches. *)
Definition isWhiteSpace (c : N) : bool :=
  between 0x09 0x0D c || (c =? 0x20) || (c =? 0xA0) || (c =? 0x1680)
  || between 0x2000 0x200A c || (c =? 0x2028) || (c =? 0x2029)
  || (c =? 0x202F) || (c =? 0x205F) || (c =? 0x3000) || (c =? 0xFEFF).

(** [\w]: the basic Latin letters, the digits and the underscore. *)
Definition isWord (c : N) : bool := isAlnum c || (c =? underscore).

(** The class [[\w.-]] of variable names. *)
Definition isNameChar (c : N) : bool :=
  isWord c || (c =? dot) || (c =? hyphen).

Definition isHighSurrogate (c : N) : bool := between 0xD800 0xDBFF c.
Definition isLowSurrogate (c : N) : bool := between 0xDC00 0xDFFF c.

End Char.

(** [String.prototype.trim]. *)
Fixpoint trimStart (s : list N) : list N :=
  match s with
  | c :: s' => if Char.isWhiteSpace c then trimStart s' else s
  | [] => []
  end.

Definition trimEnd (s : list N) : list N := rev (trimStart (rev s)).

Definition trim (s : list N) : list N := trimEnd (trimStart s).

(** [String.prototype.indexOf] from position 0: the index of the first
    occurrence of [sub], [-1] when there is none. *)
Fixpoint startsWith (sub s : list N) : bool :=
  match sub, s with
  | [], _ => true
  | _ :: _, [] => false
  | a :: sub', b :: s' => (a =? b) && startsWith sub' s'
  end.

Fixpoint indexOfFrom (sub s : list N) (i : Z) : Z :=
  if startsWith sub s then i
  else match s with
       | [] => (-1)%Z
       | _ :: s' => indexOfFrom sub s' (i + 1)%Z
       end.

Definition indexOf (s sub : list N) : Z := indexOfFrom sub s 0%Z.

Definition includes (s sub : list N) : bool := (0 <=? indexOf s sub)%Z.

(** [s.slice(0, i)] and [s.slice(i)] for an index [0 <= i]. *)
Definition sliceTo (s : list N) (i : Z) : list N := take (Z.to_nat i) s.
Definition sliceFrom (s : list N) (i : Z) : list N := drop (Z.to_nat i) s.

(** [Array.prototype.join]. *)
Fixpoint join (sep : list N) (parts : list (list N)) : list N :=
  match parts with
  | [] => []
  | [p] => p
  | p :: ps => p ++ sep ++ join sep ps
  end.

(** ** Exceptions *)

(** A thrown value: an [Error] (or an instance of a subclass) with its
    [message], or any other value. *)
Inductive thrown :=
  | ThrownError (message : list N)
  | ThrownOther.

Definition result (A : Type) : Type := thrown + A.

Definition throw {A} (t : thrown) : result A := inl t.

#[global] Instance result_ret : MRet result := fun A x => inr x.
#[global] Instance result_bind : MBind result := fun A B f r =>
  match r with
  | inl t => inl t
  | inr x => f x
  end.

(** [error instanceof Error ? error.message : fallback]. *)
Definition messageOr (fallback : list N) (t : thrown) : list N :=
  match t with
  | ThrownError m => m
  | ThrownOther => fallback
  end.

(** ** Regular expressions

    The fragment of ECMAScript patterns the program uses: a sequence of
    single-character terms, each taken once, or under a greedy [*] or [+],
    with at most one capture group.  Matching is the backtracking
    matching of the language: a greedy term first takes as many
    characters as it can and gives them back one at a time while the rest
    of the pattern fails. *)
Module RegExp.

Inductive quantifier := Once | Star | Plus.

Record term := Term {
  accepts : N -> bool;
  quant : quantifier;
  captures : bool
}.

(** A match: the text of capture group 1 and the input left after the
    match. *)
Definition found : Type := list N * list N.

Definition keep (t : term) (c : N) (r : option found) : option found :=
  match r with
  | Some (g, rest) => Some (if captures t then c :: g else g, rest)
  | None => None
  end.

Fixpoint greedy (t : term) (k : list N -> option found) (s : list N)
  : option found :=
  match s with
  | c :: s' =>
      if accepts t c then
        match greedy t k s' with
        | Some r => keep t c (Some r)
        | None => k s
        end
      else k s
  | [] => k s
  end.

Fixpoint matchHere (re : list term) (s : list N) : option found :=
  match re with
  | [] => Some ([], s)
  | t :: re' =>
      match quant t with
      | Star => greedy t (matchHere re') s
      | Once =>
          match s with
          | c :: s' =>
              if accepts t c then keep t c (matchHere re' s') else None
          | [] => None
          end
      | Plus =>
          match s with
          | c :: s' =>
              if accepts t c then keep t c (greedy t (matchHere re') s')
              else None
          | [] => None
          end
      end
  end.

(** [String.prototype.replace] with a global pattern and a replacer
    function of the capture group.  [skip] counts the characters of the
    input that belong to the match just replaced (the distance to
    [lastIndex]); an empty match advances by one character. *)
Fixpoint replaceFrom (re : list term) (f : list N -> list N)
  (s : list N) (skip : nat) : list N :=
  match s with
  | [] =>
      match skip, matchHere re [] with
      | O, Some (g, _) => f g
      | _, _ => []
      end
  | c :: s' =>
      match skip with
      | S n => replaceFrom re f s' n
      | O =>
          match matchHere re s with
          | Some (g, rest) =>
              match (length s - length rest)%nat with
              | O => f g ++ c :: replaceFrom re f s' 0
              | S n => f g ++ replaceFrom re f s' n
              end
          | None => c :: replaceFrom re f s' 0
          end
      end
  end.

Definition replaceAll (re : list term) (f : list N -> list N)
  (s : list N) : list N :=
  replaceFrom re f s 0.

Definition lit (c : N) : term := Term (N.eqb c) Once false.

(** Where a greedy term stops at once: at the end of the input or
    before a character it does not accept. *)
Definition stops (t : term) (s : list N) : Prop :=
  match s with
  | [] => True
  | c :: _ => accepts t c = false
  end.

End RegExp.

(** ** Plain objects

    The objects the code uses as maps from names to strings all have the
    prototype [Object.prototype].  Reading [obj[key]] finds the own
    property of that name or else the member of the prototype of that
    name; writing [obj[key] = value] makes or changes an own property,
    unless the name is that of the accessor [__proto__] of the
    prototype, whose setter leaves the object alone when the value is a
    string. *)

(** The text of a built-in function, as Electron's engine prints it. *)
Definition nativeCode (name : list N) : list N :=
  js "function " ++ name ++ js "() { [native code] }".

(** The function-valued members of [Object.prototype] other than
    [constructor], each of which is named as the property is. *)
Definition ObjectPrototypeMethods : list (list N) :=
  [ js "__defineGetter__"; js "__defineSetter__"; js "hasOwnProperty";
    js "__lookupGetter__"; js "__lookupSetter__"; js "isPrototypeOf";
    js "propertyIsEnumerable"; js "toString"; js "valueOf";
    js "toLocaleString" ].

(** [String(Object.prototype[key])] on an object whose prototype is
    [Object.prototype]: [__proto__] reads as that prototype,
    [constructor] as the function [Object], the other members as
    themselves; [None] for a name the prototype does not have. *)
Definition inheritedText (key : list N) : option (list N) :=
  if bool_decide (key = js "__proto__") then Some (js "[object Object]")
  else if bool_decide (key = js "constructor") then
    Some (nativeCode (js "Object"))
  else if bool_decide (key ∈ ObjectPrototypeMethods) then
    Some (nativeCode key)
  else None.

(** [String(obj[key] ?? "")]: the own property, or else the inherited
    member as the string it converts to, or else the empty string. *)
Definition valueOrEmpty (obj : gmap (list N) (list N)) (key : list N)
  : list N :=
  match obj !! key with
  | Some value => value
  | None => default [] (inheritedText key)
  end.

(** [obj[key] = value] for a string [value]. *)
Definition setProperty (key value : list N) (obj : gmap (list N) (list N))
  : gmap (list N) (list N) :=
  if bool_decide (key = js "__proto__") then
    match obj !! key with
    | Some _ => <[key := value]> obj
    | None => obj
    end
  else <[key := value]> obj.

(** ** [src/renderer/utils]: variable substitution *)

(** The pattern [/{{\s*([\w.-]+)\s*}}/g]. *)
Definition placeholderRe : list RegExp.term :=
  [ RegExp.lit Char.lbrace; RegExp.lit Char.lbrace;
    RegExp.Term Char.isWhiteSpace RegExp.Star false;
    RegExp.Term Char.isNameChar RegExp.Plus true;
    RegExp.Term Char.isWhiteSpace RegExp.Star false;
    RegExp.lit Char.rbrace; RegExp.lit Char.rbrace ].

Definition applyVariables (input : list N) (vars : gmap (list N) (list N))
  : list N :=
  RegExp.replaceAll placeholderRe (fun key => valueOrEmpty vars key) input.

(** ** Platform functions on strings *)

(** The text of the [URIError] of V8, the engine of the host. *)
Definition uriMalformed : thrown := ThrownError (js "URI malformed").

(** The [InvalidCharacterError] of [btoa] (a [DOMException], which is an
    [Error]). *)
Definition invalidCharacter : thrown :=
  ThrownError (js "Failed to execute 'btoa' on 'Window': The string to be encoded contains characters outside of the Latin1 range.").

Definition hexDigit (d : N) : N :=
  if d <? 10 then 0x30 + d else 0x41 + (d - 10).

(** ["%XX"] for one octet. *)
Definition percentEncode (octet : N) : list N :=
  [Char.percent; hexDigit (octet / 16); hexDigit (octet mod 16)].

(** The UTF-8 octets of a code point. *)
Definition utf8 (cp : N) : list N :=
  if cp <? 0x80 then [cp]
  else if cp <? 0x800 then
    [N.lor 0xC0 (N.shiftr cp 6); N.lor 0x80 (N.land cp 0x3F)]
  else if cp <? 0x10000 then
    [N.lor 0xE0 (N.shiftr cp 12);
     N.lor 0x80 (N.land (N.shiftr cp 6) 0x3F);
     N.lor 0x80 (N.land cp 0x3F)]
  else
    [N.lor 0xF0 (N.shiftr cp 18);
     N.lor 0x80 (N.land (N.shiftr cp 12) 0x3F);
     N.lor 0x80 (N.land (N.shiftr cp 6) 0x3F);
     N.lor 0x80 (N.land cp 0x3F)].

Definition surrogatePair (lead trail : N) : N :=
  (lead - 0xD800) * 0x400 + (trail - 0xDC00) + 0x10000.

(** The characters [encodeURIComponent] leaves as they are. *)
Definition isUnescaped (c : N) : bool :=
  Char.isAlnum c
  || existsb (N.eqb c) (js "-_.!~*'()").

(** [encodeURIComponent]: every other character is replaced by the
    escaped octets of its code point; an unpaired surrogate throws. *)
Fixpoint encodeURIComponent (s : list N) : result (list N) :=
  match s with
  | [] => mret []
  | c :: s' =>
      if isUnescaped c then
        r ← encodeURIComponent s'; mret (c :: r)
      else if Char.isLowSurrogate c then throw uriMalformed
      else if Char.isHighSurrogate c then
        match s' with
        | d :: s'' =>
            if Char.isLowSurrogate d then
              r ← encodeURIComponent s'';
              mret (concat (map percentEncode (utf8 (surrogatePair c d))) ++ r)
            else throw uriMalformed
        | [] => throw uriMalformed
        end
      else
        r ← encodeURIComponent s';
        mret (concat (map percentEncode (utf8 c)) ++ r)
  end.

(** [new TextEncoder().encode(text).byteLength]: the length of the UTF-8
    encoding, an unpaired surrogate being encoded as U+FFFD. *)
Fixpoint utf8Length (s : list N) : Z :=
  match s with
  | [] => 0%Z
  | c :: s' =>
      if c <? 0x80 then (1 + utf8Length s')%Z
      else if c <? 0x800 then (2 + utf8Length s')%Z
      else if Char.isHighSurrogate c then
        match s' with
        | d :: s'' =>
            if Char.isLowSurrogate d then (4 + utf8Length s'')%Z
            else (3 + utf8Length s')%Z
        | [] => 3%Z
        end
      else (3 + utf8Length s')%Z
  end.

(** [btoa]: base64 of a string of octets. *)
Definition base64Digit (d : N) : N :=
  if d <? 26 then 0x41 + d
  else if d <? 52 then 0x61 + (d - 26)
  else if d <? 62 then 0x30 + (d - 52)
  else if d =? 62 then 0x2B
  else 0x2F.

Fixpoint base64 (octets : list N) : list N :=
  match octets with
  | [] => []
  | [a] =>
      [base64Digit (a / 4); base64Digit ((a mod 4) * 16);
       Char.equals; Char.equals]
  | [a; b] =>
      [base64Digit (a / 4); base64Digit ((a mod 4) * 16 + b / 16);
       base64Digit ((b mod 16) * 4); Char.equals]
  | a :: b :: c :: rest =>
      [base64Digit (a / 4); base64Digit ((a mod 4) * 16 + b / 16);
       base64Digit ((b mod 16) * 4 + c / 64); base64Digit (c mod 64)]
      ++ base64 rest
  end.

Definition btoa (s : list N) : result (list N) :=
  if forallb (fun c => c <=? 0xFF) s then mret (base64 s)
  else throw invalidCharacter.

(** ** [src/renderer/types] *)

Record KeyValue := {
  kv_id : list N;
  kv_key : list N;
  kv_value : list N;
  kv_enabled : bool;
  kv_secret : option bool
}.

Inductive AddTo := AddToHeader | AddToQuery.

Inductive AuthConfig :=
  | AuthNone
  | AuthBasic (username password : list N)
  | AuthBearer (token : list N)
  | AuthApiKey (key value : list N) (addTo : AddTo).

Inductive BodyType := BodyJson | BodyText | BodyFormData.

Record RequestDraft := {
  req_id : list N;
  req_name : list N;
  req_method : list N;
  req_url : list N;
  req_params : list KeyValue;
  req_headers : list KeyValue;
  req_bodyType : BodyType;
  req_body : list N;
  req_formDataFields : option (list KeyValue);
  req_auth : AuthConfig;
  req_documentation : option (list N)
}.

Record EnvVariable := {
  env_id : list N;
  env_key : list N;
  env_initialValue : list N;
  env_currentValue : list N;
  env_sensitive : bool
}.

Record ResponseState := {
  resp_status : Z;
  resp_statusText : list N;
  resp_headers : gmap (list N) (list N);
  resp_body : list N;
  resp_duration : Z;
  resp_size : Z
}.

Record HistoryItem := {
  hist_id : list N;
  hist_name : list N;
  hist_method : list N;
  hist_url : list N;
  hist_status : Z;
  hist_duration : Z;
  hist_size : Z;
  hist_at : Z
}.

(** ** [src/renderer/utils]: URL and header building *)

(** [item.enabled && item.key.trim().length > 0]. *)
Definition isSelected (item : KeyValue) : bool :=
  kv_enabled item && (0 <? length (trim (kv_key item)))%nat.

(** The pairs of [buildUrl]: the resolved trimmed key and the resolved
    value of every selected entry, in the order of the draft. *)
Definition resolvePairs (items : list KeyValue)
  (vars : gmap (list N) (list N)) : list (list N * list N) :=
  map (fun item => (applyVariables (trim (kv_key item)) vars,
                    applyVariables (kv_value item) vars))
      (List.filter isSelected items).

(** [`${encodeURIComponent(key)}=${encodeURIComponent(value)}`]. *)
Definition encodePair (kv : list N * list N) : result (list N) :=
  k ← encodeURIComponent kv.1;
  v ← encodeURIComponent kv.2;
  mret (k ++ Char.equals :: v).

(** [Array.prototype.map] with a callback that can throw. *)
Fixpoint mapM {A B} (f : A -> result B) (l : list A) : result (list B) :=
  match l with
  | [] => mret []
  | x :: l' => y ← f x; ys ← mapM f l'; mret (y :: ys)
  end.

(** [pairs.map(...).join("&")]. *)
Definition encodeQuery (pairs : list (list N * list N)) : result (list N) :=
  parts ← mapM encodePair pairs; mret (join [Char.amp] parts).

Definition buildUrl (url : list N) (params : list KeyValue)
  (vars : gmap (list N) (list N)) : result (list N) :=
  let baseUrl := applyVariables url vars in
  let queryPairs := resolvePairs params vars in
  if (length queryPairs =? 0)%nat then mret baseUrl
  else
    query ← encodeQuery queryPairs;
    let hashIndex := indexOf baseUrl [Char.hash] in
    let withoutHash :=
      if (0 <=? hashIndex)%Z then sliceTo baseUrl hashIndex else baseUrl in
    let hash :=
      if (0 <=? hashIndex)%Z then sliceFrom baseUrl hashIndex else [] in
    let separator :=
      if includes withoutHash [Char.question] then [Char.amp]
      else [Char.question] in
    mret (withoutHash ++ separator ++ query ++ hash).

Definition buildHeaders (headers : list KeyValue) (auth : AuthConfig)
  (vars : gmap (list N) (list N)) : result (gmap (list N) (list N)) :=
  let resolved :=
    fold_left
      (fun (resolved : gmap (list N) (list N)) item =>
         let key := applyVariables (trim (kv_key item)) vars in
         setProperty key (applyVariables (kv_value item) vars) resolved)
      (List.filter isSelected headers) ∅ in
  resolved ←
    match auth with
    | AuthBasic username password =>
        token ← btoa (username ++ Char.colon :: password);
        mret (setProperty (js "Authorization") (js "Basic " ++ token)
                resolved)
    | _ => mret resolved
    end;
  let resolved :=
    match auth with
    | AuthBearer token =>
        setProperty (js "Authorization") (js "Bearer " ++ token) resolved
    | _ => resolved
    end in
  let resolved :=
    match auth with
    | AuthApiKey key value AddToHeader => setProperty key value resolved
    | _ => resolved
    end in
  mret resolved.

(** ** The transport boundary *)

(** The argument of [window.api.request]. *)
Record Payload := {
  p_url : list N;
  p_method : list N;
  p_headers : gmap (list N) (list N);
  p_body : option (list N)
}.

(** [window.api.request]: the promise it returns is fulfilled with a
    response record or rejected with a thrown value. *)
Definition Transport : Type := Payload -> result ResponseState.

(** What one run of [handleSend] reads from its surroundings:
    [window.api?.request], [crypto.randomUUID()] and [Date.now()]. *)
Record World := {
  api_request : option Transport;
  randomUUID : list N;
  dateNow : Z
}.

(** The state of the [App] component that [handleSend] writes. *)
Record AppState := {
  response : option ResponseState;
  history : list HistoryItem;
  sending : bool
}.

Definition setResponse (r : option ResponseState) (st : AppState) : AppState :=
  {| response := r; history := history st; sending := sending st |}.

Definition setHistory (h : list HistoryItem) (st : AppState) : AppState :=
  {| response := response st; history := h; sending := sending st |}.

Definition setSending (b : bool) (st : AppState) : AppState :=
  {| response := response st; history := history st; sending := b |}.

(** The synthetic records of the renderer. *)
Definition localFailure (statusText body : list N) : ResponseState :=
  {| resp_status := 0; resp_statusText := statusText; resp_headers := ∅;
     resp_body := body; resp_duration := 0; resp_size := 0 |}.

(** ** The [App] component *)

(** The [variableMap] memo: the variables with a non-blank key, folded in
    list order into a map from the trimmed key to the current value. *)
Definition variableMap (variables : list EnvVariable)
  : gmap (list N) (list N) :=
  fold_left
    (fun (map : gmap (list N) (list N)) item =>
       setProperty (trim (env_key item)) (env_currentValue item) map)
    (List.filter (fun item => (0 <? length (trim (env_key item)))%nat)
                 variables)
    ∅.

(** Body selection, the first part of the [try] block of [handleSend]:
    the headers with the content type the body brings, and the body. *)
Definition encodeField (vars : gmap (list N) (list N)) (item : KeyValue)
  : result (list N) :=
  k ← encodeURIComponent (applyVariables (trim (kv_key item)) vars);
  v ← encodeURIComponent (applyVariables (kv_value item) vars);
  mret (k ++ Char.equals :: v).

Definition isNonBlank (s : list N) : bool := (0 <? length (trim s))%nat.

Definition hasLength {A} (l : option (list A)) : bool :=
  match l with
  | Some (_ :: _) => true
  | _ => false
  end.

Definition selectBody (request : RequestDraft)
  (vars mergedHeaders : gmap (list N) (list N))
  : result (gmap (list N) (list N) * option (list N)) :=
  if negb (bool_decide (req_method request ∈ [js "GET"; js "HEAD"])) then
    match req_bodyType request with
    | BodyJson =>
        if isNonBlank (req_body request) then
          mret (<[js "Content-Type" := js "application/json"]> mergedHeaders,
                Some (req_body request))
        else mret (mergedHeaders, None)
    | BodyFormData =>
        if hasLength (req_formDataFields request) then
          parts ← mapM (encodeField vars)
                    (List.filter isSelected
                       (default [] (req_formDataFields request)));
          mret (<[js "Content-Type" :=
                    js "application/x-www-form-urlencoded"]> mergedHeaders,
                Some (join [Char.amp] parts))
        else mret (mergedHeaders, None)
    | BodyText =>
        if isNonBlank (req_body request) then
          mret (mergedHeaders, Some (req_body request))
        else mret (mergedHeaders, None)
    end
  else mret (mergedHeaders, None).

(** The query-placed API key, the second part of the [try] block: the
    URL handed to the transport. *)
Definition apiKeyUrl (auth : AuthConfig) (resolvedUrl : list N)
  : result (list N) :=
  match auth with
  | AuthApiKey key value AddToQuery =>
      let join := if includes resolvedUrl [Char.question] then [Char.amp]
                  else [Char.question] in
      k ← encodeURIComponent key;
      v ← encodeURIComponent value;
      mret (resolvedUrl ++ join ++ k ++ Char.equals :: v)
  | _ => mret resolvedUrl
  end.

(** The argument [handleSend] passes to [window.api.request]. *)
Definition preparePayload (request : RequestDraft)
  (vars : gmap (list N) (list N)) (resolvedUrl : list N) : result Payload :=
  mergedHeaders ← buildHeaders (req_headers request) (req_auth request) vars;
  hb ← selectBody request vars mergedHeaders;
  url ← apiKeyUrl (req_auth request) resolvedUrl;
  mret {| p_url := url; p_method := req_method request;
          p_headers := hb.1; p_body := hb.2 |}.

(** The history entry of a response. *)
Definition historyItem (w : World) (request : RequestDraft)
  (resolvedUrl : list N) (resp : ResponseState) : HistoryItem :=
  {| hist_id := randomUUID w; hist_name := req_name request;
     hist_method := req_method request; hist_url := resolvedUrl;
     hist_status := resp_status resp; hist_duration := resp_duration resp;
     hist_size := resp_size resp; hist_at := dateNow w |}.

(** [[entry, ...history].slice(0, 20)]. *)
Definition nextHistory (entry : HistoryItem) (history : list HistoryItem)
  : list HistoryItem :=
  take 20 (entry :: history).

Section Platform.

(** [new URL(s).protocol], [None] when the constructor throws. *)
Variable URL_protocol : list N -> option (list N).

(** [String.prototype.toUpperCase]. *)
Variable toUpperCase : list N -> list N.

Definition isValidHttpUrl (s : list N) : bool :=
  let trimmed := trim s in
  match trimmed with
  | [] => false
  | _ =>
      match URL_protocol trimmed with
      | Some protocol =>
          bool_decide (protocol = js "http:")
          || bool_decide (protocol = js "https:")
      | None => false
      end
  end.

(** The [try] block of [handleSend] after [setSending(true)] and
    [setResponse(null)]; a thrown value leaves the block at once. *)
Definition trySend (request_fn : Transport) (w : World)
  (request : RequestDraft) (vars : gmap (list N) (list N))
  (resolvedUrl : list N) (st : AppState) : result AppState :=
  payload ← preparePayload request vars resolvedUrl;
  resp ← request_fn payload;
  let st := setResponse (Some resp) st in
  mret (setHistory
          (nextHistory (historyItem w request resolvedUrl resp) (history st))
          st).

(** [handleSend], with the values its closure holds: the draft, the
    variable map, the resolved URL and (in the state) the history. *)
Definition handleSend (w : World) (request : RequestDraft)
  (vars : gmap (list N) (list N)) (resolvedUrl : list N) (st : AppState)
  : AppState :=
  match api_request w with
  | None =>
      setResponse
        (Some (localFailure (js "Error")
                 (js "API not available. Restart the app."))) st
  | Some request_fn =>
      if negb (isValidHttpUrl resolvedUrl) then
        setResponse
          (Some (localFailure (js "Invalid URL")
                   (js "Enter a valid http or https URL."))) st
      else
        let st := setSending true st in
        let st := setResponse None st in
        let st :=
          match trySend request_fn w request vars resolvedUrl st with
          | inr st' => st'
          | inl error =>
              setResponse
                (Some (localFailure (js "Request failed")
                         (messageOr (js "Unknown error") error))) st
          end in
        setSending false st
  end.

(** One click on Send: the component renders with the draft and the
    variables of the active environment ([variableMap], [resolvedUrl])
    and the handler of that render runs. *)
Definition clickSend (w : World) (request : RequestDraft)
  (variables : list EnvVariable) (st : AppState) : result AppState :=
  let vars := variableMap variables in
  resolvedUrl ← buildUrl (req_url request) (req_params request) vars;
  mret (handleSend w request vars resolvedUrl st).

(** ** The main process: the handler of ["http:request"] *)

(** The response of [fetch]: status line, headers in the order
    [forEach] visits them, and the outcome of [response.text()]. *)
Record FetchResponse := {
  fr_status : Z;
  fr_statusText : list N;
  fr_headers : list (list N * list N);
  fr_text : result (list N)
}.

(** What one run of the handler reads from its surroundings: [fetch]
    and the two readings of [Date.now()]. *)
Record MainWorld := {
  fetch : list N -> list N -> gmap (list N) (list N) -> option (list N)
          -> result FetchResponse;
  startedAt : Z;
  finishedAt : Z
}.

(** A field of an untyped payload: a string, a plain object of strings,
    or anything else. *)
Inductive jsval :=
  | VStr (s : list N)
  | VObj (m : gmap (list N) (list N))
  | VOther.

Record RawPayload := {
  raw_url : jsval;
  raw_method : jsval;
  raw_headers : jsval;
  raw_body : jsval
}.

Definition ALLOWED_METHODS : list (list N) :=
  [js "GET"; js "POST"; js "PUT"; js "PATCH"; js "DELETE"; js "HEAD";
   js "OPTIONS"].

Definition ALLOWED_PROTOCOLS : list (list N) := [js "http:"; js "https:"].

Definition invalidRequest (w : MainWorld) (body : list N) : ResponseState :=
  {| resp_status := 0; resp_statusText := js "Invalid request";
     resp_headers := ∅; resp_body := body;
     resp_duration := finishedAt w - startedAt w; resp_size := 0 |}.

(** [response.headers.forEach((value, key) => responseHeaders[key] = value)]. *)
Definition responseHeaders (hs : list (list N * list N))
  : gmap (list N) (list N) :=
  fold_left
    (fun (m : gmap (list N) (list N)) kv => setProperty kv.1 kv.2 m) hs ∅.

(** The exchange itself: [fetch], [response.text()] and the record. *)
Definition exchange (w : MainWorld) (url method : list N)
  (headers : gmap (list N) (list N)) (body : option (list N))
  : result ResponseState :=
  response ← fetch w url method headers body;
  text ← fr_text response;
  mret {| resp_status := fr_status response;
          resp_statusText := fr_statusText response;
          resp_headers := responseHeaders (fr_headers response);
          resp_body := text;
          resp_duration := finishedAt w - startedAt w;
          resp_size := utf8Length text |}.

(** [body && body.length > 0 ? body : undefined]. *)
Definition nonEmptyBody (body : option (list N)) : option (list N) :=
  match body with
  | Some (_ :: _) => body
  | _ => None
  end.

(** The handler without checks: a failure of [fetch] or of
    [response.text()] rejects the promise of the caller. *)
Definition httpRequestUnchecked (w : MainWorld) : Transport :=
  fun payload =>
    exchange w (p_url payload) (p_method payload) (p_headers payload)
      (nonEmptyBody (p_body payload)).

(** What the checked handler does once its checks have passed: the
    exchange, and the failure record when it throws. *)
Definition guardedExchange (w : MainWorld) (url normalizedMethod : list N)
  (p : RawPayload) : ResponseState :=
  let normalizedHeaders :=
    match raw_headers p with
    | VObj headers => headers
    | _ => ∅
    end in
  let body :=
    match raw_body p with
    | VStr (c :: b) => Some (c :: b)
    | _ => None
    end in
  match exchange w (trim url) normalizedMethod normalizedHeaders body with
  | inr r => r
  | inl err =>
      {| resp_status := 0; resp_statusText := js "Request failed";
         resp_headers := ∅;
         resp_body := messageOr (js "Request failed") err;
         resp_duration := finishedAt w - startedAt w; resp_size := 0 |}
  end.

(** The handler with checks; [None] is a payload that is not an
    object.  A method that is not a string is replaced by ["GET"],
    which is among the allowed methods. *)
Definition httpRequest (w : MainWorld) (payload : option RawPayload)
  : ResponseState :=
  match payload with
  | None => invalidRequest w (js "Missing or invalid payload.")
  | Some p =>
      match raw_url p with
      | VStr url =>
          match trim url with
          | [] => invalidRequest w (js "URL is required.")
          | _ =>
              match URL_protocol (trim url) with
              | None => invalidRequest w (js "Invalid URL format.")
              | Some protocol =>
                  if negb (bool_decide (protocol ∈ ALLOWED_PROTOCOLS)) then
                    invalidRequest w
                      (js "Only http and https URLs are allowed.")
                  else
                    match raw_method p with
                    | VStr method =>
                        let normalizedMethod := toUpperCase method in
                        if negb (bool_decide
                                   (normalizedMethod ∈ ALLOWED_METHODS))
                        then
                          invalidRequest w
                            (js "Unsupported method: " ++ method)
                        else guardedExchange w url normalizedMethod p
                    | _ => guardedExchange w url (js "GET") p
                    end
              end
          end
      | _ => invalidRequest w (js "URL is required.")
      end
  end.

(** [window.api.request] of the preload script over the checked
    handler: [ipcRenderer.invoke] delivers what the handler returns. *)
Definition invokeHttpRequest (w : MainWorld) : Transport :=
  fun payload =>
    mret (httpRequest w
            (Some {| raw_url := VStr (p_url payload);
                     raw_method := VStr (p_method payload);
                     raw_headers := VObj (p_headers payload);
                     raw_body := match p_body payload with
                                 | Some b => VStr b
                                 | None => VOther
                                 end |})).

End Platform.

(** ** The language of placeholders *)

(** [m] is a placeholder for [name]: two opening braces, white space, the
    name (one or more name characters), white space, two closing braces. *)
Definition isPlaceholder (name m : list N) : Prop :=
  exists ws1 ws2 : list N,
    m = [Char.lbrace; Char.lbrace] ++ ws1 ++ name ++ ws2
        ++ [Char.rbrace; Char.rbrace]
    /\ Forall (fun c => Char.isWhiteSpace c = true) ws1
    /\ Forall (fun c => Char.isWhiteSpace c = true) ws2
    /\ name <> []
    /\ Forall (fun c => Char.isNameChar c = true) name.

Definition startsWithPlaceholder (s : list N) : Prop :=
  exists name m rest, isPlaceholder name m /\ s = m ++ rest.

(** A placeholder occurs somewhere in [s]. *)
Definition hasPlaceholder (s : list N) : Prop :=
  exists pre post, s = pre ++ post /\ startsWithPlaceholder post.

(** [String.prototype.isWellFormed]: no unpaired surrogate. *)
Fixpoint isWellFormed (s : list N) : bool :=
  match s with
  | [] => true
  | c :: s' =>
      if Char.isLowSurrogate c then false
      else if Char.isHighSurrogate c then
        match s' with
        | d :: s'' => Char.isLowSurrogate d && isWellFormed s''
        | [] => false
        end
      else isWellFormed s'
  end.


(** ** Runs of [handleSend] *)

(** One invocation of [handleSend]: what it reads from its surroundings
    and the values of its closure. *)
Record Send := {
  s_world : World;
  s_request : RequestDraft;
  s_vars : gmap (list N) (list N);
  s_resolvedUrl : list N
}.

(** Runs that do not overlap: each is started when the one before has
    settled and the component has rendered again, so that its closure
    holds the state the one before left.  (Runs that overlap are those
    of [runEvents] below.) *)
Definition runSends (URL_protocol : list N -> option (list N))
  (sends : list Send) (st : AppState) : AppState :=
  fold_left
    (fun st s =>
       handleSend URL_protocol (s_world s) (s_request s) (s_vars s)
         (s_resolvedUrl s) st)
    sends st.

(** The transport that never sees the body of what it is given. *)
Definition withoutBody (request_fn : Transport) : Transport :=
  fun payload =>
    request_fn {| p_url := p_url payload; p_method := p_method payload;
                  p_headers := p_headers payload; p_body := None |}.

(** Two variable lists that differ at most in the [sensitive] flags of
    their entries. *)
Definition sameUpToSensitive (vs1 vs2 : list EnvVariable) : Prop :=
  Forall2
    (fun a b =>
       env_id a = env_id b /\ env_key a = env_key b
       /\ env_initialValue a = env_initialValue b
       /\ env_currentValue a = env_currentValue b)
    vs1 vs2.

(** ** Values for the examples *)

Module Demo.

(** [new URL(s).protocol] on the URLs of the examples, which all start
    with an [http] or [https] scheme and the host [h]. *)
Definition URL_protocol (s : list N) : option (list N) :=
  if startsWith (js "https://h/") s then Some (js "https:")
  else if startsWith (js "http://h/") s then Some (js "http:")
  else None.

(** [String.prototype.toUpperCase] on the method names of the examples,
    which are in upper case already. *)
Definition toUpperCase (s : list N) : list N := s.

Definition param (key value : string) : KeyValue :=
  {| kv_id := js "kv"; kv_key := js key; kv_value := js value;
     kv_enabled := true; kv_secret := None |}.

Definition draft (method url : string) (auth : AuthConfig) : RequestDraft :=
  {| req_id := js "r1"; req_name := js "Untitled Request";
     req_method := js method; req_url := js url; req_params := [];
     req_headers := []; req_bodyType := BodyJson;
     req_body := js "{}"; req_formDataFields := None; req_auth := auth;
     req_documentation := None |}.

Definition ok : ResponseState :=
  {| resp_status := 200; resp_statusText := js "OK"; resp_headers := ∅;
     resp_body := js "hi"; resp_duration := 12; resp_size := 2 |}.

(** A transport that answers 200 and one whose promise is rejected with
    an [Error] without message. *)
Definition answering : Transport := fun _ => inr ok.
Definition rejecting : Transport := fun _ => inl (ThrownError []).

Definition world (request_fn : Transport) : World :=
  {| api_request := Some request_fn; randomUUID := js "uuid-1";
     dateNow := 1700000000000 |}.

Definition idle (h : list HistoryItem) : AppState :=
  {| response := None; history := h; sending := false |}.

Definition entry (n : Z) : HistoryItem :=
  {| hist_id := js "old"; hist_name := js "old"; hist_method := js "GET";
     hist_url := js "https://h/old"; hist_status := 200;
     hist_duration := n; hist_size := 0; hist_at := n |}.

(** A [fetch] that fails with an [Error] without message. *)
Definition offline : MainWorld :=
  {| fetch := fun _ _ _ _ => inl (ThrownError []);
     startedAt := 100; finishedAt := 130 |}.

End Demo.

(** ** [src/renderer/utils]: the tone of a status *)

Definition statusTone (status : Z) : list N :=
  if ((200 <=? status) && (status <? 300))%Z then js "status-ok"
  else if (400 <=? status)%Z then js "status-error"
  else if (300 <=? status)%Z then js "status-warn"
  else js "status-info".

(** The characters that separate the parts of a URL after its path:
    ['&'], ['='], ['#'] and ['?']. *)
Definition isQueryDelimiter (c : N) : bool :=
  (c =? Char.amp) || (c =? Char.equals) || (c =? Char.hash)
  || (c =? Char.question).

(** The callback of the [forEach] in [variableMap]. *)
Definition variableStep (map : gmap (list N) (list N)) (item : EnvVariable)
  : gmap (list N) (list N) :=
  setProperty (trim (env_key item)) (env_currentValue item) map.

(** The callback of the [forEach] in [buildHeaders]. *)
Definition headerStep (vars : gmap (list N) (list N))
  (resolved : gmap (list N) (list N)) (item : KeyValue)
  : gmap (list N) (list N) :=
  setProperty (applyVariables (trim (kv_key item)) vars)
    (applyVariables (kv_value item) vars) resolved.

(** ** [src/renderer/utils]: request factories *)

(** [crypto.randomUUID()]: the identifiers one call of a function draws,
    in the order of the calls. *)
Definition Fresh : Type := nat -> list N.

Definition emptyKeyValue (id : list N) : KeyValue :=
  {| kv_id := id; kv_key := []; kv_value := []; kv_enabled := true;
     kv_secret := None |}.

(** The body of the default draft: an object with the empty strings
    [username] and [email], on four lines. *)
Definition defaultBody : list N :=
  js "{" ++ [0x0A] ++ js "  " ++ [0x22] ++ js "username" ++ [0x22]
  ++ js ": " ++ [0x22; 0x22] ++ js "," ++ [0x0A] ++ js "  " ++ [0x22]
  ++ js "email" ++ [0x22] ++ js ": " ++ [0x22; 0x22] ++ [0x0A] ++ js "}".

Definition defaultRequest (fresh : Fresh) : RequestDraft :=
  {| req_id := fresh 0%nat;
     req_name := js "Untitled Request";
     req_method := js "GET";
     req_url := js "https://api.example.com/v1/users";
     req_params := [emptyKeyValue (fresh 1%nat)];
     req_headers := [emptyKeyValue (fresh 2%nat)];
     req_bodyType := BodyJson;
     req_body := defaultBody;
     req_formDataFields := Some [emptyKeyValue (fresh 3%nat)];
     req_auth := AuthNone;
     req_documentation := Some [] |}.

(** [items.map((p) => ({ ...p, id: crypto.randomUUID() }))], the first
    call being call number [from]. *)
Fixpoint reidentify (fresh : Fresh) (from : nat) (items : list KeyValue)
  : list KeyValue :=
  match items with
  | [] => []
  | p :: rest =>
      {| kv_id := fresh from; kv_key := kv_key p; kv_value := kv_value p;
         kv_enabled := kv_enabled p; kv_secret := kv_secret p |}
      :: reidentify fresh (S from) rest
  end.

Definition deepCloneRequest (fresh : Fresh) (item : RequestDraft)
  : RequestDraft :=
  {| req_id := fresh 0%nat;
     req_name := req_name item ++ js " Copy";
     req_method := req_method item;
     req_url := req_url item;
     req_params := reidentify fresh 1 (req_params item);
     req_headers :=
       reidentify fresh (1 + length (req_params item)) (req_headers item);
     req_bodyType := req_bodyType item;
     req_body := req_body item;
     req_formDataFields := req_formDataFields item;
     req_auth := req_auth item;
     req_documentation := req_documentation item |}.

(** ** The [App] component: tabs, collections and environments *)

Record CollectionFolder := {
  folder_id : list N;
  folder_name : list N;
  folder_open : bool;
  folder_requests : list RequestDraft
}.

Record Environment := {
  environment_id : list N;
  environment_name : list N;
  environment_variables : list EnvVariable
}.

(** The state of the component next to [AppState]. *)
Record Ui := {
  ui_tabs : list RequestDraft;
  ui_activeTabId : list N;
  ui_folders : list CollectionFolder;
  ui_environments : list Environment;
  ui_activeEnvId : list N;
  ui_envVarVisibleIds : gset (list N);
  ui_searchQuery : list N;
  ui_app : AppState
}.

Definition setTabs (f : list RequestDraft -> list RequestDraft) (ui : Ui)
  : Ui :=
  {| ui_tabs := f (ui_tabs ui); ui_activeTabId := ui_activeTabId ui;
     ui_folders := ui_folders ui; ui_environments := ui_environments ui;
     ui_activeEnvId := ui_activeEnvId ui;
     ui_envVarVisibleIds := ui_envVarVisibleIds ui;
     ui_searchQuery := ui_searchQuery ui; ui_app := ui_app ui |}.

Definition setActiveTabId (id : list N) (ui : Ui) : Ui :=
  {| ui_tabs := ui_tabs ui; ui_activeTabId := id;
     ui_folders := ui_folders ui; ui_environments := ui_environments ui;
     ui_activeEnvId := ui_activeEnvId ui;
     ui_envVarVisibleIds := ui_envVarVisibleIds ui;
     ui_searchQuery := ui_searchQuery ui; ui_app := ui_app ui |}.

Definition setFolders (f : list CollectionFolder -> list CollectionFolder)
  (ui : Ui) : Ui :=
  {| ui_tabs := ui_tabs ui; ui_activeTabId := ui_activeTabId ui;
     ui_folders := f (ui_folders ui); ui_environments := ui_environments ui;
     ui_activeEnvId := ui_activeEnvId ui;
     ui_envVarVisibleIds := ui_envVarVisibleIds ui;
     ui_searchQuery := ui_searchQuery ui; ui_app := ui_app ui |}.

Definition setEnvironments (f : list Environment -> list Environment)
  (ui : Ui) : Ui :=
  {| ui_tabs := ui_tabs ui; ui_activeTabId := ui_activeTabId ui;
     ui_folders := ui_folders ui; ui_environments := f (ui_environments ui);
     ui_activeEnvId := ui_activeEnvId ui;
     ui_envVarVisibleIds := ui_envVarVisibleIds ui;
     ui_searchQuery := ui_searchQuery ui; ui_app := ui_app ui |}.

Definition setEnvVarVisibleIds (f : gset (list N) -> gset (list N))
  (ui : Ui) : Ui :=
  {| ui_tabs := ui_tabs ui; ui_activeTabId := ui_activeTabId ui;
     ui_folders := ui_folders ui; ui_environments := ui_environments ui;
     ui_activeEnvId := ui_activeEnvId ui;
     ui_envVarVisibleIds := f (ui_envVarVisibleIds ui);
     ui_searchQuery := ui_searchQuery ui; ui_app := ui_app ui |}.

Definition setApp (f : AppState -> AppState) (ui : Ui) : Ui :=
  {| ui_tabs := ui_tabs ui; ui_activeTabId := ui_activeTabId ui;
     ui_folders := ui_folders ui; ui_environments := ui_environments ui;
     ui_activeEnvId := ui_activeEnvId ui;
     ui_envVarVisibleIds := ui_envVarVisibleIds ui;
     ui_searchQuery := ui_searchQuery ui; ui_app := f (ui_app ui) |}.

(** [a === b] on strings. *)
Definition sameString (a b : list N) : bool := bool_decide (a = b).

(** [const request = tabs.find((t) => t.id === activeTabId) ?? tabs[0]];
    [None] is [undefined]. *)
Definition currentRequest (ui : Ui) : option RequestDraft :=
  match List.find (fun t => sameString (req_id t) (ui_activeTabId ui))
          (ui_tabs ui) with
  | Some t => Some t
  | None => head (ui_tabs ui)
  end.

(** [setRequest]; a draft given in place of an updater is the updater
    that returns it. *)
Definition setRequest (updater : RequestDraft -> RequestDraft) (ui : Ui)
  : Ui :=
  setTabs
    (map (fun t =>
            if sameString (req_id t) (ui_activeTabId ui) then updater t
            else t))
    ui.

(** The effect on [tabs] and [activeTabId]: an active identifier that is
    empty or names no tab is replaced by that of the first tab. *)
Definition ensureActiveTab (ui : Ui) : Ui :=
  let missing :=
    match ui_activeTabId ui with
    | [] => true
    | _ =>
        match List.find (fun t => sameString (req_id t) (ui_activeTabId ui))
                (ui_tabs ui) with
        | Some _ => false
        | None => true
        end
    end in
  match ui_tabs ui with
  | first :: _ => if missing then setActiveTabId (req_id first) ui else ui
  | [] => ui
  end.

Definition addTab (fresh : Fresh) (ui : Ui) : Ui :=
  let newReq := defaultRequest fresh in
  let ui := setTabs (fun prev => prev ++ [newReq]) ui in
  let ui := setActiveTabId (req_id newReq) ui in
  setApp (setResponse None) ui.

Definition closeTab (fresh : Fresh) (id : list N) (ui : Ui) : Ui :=
  let activeTabId := ui_activeTabId ui in
  let next :=
    List.filter (fun t => negb (sameString (req_id t) id)) (ui_tabs ui) in
  let ui :=
    match next with
    | [] =>
        let newReq := defaultRequest fresh in
        let ui := setActiveTabId (req_id newReq) ui in
        let ui := setApp (setResponse None) ui in
        setTabs (fun _ => [newReq]) ui
    | first :: _ =>
        let ui := if sameString activeTabId id
                  then setActiveTabId (req_id first) ui else ui in
        setTabs (fun _ => next) ui
    end in
  if sameString activeTabId id then setApp (setResponse None) ui else ui.

Definition onTabSelect (id : list N) (ui : Ui) : Ui :=
  setApp (setResponse None) (setActiveTabId id ui).

Definition loadRequest (fresh : Fresh) (item : RequestDraft) (ui : Ui) : Ui :=
  let ui :=
    match List.find (fun t => sameString (req_id t) (req_id item))
            (ui_tabs ui) with
    | Some _ => setActiveTabId (req_id item) ui
    | None =>
        let newReq :=
          {| req_id := fresh 0%nat; req_name := req_name item;
             req_method := req_method item; req_url := req_url item;
             req_params := req_params item; req_headers := req_headers item;
             req_bodyType := req_bodyType item; req_body := req_body item;
             req_formDataFields :=
               match req_formDataFields item with
               | Some fields => Some fields
               | None => Some [emptyKeyValue (fresh 1%nat)]
               end;
             req_auth := req_auth item;
             req_documentation := req_documentation item |} in
        let ui := setTabs (fun prev => prev ++ [newReq]) ui in
        setActiveTabId (req_id newReq) ui
    end in
  setApp (setResponse None) ui.

(** [{ ...prev, url: item.url, method: item.method }]. *)
Definition withUrlMethod (url method : list N) (prev : RequestDraft)
  : RequestDraft :=
  {| req_id := req_id prev; req_name := req_name prev;
     req_method := method; req_url := url;
     req_params := req_params prev; req_headers := req_headers prev;
     req_bodyType := req_bodyType prev; req_body := req_body prev;
     req_formDataFields := req_formDataFields prev;
     req_auth := req_auth prev;
     req_documentation := req_documentation prev |}.

Definition loadFromHistory (item : HistoryItem) (ui : Ui) : Ui :=
  let ui := setRequest (withUrlMethod (hist_url item) (hist_method item)) ui in
  setApp (setResponse None) ui.

(** [{ ...defaultRequest(), id: request.id }]. *)
Definition withId (id : list N) (r : RequestDraft) : RequestDraft :=
  {| req_id := id; req_name := req_name r; req_method := req_method r;
     req_url := req_url r; req_params := req_params r;
     req_headers := req_headers r; req_bodyType := req_bodyType r;
     req_body := req_body r; req_formDataFields := req_formDataFields r;
     req_auth := req_auth r; req_documentation := req_documentation r |}.

(** [resetRequest], for a render in which [request] is defined. *)
Definition resetRequest (fresh : Fresh) (request : RequestDraft) (ui : Ui)
  : Ui :=
  let ui :=
    setRequest (fun _ => withId (req_id request) (defaultRequest fresh)) ui in
  setApp (setResponse None) ui.

(** [Array.prototype.findIndex]: [-1] when no element passes. *)
Fixpoint findIndexFrom {A} (p : A -> bool) (l : list A) (i : Z) : Z :=
  match l with
  | [] => (-1)%Z
  | x :: l' => if p x then i else findIndexFrom p l' (i + 1)%Z
  end.

Definition findIndex {A} (p : A -> bool) (l : list A) : Z :=
  findIndexFrom p l 0%Z.

Definition withRequests (requests : list RequestDraft) (f : CollectionFolder)
  : CollectionFolder :=
  {| folder_id := folder_id f; folder_name := folder_name f;
     folder_open := folder_open f; folder_requests := requests |}.

(** The updater of [saveToCollection], for the draft [request] of the
    render. *)
Definition saveToCollection (request : RequestDraft)
  (prev : list CollectionFolder) : list CollectionFolder :=
  match prev with
  | [] => []
  | first :: rest =>
      let idx :=
        findIndex (fun r => sameString (req_id r) (req_id request))
          (folder_requests first) in
      (if (0 <=? idx)%Z
       then withRequests
              (<[Z.to_nat idx := request]> (folder_requests first)) first
       else withRequests (request :: folder_requests first) first)
      :: rest
  end.

Definition duplicateRequest (fresh : Fresh) (item : RequestDraft)
  (prev : list CollectionFolder) : list CollectionFolder :=
  match prev with
  | [] => []
  | first :: rest =>
      withRequests (deepCloneRequest fresh item :: folder_requests first) first
      :: rest
  end.

Definition removeRequest (id folderId : list N)
  (prev : list CollectionFolder) : list CollectionFolder :=
  map (fun f =>
         if sameString (folder_id f) folderId
         then withRequests
                (List.filter (fun r => negb (sameString (req_id r) id))
                   (folder_requests f)) f
         else f)
      prev.

Definition toggleFolder (folderId : list N) (prev : list CollectionFolder)
  : list CollectionFolder :=
  map (fun f =>
         if sameString (folder_id f) folderId
         then {| folder_id := folder_id f; folder_name := folder_name f;
                 folder_open := negb (folder_open f);
                 folder_requests := folder_requests f |}
         else f)
      prev.

(** [activeEnv?.variables ?? []]. *)
Definition activeVariables (ui : Ui) : list EnvVariable :=
  match List.find
          (fun e => sameString (environment_id e) (ui_activeEnvId ui))
          (ui_environments ui) with
  | Some e => environment_variables e
  | None => []
  end.

Definition setEnvironmentVariables (vars : list EnvVariable) (ui : Ui) : Ui :=
  setEnvironments
    (map (fun e =>
            if sameString (environment_id e) (ui_activeEnvId ui)
            then {| environment_id := environment_id e;
                    environment_name := environment_name e;
                    environment_variables := vars |}
            else e))
    ui.

Definition removeEnvVariable (id : list N) (ui : Ui) : Ui :=
  setEnvironmentVariables
    (List.filter (fun v => negb (sameString (env_id v) id))
       (activeVariables ui))
    ui.

Definition toggleEnvVarVisible (id : list N) (ui : Ui) : Ui :=
  setEnvVarVisibleIds
    (fun prev => if bool_decide (id ∈ prev) then prev ∖ {[ id ]}
                 else prev ∪ {[ id ]})
    ui.

(** ** The tabs, action by action *)

(** What the header, the sidebar and the effects do to the tabs. *)
Inductive TabAction :=
  | AddTab (fresh : Fresh)
  | CloseTab (fresh : Fresh) (id : list N)
  | SelectTab (id : list N)
  | LoadRequest (fresh : Fresh) (item : RequestDraft)
  | LoadFromHistory (item : HistoryItem)
  | ResetRequest (fresh : Fresh)
  | EnsureActiveTab.

Definition act (a : TabAction) (ui : Ui) : Ui :=
  match a with
  | AddTab fresh => addTab fresh ui
  | CloseTab fresh id => closeTab fresh id ui
  | SelectTab id => onTabSelect id ui
  | LoadRequest fresh item => loadRequest fresh item ui
  | LoadFromHistory item => loadFromHistory item ui
  | ResetRequest fresh =>
      match currentRequest ui with
      | Some request => resetRequest fresh request ui
      | None => ui
      end
  | EnsureActiveTab => ensureActiveTab ui
  end.

(** The header offers for selection the tabs there are. *)
Definition offered (a : TabAction) (ui : Ui) : Prop :=
  match a with
  | SelectTab id => id ∈ map req_id (ui_tabs ui)
  | _ => True
  end.

(** The active identifier is that of one of the tabs. *)
Definition activeTabExists (ui : Ui) : Prop :=
  ui_activeTabId ui ∈ map req_id (ui_tabs ui).

Section Search.

(** [String.prototype.toLowerCase]. *)
Variable toLowerCase : list N -> list N.

(** The [filteredFolders] memo. *)
Definition filteredFolders (folders : list CollectionFolder)
  (searchQuery : list N) : list CollectionFolder :=
  let q := toLowerCase (trim searchQuery) in
  match q with
  | [] => folders
  | _ =>
      map (fun f =>
             withRequests
               (List.filter
                  (fun r =>
                     includes (toLowerCase (req_name r)) q
                     || includes (toLowerCase (req_url r)) q
                     || includes (toLowerCase (req_method r)) q)
                  (folder_requests f))
               f)
          folders
  end.

End Search.

(** ** What a run records *)

(** The history entry a run of [handleSend] writes: that of the response
    its transport call returns, when the run gets that far. *)
Definition recordedEntry (URL_protocol : list N -> option (list N))
  (s : Send) : option HistoryItem :=
  match api_request (s_world s) with
  | Some request_fn =>
      if isValidHttpUrl URL_protocol (s_resolvedUrl s) then
        match preparePayload (s_request s) (s_vars s) (s_resolvedUrl s) with
        | inr payload =>
            match request_fn payload with
            | inr resp =>
                Some (historyItem (s_world s) (s_request s)
                        (s_resolvedUrl s) resp)
            | inl _ => None
            end
        | inl _ => None
        end
      else None
  | None => None
  end.

(** ** Runs that overlap

    [handleSend] is an [async] function: it runs up to
    [await window.api.request(...)] when it is called and goes on when
    the promise settles.  The shortcut Ctrl+Enter calls it whether or
    not a run is waiting, so a run can start while others wait.  Each
    run writes with the setters of the component, and what it puts into
    the history is made from the [history] its closure holds, that of
    the render in which it started. *)

(** A run that waits for the answer of the transport: the run, how the
    promise settles, and the history its closure holds. *)
Record Awaiting := {
  aw_send : Send;
  aw_answer : result ResponseState;
  aw_history : list HistoryItem
}.

(** [handleSend] up to its [await], on the state of the render in which
    it is called: the state it leaves, and the run when it waits. *)
Definition startSend (URL_protocol : list N -> option (list N))
  (s : Send) (st : AppState) : AppState * option Awaiting :=
  match api_request (s_world s) with
  | None =>
      (setResponse
         (Some (localFailure (js "Error")
                  (js "API not available. Restart the app."))) st, None)
  | Some request_fn =>
      if negb (isValidHttpUrl URL_protocol (s_resolvedUrl s)) then
        (setResponse
           (Some (localFailure (js "Invalid URL")
                    (js "Enter a valid http or https URL."))) st, None)
      else
        let captured := history st in
        let st := setSending true st in
        let st := setResponse None st in
        match preparePayload (s_request s) (s_vars s) (s_resolvedUrl s) with
        | inr payload =>
            (st, Some {| aw_send := s; aw_answer := request_fn payload;
                         aw_history := captured |})
        | inl error =>
            let st :=
              setResponse
                (Some (localFailure (js "Request failed")
                         (messageOr (js "Unknown error") error))) st in
            (setSending false st, None)
        end
  end.

(** [handleSend] after its [await], on the state of the component when
    the promise settles. *)
Definition settleSend (a : Awaiting) (st : AppState) : AppState :=
  let s := aw_send a in
  let st :=
    match aw_answer a with
    | inr resp =>
        let st := setResponse (Some resp) st in
        setHistory
          (nextHistory
             (historyItem (s_world s) (s_request s) (s_resolvedUrl s) resp)
             (aw_history a))
          st
    | inl error =>
        setResponse
          (Some (localFailure (js "Request failed")
                   (messageOr (js "Unknown error") error))) st
    end in
  setSending false st.

(** What happens to the component: a run is started, or the promise of
    the waiting run number [k] (in the order in which they started)
    settles. *)
Inductive Event :=
  | Start (s : Send)
  | Settle (k : nat).

Definition step (URL_protocol : list N -> option (list N)) (e : Event)
  (c : AppState * list Awaiting) : AppState * list Awaiting :=
  match e with
  | Start s =>
      let started := startSend URL_protocol s c.1 in
      (started.1, c.2 ++ match started.2 with Some a => [a] | None => [] end)
  | Settle k =>
      match c.2 !! k with
      | Some a => (settleSend a c.1, delete k c.2)
      | None => c
      end
  end.

Definition runEvents (URL_protocol : list N -> option (list N))
  (events : list Event) (c : AppState * list Awaiting)
  : AppState * list Awaiting :=
  fold_left (fun c e => step URL_protocol e c) events c.

(** ** What [fetch] may be asked *)

(** A [fetch] that refuses whatever is outside the allow-lists of the
    handler: a URL with white space around it or with a protocol other
    than [http:] and [https:], a method that is not allowed, a body that
    is the empty string. *)
Definition allowListed (URL_protocol : list N -> option (list N))
  (fetch : list N -> list N -> gmap (list N) (list N) -> option (list N)
           -> result FetchResponse)
  : list N -> list N -> gmap (list N) (list N) -> option (list N)
    -> result FetchResponse :=
  fun url method headers body =>
    if bool_decide (trim url = url)
       && match URL_protocol url with
          | Some protocol => bool_decide (protocol ∈ ALLOWED_PROTOCOLS)
          | None => false
          end
       && bool_decide (method ∈ ALLOWED_METHODS)
       && match body with
          | Some [] => false
          | _ => true
          end
    then fetch url method headers body
    else inl ThrownOther.

Definition withFetch
  (fetch : list N -> list N -> gmap (list N) (list N) -> option (list N)
           -> result FetchResponse) (w : MainWorld) : MainWorld :=
  {| fetch := fetch; startedAt := startedAt w; finishedAt := finishedAt w |}.

(** * Properties *)

(** Closed goals on concrete strings are settled by evaluation. *)
Ltac by_evaluation :=
  lazymatch goal with
  | |- ?x ∉ ?l =>
      apply (bool_decide_eq_false_1 (x ∈ l)); vm_compute; reflexivity
  | |- ?x ∈ ?l =>
      apply (bool_decide_eq_true_1 (x ∈ l)); vm_compute; reflexivity
  | |- _ <> _ => vm_compute; discriminate
  | |- _ => vm_compute; reflexivity
  end.


(** ** Plain objects *)

Lemma setProperty_insert key value obj :
  key <> js "__proto__" -> setProperty key value obj = <[key := value]> obj.
Proof.
  intros Hkey. unfold setProperty.
  rewrite bool_decide_eq_false_2 by exact Hkey. reflexivity.
Qed.

Lemma setProperty_proto value obj :
  obj !! js "__proto__" = None ->
  setProperty (js "__proto__") value obj = obj.
Proof.
  intros Hnone. unfold setProperty.
  rewrite bool_decide_eq_true_2, Hnone by reflexivity. reflexivity.
Qed.

(** Writing a property of one name leaves every other name alone. *)
Lemma setProperty_lookup_ne key value obj name :
  key <> name -> setProperty key value obj !! name = obj !! name.
Proof.
  intros Hne. unfold setProperty.
  destruct (bool_decide (key = js "__proto__")); [destruct (obj !! key)|];
    try reflexivity; apply lookup_insert_ne, Hne.
Qed.

(** The name [__proto__] does not become an own property by writing. *)
Lemma setProperty_keeps_proto key value obj :
  obj !! js "__proto__" = None ->
  setProperty key value obj !! js "__proto__" = None.
Proof.
  intros Hnone. destruct (decide (key = js "__proto__")) as [->|Hne].
  - rewrite setProperty_proto; exact Hnone.
  - rewrite setProperty_lookup_ne; [exact Hnone | exact Hne].
Qed.

Lemma setProperty_lookup_eq key value obj :
  key <> js "__proto__" -> setProperty key value obj !! key = Some value.
Proof.
  intros Hkey. rewrite setProperty_insert by exact Hkey.
  apply lookup_insert_eq.
Qed.

(** Reading depends on the own property of the name alone. *)
Lemma valueOrEmpty_agree obj1 obj2 name :
  obj1 !! name = obj2 !! name ->
  valueOrEmpty obj1 name = valueOrEmpty obj2 name.
Proof. intros H. unfold valueOrEmpty. rewrite H. reflexivity. Qed.

(** ** Character classes *)

Ltac class_facts :=
  unfold Char.isWhiteSpace, Char.isNameChar, Char.isWord, Char.isAlnum,
    Char.isDigit, Char.isUpper, Char.isLower, Char.between,
    Char.underscore, Char.dot, Char.hyphen, Char.lbrace, Char.rbrace in *;
  repeat match goal with
         | H : _ || _ = true |- _ => apply orb_true_iff in H; destruct H
         | H : _ && _ = true |- _ => apply andb_true_iff in H; destruct H
         | H : (_ =? _) = true |- _ => apply N.eqb_eq in H
         | H : (_ <=? _) = true |- _ => apply N.leb_le in H
         end.

Lemma white_not_name c :
  Char.isWhiteSpace c = true -> Char.isNameChar c = false.
Proof.
  intros Hw. destruct (Char.isNameChar c) eqn:Hn; [|reflexivity].
  exfalso. class_facts; lia.
Qed.

Lemma name_not_white c :
  Char.isNameChar c = true -> Char.isWhiteSpace c = false.
Proof.
  intros Hn. destruct (Char.isWhiteSpace c) eqn:Hw; [|reflexivity].
  apply white_not_name in Hw. congruence.
Qed.

(** ** The matcher *)

Module RegExpFacts.
Import RegExp.

Lemma greedy_stop t k s : stops t s -> greedy t k s = k s.
Proof. destruct s as [|c s]; simpl; [reflexivity|]. intros ->. reflexivity. Qed.

(** A greedy term takes a whole run of accepted characters when the
    rest of the pattern matches behind it. *)
Lemma greedy_take t k a b g rest :
  Forall (fun c => accepts t c = true) a ->
  greedy t k b = Some (g, rest) ->
  greedy t k (a ++ b) = Some (if captures t then a ++ g else g, rest).
Proof.
  intros Ha Hb. induction Ha as [|c a Hc Ha IH]; simpl.
  - rewrite Hb. destruct (captures t); reflexivity.
  - rewrite Hc, IH. simpl. destruct (captures t); reflexivity.
Qed.

(** Whatever a greedy term returns, it took accepted characters only
    and the rest of the pattern matched behind them. *)
Lemma greedy_sound t k s g rest :
  greedy t k s = Some (g, rest) ->
  exists a b g',
    s = a ++ b /\ Forall (fun c => accepts t c = true) a
    /\ k b = Some (g', rest)
    /\ g = if captures t then a ++ g' else g'.
Proof.
  revert g rest. induction s as [|c s IH]; intros g rest; simpl.
  - intros H. exists [], [], g. destruct (captures t); auto.
  - destruct (accepts t c) eqn:Hc.
    + destruct (greedy t k s) as [[g1 r1]|] eqn:Hg.
      * simpl. intros [= <- <-].
        destruct (IH _ _ eq_refl) as (a & b & g' & -> & Ha & Hk & ->).
        exists (c :: a), b, g'. repeat split; auto.
        destruct (captures t); reflexivity.
      * intros H. exists [], (c :: s), g.
        destruct (captures t); auto.
    + intros H. exists [], (c :: s), g. destruct (captures t); auto.
Qed.

(** The characters a match skips are replaced as a whole. *)
Lemma replaceFrom_skip re f a s :
  replaceFrom re f (a ++ s) (length a) = replaceFrom re f s 0.
Proof. induction a as [|c a IH]; simpl; auto. Qed.

Lemma replaceAll_match re f m g rest :
  m <> [] ->
  matchHere re (m ++ rest) = Some (g, rest) ->
  replaceAll re f (m ++ rest) = f g ++ replaceAll re f rest.
Proof.
  intros Hm Hmatch. unfold replaceAll.
  destruct m as [|c m]; [congruence|].
  change ((c :: m) ++ rest) with (c :: (m ++ rest)) in *.
  cbn [replaceFrom]. rewrite Hmatch.
  replace (length (c :: m ++ rest) - length rest)%nat with (S (length m)).
  - rewrite replaceFrom_skip. reflexivity.
  - simpl. rewrite length_app. lia.
Qed.

Lemma replaceAll_miss re f c s :
  matchHere re (c :: s) = None ->
  replaceAll re f (c :: s) = c :: replaceAll re f s.
Proof. intros H. unfold replaceAll. cbn [replaceFrom]. rewrite H. reflexivity. Qed.

Lemma matchHere_lit c re s :
  matchHere (lit c :: re) s
  = match s with
    | d :: s' => if c =? d then matchHere re s' else None
    | [] => None
    end.
Proof.
  destruct s as [|d s]; [reflexivity|]. cbn.
  destruct (c =? d); [|reflexivity].
  destruct (matchHere re s) as [[g rest]|]; reflexivity.
Qed.

End RegExpFacts.

(** ** Placeholders and the pattern *)

Lemma placeholder_found name m rest :
  isPlaceholder name m ->
  RegExp.matchHere placeholderRe (m ++ rest) = Some (name, rest).
Proof.
  intros (ws1 & ws2 & -> & Hws1 & Hws2 & Hne & Hname).
  destruct name as [|n name]; [congruence|].
  apply Forall_cons in Hname as [Hn Hname].
  set (closing := [Char.rbrace; Char.rbrace] ++ rest).
  set (re3 := [RegExp.lit Char.rbrace; RegExp.lit Char.rbrace]).
  set (tws := RegExp.Term Char.isWhiteSpace RegExp.Star false).
  set (tname := RegExp.Term Char.isNameChar RegExp.Plus true).
  assert (H3 : RegExp.matchHere re3 closing = Some ([], rest)) by reflexivity.
  assert (H2 : RegExp.greedy tws (RegExp.matchHere re3) (ws2 ++ closing)
               = Some ([], rest)).
  { apply (RegExpFacts.greedy_take tws _ ws2 closing [] rest Hws2).
    rewrite RegExpFacts.greedy_stop; [exact H3 | reflexivity]. }
  assert (H1 : RegExp.greedy tname (RegExp.matchHere (tws :: re3))
                 (name ++ ws2 ++ closing) = Some (name, rest)).
  { rewrite (RegExpFacts.greedy_take tname _ name (ws2 ++ closing) [] rest Hname).
    - simpl. rewrite app_nil_r. reflexivity.
    - rewrite RegExpFacts.greedy_stop; [exact H2|].
      destruct Hws2 as [|w ws2 Hw _]; simpl; [reflexivity|].
      apply white_not_name, Hw. }
  assert (H0 : RegExp.greedy tws (RegExp.matchHere (tname :: tws :: re3))
                 (ws1 ++ (n :: name) ++ ws2 ++ closing)
               = Some (n :: name, rest)).
  { apply (RegExpFacts.greedy_take tws _ ws1 _ (n :: name) rest Hws1).
    rewrite RegExpFacts.greedy_stop; [| apply name_not_white, Hn].
    change ((if Char.isNameChar n
             then RegExp.keep tname n
                    (RegExp.greedy tname (RegExp.matchHere (tws :: re3))
                       (name ++ ws2 ++ closing))
             else None) = Some (n :: name, rest)).
    rewrite Hn, H1. reflexivity. }
  replace (([Char.lbrace; Char.lbrace] ++ ws1 ++ (n :: name) ++ ws2
            ++ [Char.rbrace; Char.rbrace]) ++ rest)
    with (Char.lbrace :: Char.lbrace
          :: (ws1 ++ (n :: name) ++ ws2 ++ closing)).
  - unfold placeholderRe. rewrite !RegExpFacts.matchHere_lit, !N.eqb_refl.
    exact H0.
  - subst closing. simpl. rewrite <- !app_assoc. simpl.
    rewrite <- !app_assoc. reflexivity.
Qed.

Lemma found_placeholder s name rest :
  RegExp.matchHere placeholderRe s = Some (name, rest) ->
  exists m, isPlaceholder name m /\ s = m ++ rest.
Proof.
  set (re3 := [RegExp.lit Char.rbrace; RegExp.lit Char.rbrace]).
  set (tws := RegExp.Term Char.isWhiteSpace RegExp.Star false).
  set (tname := RegExp.Term Char.isNameChar RegExp.Plus true).
  unfold placeholderRe. rewrite RegExpFacts.matchHere_lit.
  destruct s as [|c1 s]; [discriminate|].
  destruct (N.eqb_spec Char.lbrace c1) as [<-|]; [|discriminate].
  rewrite RegExpFacts.matchHere_lit.
  destruct s as [|c2 s]; [discriminate|].
  destruct (N.eqb_spec Char.lbrace c2) as [<-|]; [|discriminate].
  intros H.
  change (RegExp.greedy tws (RegExp.matchHere (tname :: tws :: re3)) s
          = Some (name, rest)) in H.
  apply RegExpFacts.greedy_sound in H as (ws1 & s1 & g1 & -> & Hws1 & H & ->).
  simpl RegExp.captures in *. cbv iota in *.
  destruct s1 as [|n s1]; [discriminate|].
  change ((if Char.isNameChar n
           then RegExp.keep tname n
                  (RegExp.greedy tname (RegExp.matchHere (tws :: re3)) s1)
           else None) = Some (g1, rest)) in H.
  destruct (Char.isNameChar n) eqn:Hn; [|discriminate].
  destruct (RegExp.greedy tname (RegExp.matchHere (tws :: re3)) s1)
    as [[g2 r2]|] eqn:H1; [|discriminate].
  simpl in H. injection H as <- <-.
  apply RegExpFacts.greedy_sound in H1 as (nm & s2 & g3 & -> & Hnm & H2 & ->).
  change (RegExp.greedy tws (RegExp.matchHere re3) s2 = Some (g3, r2)) in H2.
  apply RegExpFacts.greedy_sound in H2 as (ws2 & s3 & g4 & -> & Hws2 & H3 & ->).
  simpl RegExp.captures in *. cbv iota in *.
  unfold re3 in H3. rewrite RegExpFacts.matchHere_lit in H3.
  destruct s3 as [|c3 s3]; [discriminate|].
  destruct (N.eqb_spec Char.rbrace c3) as [<-|]; [|discriminate].
  rewrite RegExpFacts.matchHere_lit in H3.
  destruct s3 as [|c4 s3]; [discriminate|].
  destruct (N.eqb_spec Char.rbrace c4) as [<-|]; [|discriminate].
  injection H3 as <- <-.
  exists ([Char.lbrace; Char.lbrace] ++ ws1 ++ (n :: nm) ++ ws2
          ++ [Char.rbrace; Char.rbrace]).
  split.
  - exists ws1, ws2. rewrite app_nil_r. repeat split; auto.
  - simpl. rewrite <- !app_assoc. simpl.
    rewrite <- !app_assoc. reflexivity.
Qed.

(** ** The contract of [applyVariables] *)

Lemma applyVariables_placeholder vars name m rest :
  isPlaceholder name m ->
  applyVariables (m ++ rest) vars
  = valueOrEmpty vars name ++ applyVariables rest vars.
Proof.
  intros Hm. unfold applyVariables.
  apply (RegExpFacts.replaceAll_match placeholderRe
           (fun key => valueOrEmpty vars key) m name rest).
  - destruct Hm as (ws1 & ws2 & -> & _). discriminate.
  - apply placeholder_found, Hm.
Qed.

Lemma applyVariables_other vars c s :
  ~ startsWithPlaceholder (c :: s) ->
  applyVariables (c :: s) vars = c :: applyVariables s vars.
Proof.
  intros Hno. unfold applyVariables.
  apply RegExpFacts.replaceAll_miss.
  destruct (RegExp.matchHere placeholderRe (c :: s)) as [[name rest]|] eqn:H;
    [|reflexivity].
  exfalso. apply Hno. apply found_placeholder in H as (m & Hm & ->).
  exists name, m, rest. auto.
Qed.

Lemma applyVariables_plain vars s :
  ~ hasPlaceholder s -> applyVariables s vars = s.
Proof.
  induction s as [|c s IH]; intros Hno; [reflexivity|].
  rewrite applyVariables_other.
  - f_equal. apply IH. intros (pre & post & -> & Hp).
    apply Hno. exists (c :: pre), post. auto.
  - intros Hp. apply Hno. exists [], (c :: s). auto.
Qed.

(** A placeholder is two opening braces around a body without opening
    brace that is not empty. *)
Lemma placeholder_shape name m :
  isPlaceholder name m ->
  exists b body,
    m = Char.lbrace :: Char.lbrace :: b :: body
    /\ Forall (fun c => c <> Char.lbrace) (b :: body).
Proof.
  intros (ws1 & ws2 & -> & Hws1 & Hws2 & Hne & Hname).
  assert (Hbody : Forall (fun c => c <> Char.lbrace)
                    (ws1 ++ name ++ ws2 ++ [Char.rbrace; Char.rbrace])).
  { rewrite !Forall_app. repeat split.
    - eapply Forall_impl; [exact Hws1|]. intros c Hc ->. discriminate Hc.
    - eapply Forall_impl; [exact Hname|]. intros c Hc ->. discriminate Hc.
    - eapply Forall_impl; [exact Hws2|]. intros c Hc ->. discriminate Hc.
    - repeat constructor; discriminate. }
  destruct (ws1 ++ name ++ ws2 ++ [Char.rbrace; Char.rbrace])
    as [|b body] eqn:Hb.
  - exfalso. destruct ws1; [|discriminate]. destruct name; [congruence|].
    discriminate.
  - exists b, body. split; [reflexivity | exact Hbody].
Qed.

(** A placeholder at the start of a text does not reach into a
    placeholder that starts later in the text. *)
Lemma placeholder_no_overlap n0 m0 rest0 n m pre post :
  isPlaceholder n0 m0 ->
  isPlaceholder n m ->
  m0 ++ rest0 = pre ++ m ++ post ->
  pre <> [] ->
  exists pre', pre = m0 ++ pre'.
Proof.
  intros H0 Hm Heq Hpre.
  apply placeholder_shape in H0 as (b0 & body0 & -> & Hbody0).
  apply placeholder_shape in Hm as (b & body & -> & _).
  apply app_eq_inv in Heq as [[l [Hm0 Hl]] | [l [Hp _]]]; [|eauto].
  destruct l as [|c l]; [exists []; rewrite Hm0, !app_nil_r; reflexivity|].
  exfalso. simpl in Hl. injection Hl as <- Hl.
  destruct pre as [|p1 pre]; [congruence|].
  simpl in Hm0. injection Hm0 as <- Hm0.
  destruct pre as [|p2 pre].
  - simpl in Hm0. injection Hm0 as Hl0. subst l.
    simpl in Hl. injection Hl as Hb0 _.
    apply Forall_cons in Hbody0 as [Hb _]. congruence.
  - simpl in Hm0. injection Hm0 as _ Hm0.
    rewrite Hm0 in Hbody0. apply Forall_app in Hbody0 as [_ Hl0].
    apply Forall_cons in Hl0 as [Hc _]. congruence.
Qed.

Lemma applyVariables_occurrence vars t name m rest :
  ~ hasPlaceholder t ->
  isPlaceholder name m ->
  applyVariables (t ++ m ++ rest) vars
  = t ++ valueOrEmpty vars name ++ applyVariables rest vars.
Proof.
  intros Ht Hm. induction t as [|c t IH].
  - apply (applyVariables_placeholder vars name m rest Hm).
  - simpl. rewrite applyVariables_other.
    + f_equal. apply IH. intros (pre & post & -> & Hp).
      apply Ht. exists (c :: pre), post. auto.
    + intros (n0 & m0 & rest0 & H0 & Heq). apply Ht.
      destruct (placeholder_no_overlap n0 m0 rest0 name m (c :: t) rest H0 Hm)
        as [pre' Hpre]; [symmetry; exact Heq | discriminate |].
      exists [], (c :: t). split; [reflexivity|].
      exists n0, m0, pre'. auto.
Qed.

(** Every text has no placeholder at all or reads as a text without
    placeholder, a placeholder and a rest. *)
Lemma first_placeholder s :
  ~ hasPlaceholder s
  \/ exists t name m rest,
      s = t ++ m ++ rest /\ ~ hasPlaceholder t /\ isPlaceholder name m.
Proof.
  induction s as [|c s IH].
  - left. intros (pre & post & Heq & (n & m & rest & Hm & ->)).
    apply placeholder_shape in Hm as (b & body & -> & _).
    destruct pre; discriminate.
  - destruct (RegExp.matchHere placeholderRe (c :: s)) as [[name rest]|] eqn:H.
    + right. apply found_placeholder in H as (m & Hm & ->).
      exists [], name, m, rest. repeat split; auto.
      intros (pre & post & Heq & (n & m' & rest' & Hm' & ->)).
      apply placeholder_shape in Hm' as (b & body & -> & _).
      destruct pre; discriminate.
    + assert (Hhere : ~ startsWithPlaceholder (c :: s)).
      { intros (n & m & rest & Hm & Heq).
        rewrite Heq, (placeholder_found _ _ rest Hm) in H. discriminate. }
      destruct IH as [Hno | (t & name & m & rest & -> & Ht & Hm)].
      * left. intros (pre & post & Heq & Hp).
        destruct pre as [|p pre]; simpl in Heq.
        -- subst post. auto.
        -- injection Heq as <- ->. apply Hno. exists pre, post. auto.
      * right. exists (c :: t), name, m, rest. repeat split; auto.
        intros (pre & post & Heq & Hp).
        destruct pre as [|p pre]; simpl in Heq.
        -- subst post. destruct Hp as (n0 & m0 & rest0 & H0 & Heq).
           apply Hhere. exists n0, m0, (rest0 ++ m ++ rest).
           split; [exact H0|].
           change (c :: t ++ m ++ rest) with ((c :: t) ++ m ++ rest).
           rewrite Heq, <- app_assoc. reflexivity.
        -- injection Heq as <- ->. apply Ht. exists pre, post. auto.
Qed.

(** A placeholder is replaced wherever it occurs. *)
Lemma applyVariables_every_occurrence vars t name m rest :
  isPlaceholder name m ->
  applyVariables (t ++ m ++ rest) vars
  = applyVariables t vars ++ valueOrEmpty vars name
    ++ applyVariables rest vars.
Proof.
  intros Hm. remember (length t) as n eqn:Hn. revert t Hn.
  induction n as [n IH] using lt_wf_ind. intros t ->.
  destruct (first_placeholder t)
    as [Hno | (t0 & n0 & m0 & rest0 & -> & Ht0 & Hm0)].
  - rewrite (applyVariables_occurrence vars t name m rest Hno Hm).
    rewrite (applyVariables_plain vars t Hno). reflexivity.
  - rewrite <- !app_assoc.
    rewrite (applyVariables_occurrence vars t0 n0 m0 _ Ht0 Hm0).
    rewrite (applyVariables_occurrence vars t0 n0 m0 rest0 Ht0 Hm0).
    rewrite (IH (length rest0)); [| | reflexivity].
    + rewrite <- !app_assoc. reflexivity.
    + apply placeholder_shape in Hm0 as (b & body & -> & _).
      rewrite !length_app. simpl. lia.
Qed.

(** The names [Object.prototype] has. *)
Lemma inheritedText_names name :
  is_Some (inheritedText name)
  <-> name ∈ js "__proto__" :: js "constructor" :: ObjectPrototypeMethods.
Proof.
  unfold inheritedText. rewrite !elem_of_cons.
  destruct (bool_decide_reflect (name = js "__proto__")) as [H1|H1];
    [split; eauto|].
  destruct (bool_decide_reflect (name = js "constructor")) as [H2|H2];
    [split; eauto|].
  destruct (bool_decide_reflect (name ∈ ObjectPrototypeMethods)) as [H3|H3];
    [split; eauto|].
  split; [intros [? H]; discriminate H | intros [?|[?|?]]; contradiction].
Qed.

(** What the prototype has under a name is never the empty string. *)
Lemma inheritedText_nonempty name text :
  inheritedText name = Some text -> text <> [].
Proof.
  unfold inheritedText, nativeCode. repeat case_bool_decide; intros [= <-];
    discriminate.
Qed.

(** X29. [applyVariables] returns for every input and every variable
    map.  Text in which no placeholder occurs is returned as it is.  A
    placeholder for [name], wherever it occurs in a text, is replaced by
    the value of [name] in the map; when the map has no such name, by
    the text of the member of [Object.prototype] of that name, which is
    not empty, when [name] is [__proto__], [constructor] or the name of
    one of its methods, and by nothing for every other name.  The text
    before the placeholder and the text after it are resolved on their
    own.  Every text has no placeholder or reads as a text without
    placeholder, a placeholder and a rest, so the equations give the
    result for every input. *)
Theorem applyVariables_contract vars :
  (forall s, ~ hasPlaceholder s -> applyVariables s vars = s)
  /\ (forall t name m rest value,
        isPlaceholder name m ->
        vars !! name = Some value ->
        applyVariables (t ++ m ++ rest) vars
        = applyVariables t vars ++ value ++ applyVariables rest vars)
  /\ (forall t name m rest,
        isPlaceholder name m ->
        vars !! name = None ->
        name ∉ js "__proto__" :: js "constructor" :: ObjectPrototypeMethods ->
        applyVariables (t ++ m ++ rest) vars
        = applyVariables t vars ++ applyVariables rest vars)
  /\ (forall t name m rest,
        isPlaceholder name m ->
        vars !! name = None ->
        name ∈ js "__proto__" :: js "constructor" :: ObjectPrototypeMethods ->
        exists text,
          inheritedText name = Some text /\ text <> []
          /\ applyVariables (t ++ m ++ rest) vars
             = applyVariables t vars ++ text ++ applyVariables rest vars)
  /\ (forall s,
        ~ hasPlaceholder s
        \/ exists t name m rest,
            s = t ++ m ++ rest /\ ~ hasPlaceholder t
            /\ isPlaceholder name m).
Proof.
  split; [intros s; apply applyVariables_plain|].
  split; [| split; [| split; [| exact first_placeholder] ] ].
  - intros t name m rest value Hm Hv.
    rewrite (applyVariables_every_occurrence vars t name m rest Hm).
    unfold valueOrEmpty. rewrite Hv. reflexivity.
  - intros t name m rest Hm Hv Hname.
    rewrite (applyVariables_every_occurrence vars t name m rest Hm).
    unfold valueOrEmpty. rewrite Hv.
    destruct (inheritedText name) as [text|] eqn:Ht; [|reflexivity].
    exfalso. apply Hname, inheritedText_names. eauto.
  - intros t name m rest Hm Hv Hname.
    apply inheritedText_names in Hname as [text Ht]. exists text.
    split; [exact Ht|]. split; [eapply inheritedText_nonempty, Ht|].
    rewrite (applyVariables_every_occurrence vars t name m rest Hm).
    unfold valueOrEmpty. rewrite Hv, Ht. reflexivity.
Qed.

(** Text without an opening brace has no placeholder. *)
Lemma no_brace_no_placeholder s :
  Char.lbrace ∉ s -> ~ hasPlaceholder s.
Proof.
  intros Hs (pre & post & -> & (n & m & rest & Hm & ->)).
  apply placeholder_shape in Hm as (b & body & -> & _).
  apply Hs. rewrite !elem_of_app. right. left. left.
Qed.

Lemma a_placeholder (ws1 name ws2 : string) :
  forallb Char.isWhiteSpace (js ws1) = true ->
  forallb Char.isWhiteSpace (js ws2) = true ->
  forallb Char.isNameChar (js name) = true ->
  js name <> [] ->
  isPlaceholder (js name)
    ([Char.lbrace; Char.lbrace] ++ js ws1 ++ js name ++ js ws2
     ++ [Char.rbrace; Char.rbrace]).
Proof.
  intros H1 H2 Hn Hne. exists (js ws1), (js ws2).
  rewrite !List.Forall_forall. rewrite !forallb_forall in *. auto.
Qed.

(** A known and an unknown variable in one URL. *)
Lemma applyVariables_contract_witness :
  applyVariables (js "https://{{ host }}/v1/{{nope}}/users")
    {[ js "host" := js "api.example.com" ]}
  = js "https://api.example.com/v1//users".
Proof.
  destruct (applyVariables_contract {[ js "host" := js "api.example.com" ]})
    as (Hplain & Hknown & Hunknown & _).
  change (js "https://{{ host }}/v1/{{nope}}/users")
    with (js "https://"
          ++ ([Char.lbrace; Char.lbrace] ++ js " " ++ js "host" ++ js " "
              ++ [Char.rbrace; Char.rbrace])
          ++ js "/v1/{{nope}}/users").
  rewrite (Hknown _ (js "host") _ _ (js "api.example.com"));
    [| apply a_placeholder; by_evaluation | reflexivity].
  change (js "/v1/{{nope}}/users")
    with (js "/v1/"
          ++ ([Char.lbrace; Char.lbrace] ++ js "" ++ js "nope" ++ js ""
              ++ [Char.rbrace; Char.rbrace])
          ++ js "/users").
  rewrite (Hunknown _ (js "nope"));
    [| apply a_placeholder; by_evaluation | reflexivity | by_evaluation].
  rewrite !Hplain; [reflexivity | | | ];
    apply no_brace_no_placeholder; by_evaluation.
Defined.

(** C1 as stated has a placeholder whose name the map lacks replaced by
    the empty string.  For the draft URL [{{constructor}}] resolved
    without any variable the map has no name [constructor], and the
    placeholder is replaced not by the empty string but by the text of
    the function [Object], which the empty object inherits under that
    name; so it is with the map [variableMap] makes of an empty list of
    variables. *)
Theorem applyVariables_inherited_name :
  (∅ : gmap (list N) (list N)) !! js "constructor" = None
  /\ applyVariables (js "{{constructor}}") ∅
     = js "function Object() { [native code] }"
  /\ applyVariables (js "{{constructor}}") ∅ <> []
  /\ applyVariables (js "{{constructor}}") (variableMap [])
     = js "function Object() { [native code] }".
Proof.
  assert (H : applyVariables (js "{{constructor}}") ∅
              = js "function Object() { [native code] }")
    by (vm_compute; reflexivity).
  split; [reflexivity|]. split; [exact H|].
  split; [rewrite H; discriminate | exact H].
Qed.

(** ** Searching for one character *)

Lemma startsWith_single c s :
  startsWith [c] s = match s with d :: _ => c =? d | [] => false end.
Proof. destruct s as [|d s]; simpl; [reflexivity|]. apply andb_true_r. Qed.

Lemma indexOfFrom_absent c s i :
  c ∉ s -> indexOfFrom [c] s i = (-1)%Z.
Proof.
  revert i. induction s as [|d s IH]; intros i Hc; [reflexivity|].
  cbn [indexOfFrom]. rewrite startsWith_single.
  apply not_elem_of_cons in Hc as [Hcd Hc].
  destruct (N.eqb_spec c d); [congruence|]. apply IH, Hc.
Qed.

Lemma indexOfFrom_first c pre post i :
  c ∉ pre ->
  indexOfFrom [c] (pre ++ c :: post) i = (i + Z.of_nat (length pre))%Z.
Proof.
  revert i. induction pre as [|d pre IH]; intros i Hc.
  - cbn [indexOfFrom app]. rewrite startsWith_single, N.eqb_refl.
    simpl. lia.
  - apply not_elem_of_cons in Hc as [Hcd Hc].
    cbn [indexOfFrom app]. rewrite startsWith_single.
    destruct (N.eqb_spec c d); [congruence|].
    rewrite IH by exact Hc. simpl length. lia.
Qed.

Lemma includes_single s c :
  includes s [c] = bool_decide (c ∈ s).
Proof.
  unfold includes, indexOf. destruct (decide (c ∈ s)) as [Hin|Hout].
  - rewrite (bool_decide_eq_true_2 _ Hin).
    apply list_elem_of_split in Hin as (pre & post & ->).
    assert (Hfirst : exists pre' post', pre ++ c :: post = pre' ++ c :: post'
                                        /\ c ∉ pre').
    { clear. induction pre as [|d pre (pre' & post' & Heq & Hc)].
      - exists [], post. split; [reflexivity|]. apply not_elem_of_nil.
      - destruct (decide (c = d)) as [<-|Hne].
        + exists [], (pre ++ c :: post). split; [reflexivity|].
          apply not_elem_of_nil.
        + exists (d :: pre'), post'. split.
          * simpl. rewrite Heq. reflexivity.
          * apply not_elem_of_cons. auto. }
    destruct Hfirst as (pre' & post' & -> & Hc).
    rewrite indexOfFrom_first by exact Hc. apply Z.leb_le. lia.
  - rewrite (bool_decide_eq_false_2 _ Hout), indexOfFrom_absent by exact Hout.
    reflexivity.
Qed.

(** ** Well-formed strings and [encodeURIComponent] *)

Lemma unescaped_not_surrogate c :
  isUnescaped c = true ->
  Char.isLowSurrogate c = false /\ Char.isHighSurrogate c = false.
Proof.
  unfold isUnescaped, Char.isLowSurrogate, Char.isHighSurrogate,
    Char.isAlnum, Char.isDigit, Char.isUpper, Char.isLower, Char.between.
  simpl existsb. intros H.
  repeat match goal with
         | H : _ || _ = true |- _ => apply orb_true_iff in H; destruct H
         | H : _ && _ = true |- _ => apply andb_true_iff in H; destruct H
         | H : (_ =? _) = true |- _ => apply N.eqb_eq in H
         | H : (_ <=? _) = true |- _ => apply N.leb_le in H
         | H : false = true |- _ => discriminate H
         end;
    (split; apply andb_false_iff;
     rewrite !N.leb_gt; lia).
Qed.

(** [encodeURIComponent] returns exactly on the well-formed strings. *)
Lemma encodeURIComponent_returns s :
  isWellFormed s = true <-> exists r, encodeURIComponent s = inr r.
Proof.
  remember (length s) as n eqn:Hn. revert s Hn.
  induction n as [n IH] using lt_wf_ind. intros s Hn.
  destruct s as [|c s]; [simpl; split; eauto|].
  cbn [encodeURIComponent isWellFormed].
  destruct (isUnescaped c) eqn:Hu.
  - destruct (unescaped_not_surrogate c Hu) as [-> ->].
    rewrite (IH (length s)) by (simpl in Hn; lia || reflexivity).
    destruct (encodeURIComponent s) as [t|r]; simpl.
    + split; intros [r H]; discriminate.
    + split; eauto.
  - destruct (Char.isLowSurrogate c).
    { split; [discriminate | intros [r H]; discriminate]. }
    destruct (Char.isHighSurrogate c).
    + destruct s as [|d s]; [split; [discriminate | intros [r H]; discriminate]|].
      destruct (Char.isLowSurrogate d); simpl;
        [| split; [discriminate | intros [r H]; discriminate] ].
      rewrite (IH (length s)) by (simpl in Hn; lia || reflexivity).
      destruct (encodeURIComponent s) as [t|r]; simpl.
      * split; intros [r H]; discriminate.
      * split; eauto.
    + rewrite (IH (length s)) by (simpl in Hn; lia || reflexivity).
      destruct (encodeURIComponent s) as [t|r]; simpl.
      * split; intros [r H]; discriminate.
      * split; eauto.
Qed.

Lemma encodePair_returns k v :
  isWellFormed k = true -> isWellFormed v = true ->
  exists part, encodePair (k, v) = inr part.
Proof.
  intros Hk Hv.
  apply encodeURIComponent_returns in Hk as [k' Hk].
  apply encodeURIComponent_returns in Hv as [v' Hv].
  exists (k' ++ Char.equals :: v'). unfold encodePair.
  cbn [fst snd]. rewrite Hk. cbn [mbind result_bind]. rewrite Hv.
  reflexivity.
Qed.

Lemma encodeQuery_returns pairs :
  Forall (fun kv : list N * list N =>
            isWellFormed kv.1 = true /\ isWellFormed kv.2 = true) pairs ->
  exists query, encodeQuery pairs = inr query.
Proof.
  intros Hwf. unfold encodeQuery.
  assert (H : exists parts, mapM encodePair pairs = inr parts).
  { induction Hwf as [|[k v] pairs [Hk Hv] _ [parts IH]];
      [exists []; reflexivity|].
    destruct (encodePair_returns k v Hk Hv) as [part Hpart].
    exists (part :: parts). cbn [mapM]. rewrite Hpart.
    cbn [mbind result_bind]. rewrite IH. reflexivity. }
  destruct H as [parts ->]. eexists. reflexivity.
Qed.

(** ** C3: [buildUrl] and the fragment *)

Lemma resolvePairs_nonempty params vars :
  List.filter isSelected params <> [] ->
  (length (resolvePairs params vars) =? 0)%nat = false.
Proof.
  intros Hsel. unfold resolvePairs. rewrite length_map.
  destruct (List.filter isSelected params); [congruence | reflexivity].
Qed.

(** C3. When the resolved base URL has a fragment (it reads [pre], then
    the first ['#'], then [post]) and at least one parameter is selected,
    [buildUrl] returns exactly when the query string can be assembled,
    and its result is [pre], the separator (['&'] when [pre] contains
    ['?'], else ['?']), the query string, and then the fragment.  The
    query string can be assembled whenever the resolved keys and values
    are well-formed strings.  On the example of the specification the
    result is ["https://h/p?a=1&b=2#frag"]. *)
Theorem buildUrl_query_before_fragment :
  (forall url params vars pre post,
      applyVariables url vars = pre ++ Char.hash :: post ->
      Char.hash ∉ pre ->
      List.filter isSelected params <> [] ->
      buildUrl url params vars
      = (query ← encodeQuery (resolvePairs params vars);
         mret (pre
               ++ (if bool_decide (Char.question ∈ pre) then [Char.amp]
                   else [Char.question])
               ++ query ++ Char.hash :: post)))
  /\ (forall pairs,
        Forall (fun kv : list N * list N =>
                  isWellFormed kv.1 = true /\ isWellFormed kv.2 = true)
          pairs ->
        exists query, encodeQuery pairs = inr query)
  /\ buildUrl (js "https://h/p?a=1#frag")
       [ {| kv_id := js "1"; kv_key := js "b"; kv_value := js "2";
            kv_enabled := true; kv_secret := None |} ] ∅
     = inr (js "https://h/p?a=1&b=2#frag").
Proof.
  split; [| split; [exact encodeQuery_returns | vm_compute; reflexivity] ].
  intros url params vars pre post Hbase Hfirst Hsel.
  unfold buildUrl. rewrite (resolvePairs_nonempty _ _ Hsel), Hbase.
  unfold indexOf. rewrite indexOfFrom_first by exact Hfirst.
  replace (0 <=? 0 + Z.of_nat (length pre))%Z with true
    by (symmetry; apply Z.leb_le; lia).
  unfold sliceTo, sliceFrom.
  replace (Z.to_nat (0 + Z.of_nat (length pre))) with (length pre) by lia.
  rewrite take_app_length, drop_app_length, includes_single.
  reflexivity.
Qed.

(** The example of C3, obtained from the general statement. *)
Lemma buildUrl_query_before_fragment_witness :
  buildUrl (js "https://h/p?a=1#frag")
    [ {| kv_id := js "7"; kv_key := js " b "; kv_value := js "{{v}}";
         kv_enabled := true; kv_secret := None |} ]
    {[ js "v" := js "2" ]}
  = inr (js "https://h/p?a=1&b=2#frag").
Proof.
  rewrite (proj1 buildUrl_query_before_fragment _ _ _
             (js "https://h/p?a=1") (js "frag")).
  - vm_compute. reflexivity.
  - vm_compute. reflexivity.
  - by_evaluation.
  - vm_compute. discriminate.
Defined.

(** ** C4: authentication overrides the explicit headers *)

(** C4. With bearer authentication [buildHeaders] returns, for every
    header list and every variable map, a map in which ["Authorization"]
    is ["Bearer "] followed by the token, whatever the list says about
    that header; so it is for a list that sets [Authorization] itself. *)
Theorem buildHeaders_bearer_overrides :
  (forall headers vars token,
      exists resolved,
        buildHeaders headers (AuthBearer token) vars = inr resolved
        /\ resolved !! js "Authorization" = Some (js "Bearer " ++ token))
  /\ (exists resolved,
        buildHeaders
          [ {| kv_id := js "1"; kv_key := js "Authorization";
               kv_value := js "Basic dXNlcjpwYXNz"; kv_enabled := true;
               kv_secret := None |} ]
          (AuthBearer (js "abc")) ∅ = inr resolved
        /\ resolved !! js "Authorization" = Some (js "Bearer abc")).
Proof.
  assert (H : forall headers vars token,
             exists resolved,
               buildHeaders headers (AuthBearer token) vars = inr resolved
               /\ resolved !! js "Authorization"
                  = Some (js "Bearer " ++ token)).
  { intros headers vars token. eexists. split; [reflexivity|].
    apply lookup_insert_eq. }
  split; [exact H|]. apply H.
Qed.

(** ** C5: no body for GET and HEAD *)

Lemma selectBody_get_head request vars mergedHeaders :
  req_method request = js "GET" \/ req_method request = js "HEAD" ->
  selectBody request vars mergedHeaders = inr (mergedHeaders, None).
Proof.
  intros Hm. unfold selectBody.
  rewrite bool_decide_eq_true_2; [reflexivity|].
  destruct Hm as [-> | ->]; [left | right; left].
Qed.

(** C5. For a draft whose method is GET or HEAD, whatever its body type,
    body text and form fields: body selection returns no body and leaves
    the headers as they are, the payload prepared for the transport has
    no body, and [handleSend] behaves as with a transport that cannot
    see a body at all. *)
Theorem get_head_send_no_body URL_protocol request :
  req_method request = js "GET" \/ req_method request = js "HEAD" ->
  (forall vars mergedHeaders,
      selectBody request vars mergedHeaders = inr (mergedHeaders, None))
  /\ (forall vars resolvedUrl,
        preparePayload request vars resolvedUrl
        = (mergedHeaders ←
             buildHeaders (req_headers request) (req_auth request) vars;
           url ← apiKeyUrl (req_auth request) resolvedUrl;
           mret {| p_url := url; p_method := req_method request;
                   p_headers := mergedHeaders; p_body := None |}))
  /\ (forall request_fn uuid now vars resolvedUrl st,
        handleSend URL_protocol
          {| api_request := Some request_fn; randomUUID := uuid;
             dateNow := now |} request vars resolvedUrl st
        = handleSend URL_protocol
            {| api_request := Some (withoutBody request_fn);
               randomUUID := uuid; dateNow := now |}
            request vars resolvedUrl st).
Proof.
  intros Hm.
  assert (Hprep : forall vars resolvedUrl,
             preparePayload request vars resolvedUrl
             = (mergedHeaders ←
                  buildHeaders (req_headers request) (req_auth request) vars;
                url ← apiKeyUrl (req_auth request) resolvedUrl;
                mret {| p_url := url; p_method := req_method request;
                        p_headers := mergedHeaders; p_body := None |})).
  { intros vars resolvedUrl. unfold preparePayload.
    destruct (buildHeaders _ _ _) as [t|h]; [reflexivity|]. simpl.
    rewrite selectBody_get_head by exact Hm. reflexivity. }
  split; [intros; apply selectBody_get_head, Hm|].
  split; [exact Hprep|].
  intros request_fn uuid now vars resolvedUrl st.
  unfold handleSend. simpl.
  destruct (isValidHttpUrl URL_protocol resolvedUrl); [|reflexivity]. simpl.
  unfold trySend. rewrite Hprep.
  destruct (buildHeaders _ _ _) as [t|h]; [reflexivity|]. simpl.
  destruct (apiKeyUrl _ _) as [t|url]; reflexivity.
Qed.

(** A GET draft with a JSON body: the payload has no body. *)
Lemma get_head_send_no_body_witness :
  selectBody (Demo.draft "GET" "https://h/p" AuthNone) ∅ ∅ = inr (∅, None).
Proof.
  apply (get_head_send_no_body Demo.URL_protocol). left. reflexivity.
Defined.

(** ** The outcomes of [handleSend] *)

Section HandleSend.

Variable URL_protocol : list N -> option (list N).
Variables (w : World) (request : RequestDraft).
Variables (vars : gmap (list N) (list N)) (resolvedUrl : list N).
Variable st : AppState.

Lemma handleSend_unavailable :
  api_request w = None ->
  handleSend URL_protocol w request vars resolvedUrl st
  = setResponse
      (Some (localFailure (js "Error")
               (js "API not available. Restart the app."))) st.
Proof. intros H. unfold handleSend. rewrite H. reflexivity. Qed.

Lemma handleSend_invalid request_fn :
  api_request w = Some request_fn ->
  isValidHttpUrl URL_protocol resolvedUrl = false ->
  handleSend URL_protocol w request vars resolvedUrl st
  = setResponse
      (Some (localFailure (js "Invalid URL")
               (js "Enter a valid http or https URL."))) st.
Proof. intros H Hv. unfold handleSend. rewrite H, Hv. reflexivity. Qed.

Lemma handleSend_resolved request_fn payload resp :
  api_request w = Some request_fn ->
  isValidHttpUrl URL_protocol resolvedUrl = true ->
  preparePayload request vars resolvedUrl = inr payload ->
  request_fn payload = inr resp ->
  handleSend URL_protocol w request vars resolvedUrl st
  = {| response := Some resp;
       history :=
         nextHistory (historyItem w request resolvedUrl resp) (history st);
       sending := false |}.
Proof.
  intros H Hv Hp Hr. unfold handleSend, trySend.
  rewrite H, Hv, Hp. simpl. rewrite Hr. reflexivity.
Qed.

Lemma handleSend_thrown request_fn error :
  api_request w = Some request_fn ->
  isValidHttpUrl URL_protocol resolvedUrl = true ->
  preparePayload request vars resolvedUrl = inl error
  \/ (exists payload,
        preparePayload request vars resolvedUrl = inr payload
        /\ request_fn payload = inl error) ->
  handleSend URL_protocol w request vars resolvedUrl st
  = {| response :=
         Some (localFailure (js "Request failed")
                 (messageOr (js "Unknown error") error));
       history := history st;
       sending := false |}.
Proof.
  intros H Hv Hthrown. unfold handleSend, trySend. rewrite H, Hv.
  destruct Hthrown as [Hp | (payload & Hp & Hr)]; rewrite Hp; simpl;
    [|rewrite Hr]; reflexivity.
Qed.

(** A run leaves the history as it was or puts one entry in front of
    it and keeps the first 20. *)
Lemma handleSend_history :
  history (handleSend URL_protocol w request vars resolvedUrl st)
  = history st
  \/ exists entry,
      history (handleSend URL_protocol w request vars resolvedUrl st)
      = nextHistory entry (history st).
Proof.
  destruct (api_request w) as [request_fn|] eqn:H;
    [| left; rewrite handleSend_unavailable by exact H; reflexivity].
  destruct (isValidHttpUrl URL_protocol resolvedUrl) eqn:Hv;
    [| left; rewrite (handleSend_invalid _ H Hv); reflexivity].
  destruct (preparePayload request vars resolvedUrl) as [t|payload] eqn:Hp;
    [left; rewrite (handleSend_thrown request_fn t H Hv); auto|].
  destruct (request_fn payload) as [t|resp] eqn:Hr.
  - left. rewrite (handleSend_thrown request_fn t H Hv); eauto.
  - right. rewrite (handleSend_resolved _ _ _ H Hv Hp Hr). eauto.
Qed.

End HandleSend.

(** ** C6: the capacity of the history *)

Lemma nextHistory_length entry h : (length (nextHistory entry h) <= 20)%nat.
Proof. unfold nextHistory. rewrite length_take. lia. Qed.

Lemma runSends_snoc URL_protocol sends s st :
  runSends URL_protocol (sends ++ [s]) st
  = handleSend URL_protocol (s_world s) (s_request s) (s_vars s)
      (s_resolvedUrl s) (runSends URL_protocol sends st).
Proof. unfold runSends. rewrite fold_left_app. reflexivity. Qed.

Lemma runSends_length URL_protocol sends st :
  (length (history st) <= 20)%nat ->
  (length (history (runSends URL_protocol sends st)) <= 20)%nat.
Proof.
  intros Hst. induction sends as [|s sends IH] using rev_ind; [exact Hst|].
  rewrite runSends_snoc.
  destruct (handleSend_history URL_protocol (s_world s) (s_request s)
              (s_vars s) (s_resolvedUrl s) (runSends URL_protocol sends st))
    as [-> | [entry ->]]; [exact IH | apply nextHistory_length].
Qed.



(** ** C2: failures of the transport *)

(** C2 as stated asks for a non-empty body.  A transport whose promise
    is rejected with an [Error] that has no message is answered with the
    failure record whose body is the empty string; so is, in the main
    process, a [fetch] that fails with such an error. *)
Lemma failure_body_can_be_empty :
  response
    (handleSend Demo.URL_protocol (Demo.world Demo.rejecting)
       (Demo.draft "GET" "https://h/p" AuthNone) ∅ (js "https://h/p")
       (Demo.idle []))
  = Some {| resp_status := 0; resp_statusText := js "Request failed";
            resp_headers := ∅; resp_body := []; resp_duration := 0;
            resp_size := 0 |}
  /\ httpRequest Demo.URL_protocol Demo.toUpperCase Demo.offline
       (Some {| raw_url := VStr (js "https://h/p");
                raw_method := VStr (js "GET"); raw_headers := VObj ∅;
                raw_body := VOther |})
     = {| resp_status := 0; resp_statusText := js "Request failed";
          resp_headers := ∅; resp_body := []; resp_duration := 30;
          resp_size := 0 |}.
Proof. split; vm_compute; reflexivity. Qed.

Lemma messageOr_nonempty fallback error :
  fallback <> [] -> error <> ThrownError [] -> messageOr fallback error <> [].
Proof. intros Hf He. destruct error as [m|]; simpl; congruence. Qed.

(** The checked handler, once its checks have passed. *)
Lemma httpRequest_dispatch URL_protocol toUpperCase w p url method protocol :
  raw_url p = VStr url ->
  trim url <> [] ->
  URL_protocol (trim url) = Some protocol ->
  protocol ∈ ALLOWED_PROTOCOLS ->
  raw_method p = VStr method ->
  toUpperCase method ∈ ALLOWED_METHODS ->
  httpRequest URL_protocol toUpperCase w (Some p)
  = guardedExchange w url (toUpperCase method) p.
Proof.
  intros Hurl Hne Hproto Hallowed Hmethod Hm. unfold httpRequest.
  rewrite Hurl. destruct (trim url) as [|c t] eqn:Ht; [congruence|].
  rewrite Hproto, Hmethod.
  rewrite (bool_decide_eq_true_2 _ Hallowed), (bool_decide_eq_true_2 _ Hm).
  reflexivity.
Qed.

(** C2, amended. A failure of the transport never escapes: [handleSend]
    is a function to states and the checked handler a function to
    response records.  When the transport call of [handleSend] is
    rejected, the response shown has status 0, status text
    ["Request failed"], no headers, and as body the message of the
    thrown error, or ["Unknown error"] when the thrown value is not an
    error.  When [fetch] or [response.text()] fails in the checked
    handler, the record returned has the same shape, its body being the
    message of the error, or ["Request failed"].  Either body is
    non-empty unless the thrown value is an error without message. *)
Theorem transport_failure_is_a_response URL_protocol toUpperCase :
  (forall w request vars resolvedUrl st request_fn payload error,
      api_request w = Some request_fn ->
      isValidHttpUrl URL_protocol resolvedUrl = true ->
      preparePayload request vars resolvedUrl = inr payload ->
      request_fn payload = inl error ->
      response (handleSend URL_protocol w request vars resolvedUrl st)
      = Some {| resp_status := 0; resp_statusText := js "Request failed";
                resp_headers := ∅;
                resp_body := messageOr (js "Unknown error") error;
                resp_duration := 0; resp_size := 0 |}
      /\ (error <> ThrownError [] ->
          messageOr (js "Unknown error") error <> []))
  /\ (forall w p url method protocol error,
        raw_url p = VStr url ->
        trim url <> [] ->
        URL_protocol (trim url) = Some protocol ->
        protocol ∈ ALLOWED_PROTOCOLS ->
        raw_method p = VStr method ->
        toUpperCase method ∈ ALLOWED_METHODS ->
        exchange w (trim url) (toUpperCase method)
          match raw_headers p with VObj headers => headers | _ => ∅ end
          match raw_body p with VStr (c :: b) => Some (c :: b) | _ => None end
        = inl error ->
        httpRequest URL_protocol toUpperCase w (Some p)
        = {| resp_status := 0; resp_statusText := js "Request failed";
             resp_headers := ∅;
             resp_body := messageOr (js "Request failed") error;
             resp_duration := finishedAt w - startedAt w; resp_size := 0 |}
        /\ (error <> ThrownError [] ->
            messageOr (js "Request failed") error <> [])).
Proof.
  split.
  - intros w request vars resolvedUrl st request_fn payload error
      Hapi Hv Hp Hr.
    rewrite (handleSend_thrown URL_protocol w request vars resolvedUrl st
               request_fn error Hapi Hv) by eauto.
    split; [reflexivity|]. apply messageOr_nonempty. discriminate.
  - intros w p url method protocol error Hurl Hne Hproto Hallowed Hmethod
      Hm Hex.
    rewrite (httpRequest_dispatch _ _ w p url method protocol) by assumption.
    unfold guardedExchange. rewrite Hex. split; [reflexivity|].
    apply messageOr_nonempty. discriminate.
Qed.

(** A transport rejected with a [TypeError] that says ["fetch failed"]. *)
Lemma transport_failure_is_a_response_witness :
  response
    (handleSend Demo.URL_protocol
       (Demo.world (fun _ => inl (ThrownError (js "fetch failed"))))
       (Demo.draft "GET" "https://h/p" AuthNone) ∅ (js "https://h/p")
       (Demo.idle []))
  = Some {| resp_status := 0; resp_statusText := js "Request failed";
            resp_headers := ∅; resp_body := js "fetch failed";
            resp_duration := 0; resp_size := 0 |}.
Proof.
  refine (proj1 (proj1 (transport_failure_is_a_response
                          Demo.URL_protocol Demo.toUpperCase)
                   (Demo.world (fun _ => inl (ThrownError (js "fetch failed"))))
                   (Demo.draft "GET" "https://h/p" AuthNone) ∅
                   (js "https://h/p") (Demo.idle [])
                   (fun _ => inl (ThrownError (js "fetch failed")))
                   {| p_url := js "https://h/p"; p_method := js "GET";
                      p_headers := ∅; p_body := None |}
                   (ThrownError (js "fetch failed")) _ _ _ _));
    vm_compute; reflexivity.
Defined.

(** ** C7: when an execution is recorded *)

(** With the handler without checks a failure of [fetch] is a thrown
    value for whoever awaits the handler. *)
Lemma httpRequestUnchecked_fetch_fails w payload error :
  fetch w (p_url payload) (p_method payload) (p_headers payload)
    (nonEmptyBody (p_body payload)) = inl error ->
  httpRequestUnchecked w payload = inl error.
Proof.
  intros H. unfold httpRequestUnchecked, exchange. rewrite H. reflexivity.
Qed.

(** C7 as stated has an entry recorded after every execution, failures
    included.  Here the transport call is rejected: [handleSend] ends
    with the failure record as response and the history as it was. *)
Lemma failed_send_not_recorded :
  let st := handleSend Demo.URL_protocol
              (Demo.world Demo.rejecting)
              (Demo.draft "GET" "https://h/p" AuthNone) ∅
              (js "https://h/p") (Demo.idle []) in
  response st
  = Some {| resp_status := 0; resp_statusText := js "Request failed";
            resp_headers := ∅; resp_body := []; resp_duration := 0;
            resp_size := 0 |}
  /\ sending st = false
  /\ history st = [].
Proof. vm_compute. auto. Qed.

(** C7, amended. [handleSend] records an execution exactly when its
    transport call returns a response record, whatever the status of the
    record (so also for a failure the transport reports as a record with
    status 0): the entry is built from the name and the method of the
    draft, the resolved URL the closure holds, the status, duration and
    size of the record, a fresh identifier and the current time, and it
    is put in front of the history, of which the first 20 entries are
    kept.  A run that stops at one of the two checks before dispatch, or
    in which preparing the request or the transport call throws, leaves
    the history as it was. *)
Theorem execution_recorded URL_protocol w request vars resolvedUrl st :
  (forall request_fn payload resp,
      api_request w = Some request_fn ->
      isValidHttpUrl URL_protocol resolvedUrl = true ->
      preparePayload request vars resolvedUrl = inr payload ->
      request_fn payload = inr resp ->
      history (handleSend URL_protocol w request vars resolvedUrl st)
      = take 20
          ({| hist_id := randomUUID w; hist_name := req_name request;
              hist_method := req_method request; hist_url := resolvedUrl;
              hist_status := resp_status resp;
              hist_duration := resp_duration resp;
              hist_size := resp_size resp; hist_at := dateNow w |}
           :: history st))
  /\ (api_request w = None
      \/ isValidHttpUrl URL_protocol resolvedUrl = false
      \/ (exists error, preparePayload request vars resolvedUrl = inl error)
      \/ (exists request_fn payload error,
            api_request w = Some request_fn
            /\ preparePayload request vars resolvedUrl = inr payload
            /\ request_fn payload = inl error) ->
      history (handleSend URL_protocol w request vars resolvedUrl st)
      = history st).
Proof.
  split.
  - intros request_fn payload resp Hapi Hv Hp Hr.
    rewrite (handleSend_resolved _ _ _ _ _ _ _ _ _ Hapi Hv Hp Hr).
    reflexivity.
  - destruct (api_request w) as [request_fn|] eqn:Hapi;
      [| intros _; rewrite handleSend_unavailable by exact Hapi; reflexivity].
    destruct (isValidHttpUrl URL_protocol resolvedUrl) eqn:Hv;
      [| intros _; rewrite (handleSend_invalid _ _ _ _ _ _ _ Hapi Hv);
         reflexivity].
    intros [H | [H | [[error Hp] | (f & payload & error & Hf & Hp & Hr)]]];
      try discriminate.
    + rewrite (handleSend_thrown _ _ _ _ _ _ request_fn error Hapi Hv);
        auto.
    + injection Hf as <-.
      rewrite (handleSend_thrown _ _ _ _ _ _ request_fn error Hapi Hv);
        eauto.
Qed.

(** A failure that the transport reports as a record is recorded. *)
Lemma execution_recorded_witness :
  history
    (handleSend Demo.URL_protocol
       (Demo.world (invokeHttpRequest Demo.URL_protocol Demo.toUpperCase
                         Demo.offline))
       (Demo.draft "GET" "https://h/p" AuthNone) ∅ (js "https://h/p")
       (Demo.idle []))
  = [ {| hist_id := js "uuid-1"; hist_name := js "Untitled Request";
         hist_method := js "GET"; hist_url := js "https://h/p";
         hist_status := 0; hist_duration := 30; hist_size := 0;
         hist_at := 1700000000000 |} ].
Proof.
  refine (proj1 (execution_recorded Demo.URL_protocol
                   (Demo.world (invokeHttpRequest Demo.URL_protocol Demo.toUpperCase
                                     Demo.offline))
                   (Demo.draft "GET" "https://h/p" AuthNone) ∅
                   (js "https://h/p") (Demo.idle []))
            (invokeHttpRequest Demo.URL_protocol Demo.toUpperCase Demo.offline)
            {| p_url := js "https://h/p"; p_method := js "GET";
               p_headers := ∅; p_body := None |}
            {| resp_status := 0; resp_statusText := js "Request failed";
               resp_headers := ∅; resp_body := []; resp_duration := 30;
               resp_size := 0 |} _ _ _ _);
    vm_compute; reflexivity.
Defined.

(** ** C10: the query-placed API key *)

Lemma apiKeyUrl_query resolvedUrl key value k v :
  encodeURIComponent key = inr k ->
  encodeURIComponent value = inr v ->
  apiKeyUrl (AuthApiKey key value AddToQuery) resolvedUrl
  = inr (resolvedUrl
         ++ (if bool_decide (Char.question ∈ resolvedUrl) then [Char.amp]
             else [Char.question])
         ++ k ++ Char.equals :: v).
Proof.
  intros Hk Hv. unfold apiKeyUrl. rewrite Hk, Hv, includes_single.
  reflexivity.
Qed.

Lemma preparePayload_url request vars resolvedUrl payload :
  preparePayload request vars resolvedUrl = inr payload ->
  apiKeyUrl (req_auth request) resolvedUrl = inr (p_url payload).
Proof.
  unfold preparePayload.
  destruct (buildHeaders _ _ _) as [t|h]; [discriminate|]. simpl.
  destruct (selectBody _ _ _) as [t|hb]; [discriminate|]. simpl.
  destruct (apiKeyUrl _ _) as [t|url]; [discriminate|]. simpl.
  intros [= <-]. reflexivity.
Qed.

(** C10. With an API key placed in the query, the URL handed to the
    transport is the whole resolved URL, then ['&'] when the resolved
    URL contains a ['?'] anywhere and ['?'] otherwise, then the encoded
    key, ['='] and the encoded value; [apiKeyUrl] returns it whenever
    key and value can be encoded, and it is the URL of every payload
    prepared.  So the pair comes after a fragment and a ['?'] inside the
    fragment decides for ['&'], where [buildUrl] puts the same pair
    before the fragment. *)
Theorem apiKey_appended_to_whole_url :
  (forall resolvedUrl key value k v,
      encodeURIComponent key = inr k ->
      encodeURIComponent value = inr v ->
      apiKeyUrl (AuthApiKey key value AddToQuery) resolvedUrl
      = inr (resolvedUrl
             ++ (if bool_decide (Char.question ∈ resolvedUrl) then [Char.amp]
                 else [Char.question])
             ++ k ++ Char.equals :: v)
      /\ forall request vars payload,
          req_auth request = AuthApiKey key value AddToQuery ->
          preparePayload request vars resolvedUrl = inr payload ->
          p_url payload
          = resolvedUrl
            ++ (if bool_decide (Char.question ∈ resolvedUrl) then [Char.amp]
                else [Char.question])
            ++ k ++ Char.equals :: v)
  /\ apiKeyUrl (AuthApiKey (js "k") (js "v w") AddToQuery)
       (js "https://h/p#a?b")
     = inr (js "https://h/p#a?b&k=v%20w")
  /\ apiKeyUrl (AuthApiKey (js "k") (js "v w") AddToQuery)
       (js "https://h/p#frag")
     = inr (js "https://h/p#frag?k=v%20w")
  /\ buildUrl (js "https://h/p#a?b") [Demo.param "k" "v w"] ∅
     = inr (js "https://h/p?k=v%20w#a?b").
Proof.
  split; [| repeat split; vm_compute; reflexivity].
  intros resolvedUrl key value k v Hk Hv.
  split; [apply apiKeyUrl_query; assumption|].
  intros request vars payload Hauth Hp.
  apply preparePayload_url in Hp.
  rewrite Hauth, (apiKeyUrl_query _ _ _ k v Hk Hv) in Hp.
  injection Hp as <-. reflexivity.
Qed.

Lemma apiKey_appended_to_whole_url_witness :
  apiKeyUrl (AuthApiKey (js "api key") (js "s3cr&t") AddToQuery)
    (js "https://h/p?a=1#top")
  = inr (js "https://h/p?a=1#top&api%20key=s3cr%26t").
Proof.
  refine (proj1 (proj1 apiKey_appended_to_whole_url
                   (js "https://h/p?a=1#top") (js "api key") (js "s3cr&t")
                   (js "api%20key") (js "s3cr%26t") _ _));
    vm_compute; reflexivity.
Defined.

(** ** C8: the URL of the history entry *)

Lemma app_longer {A} (l extra : list A) : extra <> [] -> l <> l ++ extra.
Proof.
  intros Hne Heq. apply (f_equal length) in Heq.
  rewrite length_app in Heq. destruct extra; [congruence|]. simpl in Heq. lia.
Qed.

(** C8. For a draft with an API key placed in the query, sent from a
    render in which [buildUrl] returned [resolvedUrl]: when the transport
    call returns a response, the entry put at index 0 of the history has
    [resolvedUrl] as its URL, while the URL given to the transport is
    [resolvedUrl] followed by the separator and the encoded pair; the two
    differ, the history URL being the one without the pair. *)
Theorem history_url_without_apiKey URL_protocol w request variables st
    key value resolvedUrl request_fn payload resp :
  req_auth request = AuthApiKey key value AddToQuery ->
  buildUrl (req_url request) (req_params request) (variableMap variables)
  = inr resolvedUrl ->
  api_request w = Some request_fn ->
  isValidHttpUrl URL_protocol resolvedUrl = true ->
  preparePayload request (variableMap variables) resolvedUrl = inr payload ->
  request_fn payload = inr resp ->
  exists st' entry k v,
    clickSend URL_protocol w request variables st = inr st'
    /\ history st' !! 0%nat = Some entry
    /\ hist_url entry = resolvedUrl
    /\ encodeURIComponent key = inr k
    /\ encodeURIComponent value = inr v
    /\ p_url payload
       = resolvedUrl
         ++ (if bool_decide (Char.question ∈ resolvedUrl) then [Char.amp]
             else [Char.question])
         ++ k ++ Char.equals :: v
    /\ hist_url entry <> p_url payload.
Proof.
  intros Hauth Hurl Hapi Hvalid Hp Hr.
  pose proof (preparePayload_url _ _ _ _ Hp) as Hsent.
  rewrite Hauth in Hsent. unfold apiKeyUrl in Hsent.
  destruct (encodeURIComponent key) as [t|k] eqn:Hk; [discriminate|].
  destruct (encodeURIComponent value) as [t|v] eqn:Hv; [discriminate|].
  simpl in Hsent. rewrite includes_single in Hsent.
  injection Hsent as Hsent.
  exists {| response := Some resp;
            history := nextHistory (historyItem w request resolvedUrl resp)
                         (history st);
            sending := false |},
    (historyItem w request resolvedUrl resp), k, v.
  repeat split; auto.
  - unfold clickSend. rewrite Hurl. simpl.
    rewrite (handleSend_resolved _ _ _ _ _ _ _ _ _ Hapi Hvalid Hp Hr).
    reflexivity.
  - simpl. rewrite <- Hsent. apply app_longer.
    destruct (bool_decide _); discriminate.
Qed.

Lemma history_url_without_apiKey_witness :
  exists st' entry,
    clickSend Demo.URL_protocol (Demo.world Demo.answering)
      (Demo.draft "GET" "https://h/p"
         (AuthApiKey (js "key") (js "secret") AddToQuery))
      [] (Demo.idle [])
    = inr st'
    /\ history st' !! 0%nat = Some entry
    /\ hist_url entry = js "https://h/p".
Proof.
  destruct (history_url_without_apiKey Demo.URL_protocol
              (Demo.world Demo.answering)
              (Demo.draft "GET" "https://h/p"
                 (AuthApiKey (js "key") (js "secret") AddToQuery))
              [] (Demo.idle []) (js "key") (js "secret")
              (js "https://h/p") Demo.answering
              {| p_url := js "https://h/p?key=secret"; p_method := js "GET";
                 p_headers := ∅; p_body := None |}
              Demo.ok)
    as (st' & entry & k & v & Hsend & Hhead & Hurl & _);
    try (vm_compute; reflexivity).
  exists st', entry. auto.
Defined.

(** ** C9: the [sensitive] flag *)

Lemma variableMap_sensitive vs1 vs2 :
  sameUpToSensitive vs1 vs2 -> variableMap vs1 = variableMap vs2.
Proof.
  unfold variableMap. generalize (∅ : gmap (list N) (list N)).
  intros acc Hsame. revert acc.
  induction Hsame as [|a b vs1 vs2 (_ & Hkey & _ & Hcur) _ IH]; intros acc;
    [reflexivity|].
  simpl. rewrite Hkey.
  destruct (0 <? length (trim (env_key b)))%nat; simpl; [|apply IH].
  rewrite Hkey, Hcur. apply IH.
Qed.

(** C9. Two variable lists that differ at most in the [sensitive] flags
    of their entries give the same variable map, hence the same resolved
    URL, the same headers, the same payload for the transport and the
    same outcome of a click on Send. *)
Theorem sensitive_flag_ignored vs1 vs2 :
  sameUpToSensitive vs1 vs2 ->
  variableMap vs1 = variableMap vs2
  /\ (forall request,
        buildUrl (req_url request) (req_params request) (variableMap vs1)
        = buildUrl (req_url request) (req_params request) (variableMap vs2)
        /\ buildHeaders (req_headers request) (req_auth request)
             (variableMap vs1)
           = buildHeaders (req_headers request) (req_auth request)
               (variableMap vs2)
        /\ (forall mergedHeaders,
              selectBody request (variableMap vs1) mergedHeaders
              = selectBody request (variableMap vs2) mergedHeaders)
        /\ (forall resolvedUrl,
              preparePayload request (variableMap vs1) resolvedUrl
              = preparePayload request (variableMap vs2) resolvedUrl))
  /\ (forall URL_protocol w request st,
        clickSend URL_protocol w request vs1 st
        = clickSend URL_protocol w request vs2 st).
Proof.
  intros Hsame. pose proof (variableMap_sensitive _ _ Hsame) as Heq.
  split; [exact Heq|].
  split; [intros request; rewrite Heq; auto|].
  intros URL_protocol w request st. unfold clickSend. rewrite Heq.
  reflexivity.
Qed.

Lemma sensitive_flag_ignored_witness :
  variableMap
    [ {| env_id := js "1"; env_key := js " token "; env_initialValue := [];
         env_currentValue := js "s3cret"; env_sensitive := true |} ]
  = variableMap
      [ {| env_id := js "1"; env_key := js " token "; env_initialValue := [];
           env_currentValue := js "s3cret"; env_sensitive := false |} ].
Proof.
  apply sensitive_flag_ignored. repeat constructor.
Defined.

(** * Further properties of the code *)

(** ** Blank keys *)

Lemma trimStart_nil s :
  trimStart s = [] <-> Forall (fun c => Char.isWhiteSpace c = true) s.
Proof.
  induction s as [|c s IH]; simpl; [split; auto|].
  destruct (Char.isWhiteSpace c) eqn:Hc.
  - rewrite IH. split; [auto | intros H; apply Forall_cons in H as [_ H]; exact H].
  - split; [discriminate|]. intros H. apply Forall_cons in H as [H _].
    congruence.
Qed.

(** What [trimStart] returns is the end of its argument and does not
    start with white space. *)
Lemma trimStart_spec s :
  exists ws,
    s = ws ++ trimStart s
    /\ match trimStart s with
       | c :: _ => Char.isWhiteSpace c = false
       | [] => True
       end.
Proof.
  induction s as [|c s (ws & Hs & Hhead)]; simpl; [exists []; auto|].
  destruct (Char.isWhiteSpace c) eqn:Hc.
  - exists (c :: ws). simpl. rewrite <- Hs. auto.
  - exists []. auto.
Qed.

Lemma trimStart_fixed c s :
  Char.isWhiteSpace c = false -> trimStart (c :: s) = c :: s.
Proof. intros H. simpl. rewrite H. reflexivity. Qed.

Lemma trim_nil s :
  trim s = [] <-> Forall (fun c => Char.isWhiteSpace c = true) s.
Proof.
  unfold trim, trimEnd. split.
  - intros H. apply (f_equal (@rev N)) in H. rewrite rev_involutive in H.
    simpl in H. apply trimStart_nil in H. apply Forall_rev in H.
    rewrite rev_involutive in H.
    destruct (trimStart_spec s) as (ws & Hs & Hhead).
    destruct (trimStart s) as [|c t] eqn:Ht; [apply trimStart_nil, Ht|].
    apply Forall_cons in H as [H _]. congruence.
  - intros H. apply trimStart_nil in H. rewrite H. reflexivity.
Qed.

Lemma trim_idempotent s : trim (trim s) = trim s.
Proof.
  unfold trim, trimEnd.
  destruct (trimStart_spec s) as (ws & _ & Ha).
  set (a := trimStart s) in *.
  destruct (trimStart_spec (rev a)) as (x & Hx & Hb).
  set (b := trimStart (rev a)) in *.
  destruct b as [|d b'] eqn:Eb; [reflexivity|].
  assert (Hrev : a = rev (d :: b') ++ rev x).
  { rewrite <- rev_app_distr, <- Hx, rev_involutive. reflexivity. }
  assert (Hfirst : trimStart (rev (d :: b')) = rev (d :: b')).
  { destruct (rev (d :: b')) as [|h t] eqn:Hr.
    - reflexivity.
    - apply trimStart_fixed. rewrite Hrev in Ha. exact Ha. }
  rewrite Hfirst, rev_involutive, (trimStart_fixed d b' Hb). reflexivity.
Qed.

Lemma forallb_Forall_true {A} (p : A -> bool) l :
  forallb p l = true <-> Forall (fun x => p x = true) l.
Proof.
  induction l as [|x l IH]; simpl; [split; auto|].
  rewrite andb_true_iff, IH. split.
  - intros [Hx Hl]. constructor; assumption.
  - intros H. apply Forall_cons in H. exact H.
Qed.

(** A string is blank for the filters exactly when it is white space
    throughout. *)
Lemma isNonBlank_spec s :
  isNonBlank s = negb (forallb Char.isWhiteSpace s).
Proof.
  unfold isNonBlank. destruct (forallb Char.isWhiteSpace s) eqn:H.
  - apply forallb_Forall_true, trim_nil in H. rewrite H. reflexivity.
  - destruct (trim s) as [|c t] eqn:Ht; [|reflexivity].
    apply trim_nil, forallb_Forall_true in Ht. congruence.
Qed.

Lemma isSelected_spec item :
  isSelected item
  = kv_enabled item && negb (forallb Char.isWhiteSpace (kv_key item)).
Proof. unfold isSelected. f_equal. apply isNonBlank_spec. Qed.

(** ** Entries that are not selected *)

Lemma filter_without {A} (p : A -> bool) l1 x l2 :
  p x = false -> List.filter p (l1 ++ x :: l2) = List.filter p (l1 ++ l2).
Proof.
  intros H. rewrite !List.filter_app. simpl. rewrite H. reflexivity.
Qed.

(** X1. An entry that is disabled, or whose key is white space
    throughout, can be put anywhere into the parameters or the headers
    of a draft without any effect on the URL built or on the headers
    built, and anywhere among other form fields without any effect on
    the body selected.  As the only form field it has an effect: a draft
    with body type [form-data] and a method other than GET and HEAD
    then sends the form content type and the empty string as its body,
    where without the field it sends no body and no content type. *)
Theorem unselected_entry_has_no_effect item :
  kv_enabled item = false
  \/ Forall (fun c => Char.isWhiteSpace c = true) (kv_key item) ->
  (forall url vars before after,
      buildUrl url (before ++ item :: after) vars
      = buildUrl url (before ++ after) vars)
  /\ (forall auth vars before after,
        buildHeaders (before ++ item :: after) auth vars
        = buildHeaders (before ++ after) auth vars)
  /\ (forall request vars mergedHeaders before after,
        req_formDataFields request = Some (before ++ item :: after) ->
        before ++ after <> [] ->
        selectBody request vars mergedHeaders
        = selectBody
            {| req_id := req_id request; req_name := req_name request;
               req_method := req_method request; req_url := req_url request;
               req_params := req_params request;
               req_headers := req_headers request;
               req_bodyType := req_bodyType request;
               req_body := req_body request;
               req_formDataFields := Some (before ++ after);
               req_auth := req_auth request;
               req_documentation := req_documentation request |}
            vars mergedHeaders)
  /\ (forall request vars mergedHeaders,
        req_formDataFields request = Some [item] ->
        req_bodyType request = BodyFormData ->
        req_method request ∉ [js "GET"; js "HEAD"] ->
        selectBody request vars mergedHeaders
        = inr (<[js "Content-Type" := js "application/x-www-form-urlencoded"]>
                 mergedHeaders, Some [])
        /\ selectBody
             {| req_id := req_id request; req_name := req_name request;
                req_method := req_method request; req_url := req_url request;
                req_params := req_params request;
                req_headers := req_headers request;
                req_bodyType := req_bodyType request;
                req_body := req_body request;
                req_formDataFields := Some [];
                req_auth := req_auth request;
                req_documentation := req_documentation request |}
             vars mergedHeaders
           = inr (mergedHeaders, None)).
Proof.
  intros Hitem.
  assert (Hsel : isSelected item = false).
  { rewrite isSelected_spec. destruct Hitem as [-> | Hws]; [reflexivity|].
    apply forallb_Forall_true in Hws. rewrite Hws.
    apply andb_false_r. }
  split; [| split; [| split] ].
  - intros url vars before after. unfold buildUrl, resolvePairs.
    rewrite (filter_without isSelected before item after Hsel). reflexivity.
  - intros auth vars before after. unfold buildHeaders.
    rewrite (filter_without isSelected before item after Hsel). reflexivity.
  - intros request vars mergedHeaders before after Hfields Hne.
    unfold selectBody. simpl. rewrite Hfields. simpl.
    rewrite (filter_without isSelected before item after Hsel).
    destruct before as [|b before]; destruct after as [|a after];
      try reflexivity. exfalso. apply Hne. reflexivity.
  - intros request vars mergedHeaders Hfields Htype Hmethod.
    unfold selectBody. cbn [req_method req_bodyType req_formDataFields].
    rewrite (bool_decide_eq_false_2 _ Hmethod), Hfields, Htype.
    cbn [negb hasLength].
    change (default [] (Some [item])) with [item].
    cbn [List.filter]. rewrite Hsel. split; reflexivity.
Qed.

(** A blank-key parameter between two others, and a blank-key form field
    on its own. *)
Lemma unselected_entry_has_no_effect_witness :
  buildUrl (js "https://h/p")
    [ Demo.param "a" "1"; Demo.param "   " "ghost"; Demo.param "b" "2" ] ∅
  = buildUrl (js "https://h/p") [ Demo.param "a" "1"; Demo.param "b" "2" ] ∅
  /\ selectBody
       {| req_id := js "r1"; req_name := js "Untitled Request";
          req_method := js "POST"; req_url := js "https://h/p";
          req_params := []; req_headers := [];
          req_bodyType := BodyFormData; req_body := [];
          req_formDataFields := Some [Demo.param "   " "ghost"];
          req_auth := AuthNone; req_documentation := None |}
       ∅ ∅
     = inr ({[ js "Content-Type"
               := js "application/x-www-form-urlencoded" ]}, Some []).
Proof.
  destruct (unselected_entry_has_no_effect (Demo.param "   " "ghost"))
    as (Hurl & _ & _ & Hlone).
  - right. cbn. repeat constructor.
  - split.
    + apply (Hurl (js "https://h/p") ∅ [Demo.param "a" "1"]
               [Demo.param "b" "2"]).
    + apply (Hlone
               {| req_id := js "r1"; req_name := js "Untitled Request";
                  req_method := js "POST"; req_url := js "https://h/p";
                  req_params := []; req_headers := [];
                  req_bodyType := BodyFormData; req_body := [];
                  req_formDataFields := Some [Demo.param "   " "ghost"];
                  req_auth := AuthNone; req_documentation := None |}
               ∅ ∅); [reflexivity | reflexivity | by_evaluation].
Defined.

(** ** [buildUrl] without parameters and without fragment *)

(** X2. When no parameter is selected (none at all, or only disabled and
    blank-key ones) [buildUrl] returns the resolved base URL, and the URL
    itself when no placeholder occurs in it; it cannot throw. *)
Theorem buildUrl_nothing_selected url params vars :
  List.filter isSelected params = [] ->
  buildUrl url params vars = inr (applyVariables url vars)
  /\ (~ hasPlaceholder url -> buildUrl url params vars = inr url).
Proof.
  intros Hsel.
  assert (H : buildUrl url params vars = inr (applyVariables url vars)).
  { unfold buildUrl, resolvePairs. rewrite Hsel. reflexivity. }
  split; [exact H|]. intros Hplain.
  rewrite H, (applyVariables_plain vars url Hplain). reflexivity.
Qed.

Lemma buildUrl_nothing_selected_witness :
  buildUrl (js "https://{{host}}/p")
    [emptyKeyValue (js "k1")] {[ js "host" := js "h" ]}
  = inr (js "https://h/p").
Proof.
  rewrite (proj1 (buildUrl_nothing_selected (js "https://{{host}}/p")
                    [emptyKeyValue (js "k1")] {[ js "host" := js "h" ]}
                    eq_refl)).
  vm_compute. reflexivity.
Defined.

Lemma buildUrl_query_at_end_lemma url params vars :
  Char.hash ∉ applyVariables url vars ->
  List.filter isSelected params <> [] ->
  buildUrl url params vars
  = (query ← encodeQuery (resolvePairs params vars);
     mret (applyVariables url vars
           ++ (if bool_decide (Char.question ∈ applyVariables url vars)
               then [Char.amp] else [Char.question])
           ++ query)).
Proof.
  intros Hhash Hsel. unfold buildUrl.
  rewrite (resolvePairs_nonempty _ _ Hsel).
  unfold indexOf. rewrite (indexOfFrom_absent _ _ _ Hhash).
  replace (0 <=? -1)%Z with false by reflexivity.
  rewrite includes_single.
  destruct (encodeQuery _) as [t|q]; [reflexivity|]. simpl.
  rewrite app_nil_r. reflexivity.
Qed.

(** X3. When the resolved base URL has no fragment and at least one
    parameter is selected, [buildUrl] returns exactly when the query
    string can be assembled, and its result is the resolved base URL,
    then ['&'] when the base already contains a ['?'] and ['?']
    otherwise, then the query string. *)
Theorem buildUrl_query_at_end url params vars :
  Char.hash ∉ applyVariables url vars ->
  List.filter isSelected params <> [] ->
  buildUrl url params vars
  = (query ← encodeQuery (resolvePairs params vars);
     mret (applyVariables url vars
           ++ (if bool_decide (Char.question ∈ applyVariables url vars)
               then [Char.amp] else [Char.question])
           ++ query)).
Proof. exact (buildUrl_query_at_end_lemma url params vars). Qed.

Lemma buildUrl_query_at_end_witness :
  buildUrl (js "https://h/p?x=1") [Demo.param "q" "a b"] ∅
  = inr (js "https://h/p?x=1&q=a%20b").
Proof.
  rewrite (buildUrl_query_at_end (js "https://h/p?x=1")
             [Demo.param "q" "a b"] ∅); by_evaluation.
Defined.

(** ** The delimiters of a query string *)

(** The characters that structure a URL after its path. *)
Lemma hexDigit_not_delimiter d : isQueryDelimiter (hexDigit d) = false.
Proof.
  unfold isQueryDelimiter, hexDigit, Char.amp, Char.equals, Char.hash,
    Char.question.
  destruct (N.ltb_spec d 10);
    repeat (apply orb_false_iff; split); apply N.eqb_neq; lia.
Qed.

Lemma unescaped_not_delimiter c :
  isUnescaped c = true -> isQueryDelimiter c = false.
Proof.
  unfold isUnescaped, isQueryDelimiter, Char.isAlnum, Char.isDigit,
    Char.isUpper, Char.isLower, Char.between, Char.amp, Char.equals,
    Char.hash, Char.question.
  simpl existsb. intros H.
  repeat match goal with
         | H : _ || _ = true |- _ => apply orb_true_iff in H; destruct H
         | H : _ && _ = true |- _ => apply andb_true_iff in H; destruct H
         | H : (_ =? _) = true |- _ => apply N.eqb_eq in H
         | H : (_ <=? _) = true |- _ => apply N.leb_le in H
         | H : false = true |- _ => discriminate H
         end;
    repeat (apply orb_false_iff; split); apply N.eqb_neq; lia.
Qed.

Lemma percentEncoded_no_delimiter octets :
  Forall (fun c => isQueryDelimiter c = false)
    (concat (map percentEncode octets)).
Proof.
  induction octets as [|o octets IH]; simpl; [constructor|].
  repeat constructor; auto using hexDigit_not_delimiter.
Qed.

Lemma encodeURIComponent_no_delimiter s r :
  encodeURIComponent s = inr r ->
  Forall (fun c => isQueryDelimiter c = false) r.
Proof.
  remember (length s) as n eqn:Hn. revert s r Hn.
  induction n as [n IH] using lt_wf_ind. intros s r Hn.
  destruct s as [|c s]; [intros [= <-]; constructor|].
  cbn [encodeURIComponent].
  destruct (isUnescaped c) eqn:Hu.
  - destruct (encodeURIComponent s) as [t|r'] eqn:Hs; [discriminate|].
    intros [= <-]. constructor; [apply unescaped_not_delimiter, Hu|].
    apply (IH (length s)) with (s := s); [simpl in Hn; lia | reflexivity | exact Hs].
  - destruct (Char.isLowSurrogate c); [discriminate|].
    destruct (Char.isHighSurrogate c).
    + destruct s as [|d s]; [discriminate|].
      destruct (Char.isLowSurrogate d); [|discriminate].
      destruct (encodeURIComponent s) as [t|r'] eqn:Hs; [discriminate|].
      intros [= <-]. apply Forall_app. split;
        [apply percentEncoded_no_delimiter|].
      apply (IH (length s)) with (s := s);
        [simpl in Hn; lia | reflexivity | exact Hs].
    + destruct (encodeURIComponent s) as [t|r'] eqn:Hs; [discriminate|].
      intros [= <-]. apply Forall_app. split;
        [apply percentEncoded_no_delimiter|].
      apply (IH (length s)) with (s := s);
        [simpl in Hn; lia | reflexivity | exact Hs].
Qed.

Lemma count_none (c : N) l :
  Forall (fun x => isQueryDelimiter x = false) l ->
  isQueryDelimiter c = true ->
  length (List.filter (N.eqb c) l) = 0%nat.
Proof.
  intros Hl Hc. induction Hl as [|x l Hx _ IH]; [reflexivity|].
  simpl. destruct (N.eqb_spec c x) as [<-|]; [congruence | exact IH].
Qed.

Lemma encodePair_delimiters kv part :
  encodePair kv = inr part ->
  length (List.filter (N.eqb Char.amp) part) = 0%nat
  /\ length (List.filter (N.eqb Char.equals) part) = 1%nat
  /\ (Char.hash ∉ part) /\ (Char.question ∉ part).
Proof.
  unfold encodePair.
  destruct (encodeURIComponent kv.1) as [t|k] eqn:Hk; [discriminate|].
  destruct (encodeURIComponent kv.2) as [t|v] eqn:Hv; [discriminate|].
  intros [= <-].
  apply encodeURIComponent_no_delimiter in Hk.
  apply encodeURIComponent_no_delimiter in Hv.
  rewrite !List.filter_app, !length_app. cbn [List.filter].
  rewrite N.eqb_refl.
  replace (Char.amp =? Char.equals) with false by reflexivity.
  cbn [length].
  rewrite !(count_none _ _ Hk), !(count_none _ _ Hv) by reflexivity.
  repeat split; try reflexivity.
  - rewrite elem_of_app, elem_of_cons. intros [H | [H | H]];
      [| discriminate H |].
    + apply (proj1 (Forall_forall _ _) Hk) in H. discriminate H.
    + apply (proj1 (Forall_forall _ _) Hv) in H. discriminate H.
  - rewrite elem_of_app, elem_of_cons. intros [H | [H | H]];
      [| discriminate H |].
    + apply (proj1 (Forall_forall _ _) Hk) in H. discriminate H.
    + apply (proj1 (Forall_forall _ _) Hv) in H. discriminate H.
Qed.

Lemma mapM_Forall2 {A B} (f : A -> result B) l parts :
  mapM f l = inr parts -> Forall2 (fun x p => f x = inr p) l parts.
Proof.
  revert parts. induction l as [|x l IH]; intros parts; cbn [mapM].
  - intros [= <-]. constructor.
  - destruct (f x) as [t|p] eqn:Hx; [discriminate|]. cbn [mbind result_bind].
    destruct (mapM f l) as [t|ps] eqn:Hl; [discriminate|].
    intros [= <-]. constructor; auto.
Qed.

Lemma join_delimiters parts :
  Forall (fun part =>
            length (List.filter (N.eqb Char.amp) part) = 0%nat
            /\ length (List.filter (N.eqb Char.equals) part) = 1%nat
            /\ (Char.hash ∉ part) /\ (Char.question ∉ part)) parts ->
  length (List.filter (N.eqb Char.amp) (join [Char.amp] parts))
  = (length parts - 1)%nat
  /\ length (List.filter (N.eqb Char.equals) (join [Char.amp] parts))
     = length parts
  /\ (Char.hash ∉ join [Char.amp] parts)
  /\ (Char.question ∉ join [Char.amp] parts).
Proof.
  induction 1 as [|p parts (Ha & He & Hh & Hq) Hparts (IHa & IHe & IHh & IHq)].
  - simpl. repeat split; try reflexivity; apply not_elem_of_nil.
  - destruct parts as [|q parts]; [simpl; auto|].
    change (join [Char.amp] (p :: q :: parts))
      with (p ++ [Char.amp] ++ join [Char.amp] (q :: parts)).
    rewrite !List.filter_app, !length_app, Ha, He, IHa, IHe.
    repeat split.
    + simpl. lia.
    + rewrite !elem_of_app, list_elem_of_singleton.
      intros [H | [H | H]]; [auto | discriminate H | auto].
    + rewrite !elem_of_app, list_elem_of_singleton.
      intros [H | [H | H]]; [auto | discriminate H | auto].
Qed.

Lemma parts_delimiters {A} (f : A -> result (list N)) l parts :
  (forall x p, f x = inr p ->
       length (List.filter (N.eqb Char.amp) p) = 0%nat
       /\ length (List.filter (N.eqb Char.equals) p) = 1%nat
       /\ (Char.hash ∉ p) /\ (Char.question ∉ p)) ->
  mapM f l = inr parts ->
  length parts = length l
  /\ length (List.filter (N.eqb Char.amp) (join [Char.amp] parts))
     = (length parts - 1)%nat
  /\ length (List.filter (N.eqb Char.equals) (join [Char.amp] parts))
     = length parts
  /\ (Char.hash ∉ join [Char.amp] parts)
  /\ (Char.question ∉ join [Char.amp] parts).
Proof.
  intros Hf Hparts. apply mapM_Forall2 in Hparts.
  split; [symmetry; eapply Forall2_length, Hparts|].
  apply join_delimiters.
  induction Hparts as [|x p l' parts' Hx _ IH]; constructor; eauto.
Qed.

Lemma query_delimiters pairs query :
  encodeQuery pairs = inr query ->
  length (List.filter (N.eqb Char.equals) query) = length pairs
  /\ length (List.filter (N.eqb Char.amp) query) = (length pairs - 1)%nat
  /\ (Char.hash ∉ query) /\ (Char.question ∉ query).
Proof.
  unfold encodeQuery.
  destruct (mapM encodePair pairs) as [t|parts] eqn:Hparts; [discriminate|].
  intros [= <-].
  destruct (parts_delimiters encodePair pairs parts encodePair_delimiters
              Hparts) as (Hlen & Ha & He & Hh & Hq).
  rewrite <- Hlen. auto.
Qed.



(** ** Variables that no placeholder can name *)

Lemma applyVariables_agree vars1 vars2 s :
  (forall name : list N,
      name <> [] -> Forall (fun c => Char.isNameChar c = true) name ->
      vars1 !! name = vars2 !! name) ->
  applyVariables s vars1 = applyVariables s vars2.
Proof.
  intros Hagree. remember (length s) as n eqn:Hn. revert s Hn.
  induction n as [n IH] using lt_wf_ind. intros s ->.
  destruct (first_placeholder s)
    as [Hno | (t & name & m & rest & -> & Ht & Hm)].
  - rewrite !applyVariables_plain by exact Hno. reflexivity.
  - rewrite !(applyVariables_occurrence _ t name m rest Ht Hm).
    destruct Hm as (ws1 & ws2 & -> & _ & _ & Hne & Hname).
    rewrite (valueOrEmpty_agree vars1 vars2 name (Hagree name Hne Hname)).
    rewrite (IH (length rest)); [reflexivity | | reflexivity].
    rewrite !length_app. simpl. lia.
Qed.

Lemma variableMap_fold variables :
  variableMap variables
  = fold_left variableStep
      (List.filter (fun item => isNonBlank (env_key item)) variables) ∅.
Proof. reflexivity. Qed.

Lemma fold_variableStep_agree (l : list EnvVariable)
    (acc1 acc2 : gmap (list N) (list N)) (name : list N) :
  acc1 !! name = acc2 !! name ->
  fold_left variableStep l acc1 !! name
  = fold_left variableStep l acc2 !! name.
Proof.
  revert acc1 acc2. induction l as [|v l IH]; intros acc1 acc2 H; [exact H|].
  simpl. apply IH. unfold variableStep, setProperty.
  destruct (decide (trim (env_key v) = name)) as [->|Hne].
  - case_bool_decide; [|rewrite !lookup_insert_eq; reflexivity].
    destruct (acc1 !! name) eqn:H1, (acc2 !! name) eqn:H2;
      try discriminate H; rewrite ?lookup_insert_eq; congruence.
  - case_bool_decide;
      [destruct (acc1 !! trim (env_key v)), (acc2 !! trim (env_key v))|];
      rewrite ?lookup_insert_ne by exact Hne; exact H.
Qed.

(** X5. A variable whose key, once trimmed, holds a character that is
    neither a word character nor a dot nor a hyphen (a space inside the
    key, say) is never substituted: with or without it in the list,
    every text resolves to the same result. *)
Theorem unnameable_variable_is_dead variable :
  Exists (fun c => Char.isNameChar c = false) (trim (env_key variable)) ->
  forall before after text,
    applyVariables text (variableMap (before ++ variable :: after))
    = applyVariables text (variableMap (before ++ after)).
Proof.
  intros Hbad before after text. apply applyVariables_agree.
  intros name Hne Hname.
  assert (Hdiff : trim (env_key variable) <> name).
  { intros <-. apply Exists_exists in Hbad as (c & Hin & Hc).
    apply (proj1 (Forall_forall _ _) Hname) in Hin. congruence. }
  rewrite !variableMap_fold, !List.filter_app, !fold_left_app.
  cbn [List.filter]. destruct (isNonBlank (env_key variable)); [|reflexivity].
  cbn [fold_left]. apply fold_variableStep_agree.
  unfold variableStep at 1.
  rewrite setProperty_lookup_ne by exact Hdiff. reflexivity.
Qed.

Lemma unnameable_variable_is_dead_witness :
  applyVariables (js "{{base url}}/{{base}}")
    (variableMap
       [ {| env_id := js "1"; env_key := js "base";
            env_initialValue := []; env_currentValue := js "b";
            env_sensitive := false |};
         {| env_id := js "2"; env_key := js "base url";
            env_initialValue := []; env_currentValue := js "https://h";
            env_sensitive := false |} ])
  = js "{{base url}}/b".
Proof.
  refine (eq_trans
            (unnameable_variable_is_dead
               {| env_id := js "2"; env_key := js "base url";
                  env_initialValue := []; env_currentValue := js "https://h";
                  env_sensitive := false |} _
               [ {| env_id := js "1"; env_key := js "base";
                    env_initialValue := []; env_currentValue := js "b";
                    env_sensitive := false |} ] []
               (js "{{base url}}/{{base}}")) _).
  - vm_compute.
    apply Exists_cons_tl, Exists_cons_tl, Exists_cons_tl, Exists_cons_tl,
      Exists_cons_hd.
    reflexivity.
  - vm_compute. reflexivity.
Defined.

(** ** The variable map, name by name *)

Lemma fold_variableStep_proto (l : list EnvVariable)
    (acc : gmap (list N) (list N)) :
  acc !! js "__proto__" = None ->
  fold_left variableStep l acc !! js "__proto__" = None.
Proof.
  revert acc. induction l as [|v l IH]; intros acc Hacc; [exact Hacc|].
  cbn [fold_left]. apply IH, setProperty_keeps_proto, Hacc.
Qed.

(** X6. The variable map holds, under a name other than [__proto__], the
    current value of the last variable of the list whose trimmed key is
    that name, and nothing under a name that is the trimmed key of no
    variable; no variable is found under the empty name.  A variable
    named [__proto__] is not stored: whatever the variables are, the map
    has no such name of its own, and the placeholder [{{__proto__}}]
    resolves to the text of the prototype. *)
Theorem variableMap_lookup variables :
  (forall name,
      variableMap variables !! name
      = match name with
        | [] => None
        | _ =>
            if bool_decide (name = js "__proto__") then None
            else
              env_currentValue
                <$> last (List.filter
                            (fun item =>
                               bool_decide (trim (env_key item) = name))
                            variables)
        end)
  /\ applyVariables (js "{{__proto__}}") (variableMap variables)
     = js "[object Object]".
Proof.
  assert (Hproto : variableMap variables !! js "__proto__" = None).
  { rewrite variableMap_fold. apply fold_variableStep_proto, lookup_empty. }
  split.
  - intros name. destruct (decide (name = js "__proto__")) as [->|Hname];
      [exact Hproto|].
    rewrite (bool_decide_eq_false_2 _ Hname). rewrite variableMap_fold.
    assert (Hgen : forall (l : list EnvVariable)
                     (acc : gmap (list N) (list N)),
               fold_left variableStep
                 (List.filter (fun item => isNonBlank (env_key item)) l) acc
               !! name
               = match name with
                 | [] => acc !! name
                 | _ =>
                     match last (List.filter
                                   (fun item =>
                                      bool_decide
                                        (trim (env_key item) = name))
                                   l) with
                     | Some item => Some (env_currentValue item)
                     | None => acc !! name
                     end
                 end).
    { induction l as [|v l IH] using rev_ind; intros acc.
      - destruct name; reflexivity.
      - rewrite !List.filter_app, fold_left_app. cbn [List.filter].
        destruct (trim (env_key v)) as [|c k] eqn:Hk.
        + replace (isNonBlank (env_key v)) with false
            by (unfold isNonBlank; rewrite Hk; reflexivity).
          cbn [fold_left]. rewrite IH.
          destruct name as [|n name]; [reflexivity|].
          rewrite bool_decide_eq_false_2 by discriminate.
          rewrite app_nil_r. reflexivity.
        + replace (isNonBlank (env_key v)) with true
            by (unfold isNonBlank; rewrite Hk; reflexivity).
          cbn [fold_left]. unfold variableStep at 1. rewrite Hk.
          destruct (decide (c :: k = name)) as [<-|Hne].
          * rewrite setProperty_lookup_eq by exact Hname.
            rewrite bool_decide_eq_true_2 by reflexivity.
            rewrite last_snoc. reflexivity.
          * rewrite setProperty_lookup_ne by exact Hne. rewrite IH.
            rewrite bool_decide_eq_false_2 by exact Hne.
            rewrite app_nil_r. reflexivity. }
    rewrite Hgen. destruct name as [|n name]; [apply lookup_empty|].
    destruct (last _); [reflexivity | apply lookup_empty].
  - change (js "{{__proto__}}")
      with (([Char.lbrace; Char.lbrace] ++ js "" ++ js "__proto__" ++ js ""
             ++ [Char.rbrace; Char.rbrace]) ++ []).
    rewrite (applyVariables_placeholder _ (js "__proto__"))
      by (apply a_placeholder; by_evaluation).
    unfold valueOrEmpty. rewrite Hproto. reflexivity.
Qed.

(** ** The explicit headers, name by name *)

Lemma fold_headerStep_proto (vars : gmap (list N) (list N))
    (l : list KeyValue)
    (acc : gmap (list N) (list N)) :
  acc !! js "__proto__" = None ->
  fold_left (headerStep vars) l acc !! js "__proto__" = None.
Proof.
  revert acc. induction l as [|h l IH]; intros acc Hacc; [exact Hacc|].
  cbn [fold_left]. apply IH, setProperty_keeps_proto, Hacc.
Qed.

(** X7. Without authentication, [buildHeaders] returns a map that holds,
    under a name other than [__proto__], the resolved value of the last
    selected header of the list whose resolved key is that name (a later
    header overwrites an earlier one of the same name), and nothing
    under any other name.  A header whose resolved key is [__proto__] is
    dropped: the map never has that name. *)
Theorem buildHeaders_last_header_wins headers vars :
  exists resolved,
    buildHeaders headers AuthNone vars = inr resolved
    /\ forall name,
        resolved !! name
        = if bool_decide (name = js "__proto__") then None
          else
            (fun item => applyVariables (kv_value item) vars)
              <$> last (List.filter
                          (fun item =>
                             isSelected item
                             && bool_decide
                                  (applyVariables (trim (kv_key item)) vars
                                   = name))
                          headers).
Proof.
  eexists. split; [reflexivity|]. intros name.
  change (fold_left (headerStep vars) (List.filter isSelected headers) ∅
          !! name
          = if bool_decide (name = js "__proto__") then None
            else
              (fun item => applyVariables (kv_value item) vars)
                <$> last (List.filter
                            (fun item =>
                               isSelected item
                               && bool_decide
                                    (applyVariables (trim (kv_key item))
                                       vars
                                     = name))
                            headers)).
  destruct (decide (name = js "__proto__")) as [->|Hname].
  { rewrite bool_decide_eq_true_2 by reflexivity.
    apply fold_headerStep_proto, lookup_empty. }
  rewrite (bool_decide_eq_false_2 _ Hname).
  assert (Hgen : forall (l : list KeyValue) (acc : gmap (list N) (list N)),
             fold_left (headerStep vars) (List.filter isSelected l) acc
             !! name
             = match last (List.filter
                             (fun item =>
                                isSelected item
                                && bool_decide
                                     (applyVariables (trim (kv_key item)) vars
                                      = name))
                             l) with
               | Some item => Some (applyVariables (kv_value item) vars)
               | None => acc !! name
               end).
  { induction l as [|h l IH] using rev_ind; intros acc; [reflexivity|].
    rewrite !List.filter_app, fold_left_app. cbn [List.filter].
    destruct (isSelected h); cbn [andb fold_left].
    - unfold headerStep at 1.
      destruct (decide (applyVariables (trim (kv_key h)) vars = name))
        as [<-|Hne].
      + rewrite setProperty_lookup_eq by exact Hname.
        rewrite bool_decide_eq_true_2 by reflexivity.
        rewrite last_snoc. reflexivity.
      + rewrite setProperty_lookup_ne by exact Hne.
        rewrite bool_decide_eq_false_2 by exact Hne.
        rewrite app_nil_r. apply IH.
    - rewrite app_nil_r. apply IH. }
  rewrite Hgen. destruct (last _); [reflexivity | apply lookup_empty].
Qed.

(** ** Basic authentication *)

Lemma handleSend_not_prepared URL_protocol w request vars resolvedUrl st
    request_fn error :
  api_request w = Some request_fn ->
  isValidHttpUrl URL_protocol resolvedUrl = true ->
  preparePayload request vars resolvedUrl = inl error ->
  handleSend URL_protocol w request vars resolvedUrl st
  = {| response :=
         Some (localFailure (js "Request failed")
                 (messageOr (js "Unknown error") error));
       history := history st;
       sending := false |}.
Proof.
  intros Hapi Hv Hp.
  apply (handleSend_thrown URL_protocol w request vars resolvedUrl st
           request_fn error Hapi Hv).
  left. exact Hp.
Qed.

(** X8. With basic authentication the user name and the password are
    taken as they are, joined by a colon.  When every character of both
    is at most U+00FF, [buildHeaders] returns and ["Authorization"] is
    ["Basic "] followed by the base64 text of the credentials.  When one
    character is beyond U+00FF, [buildHeaders] throws, and [handleSend]
    ends with the response ["Request failed"] that carries the message
    of [btoa], the history as it was, and the same state whatever the
    transport is: nothing is sent. *)
Theorem basic_auth_needs_latin1 headers vars username password :
  (forallb (fun c => c <=? 0xFF) (username ++ Char.colon :: password) = true ->
   exists resolved,
     buildHeaders headers (AuthBasic username password) vars = inr resolved
     /\ resolved !! js "Authorization"
        = Some (js "Basic " ++ base64 (username ++ Char.colon :: password)))
  /\ (forallb (fun c => c <=? 0xFF) (username ++ Char.colon :: password)
      = false ->
      buildHeaders headers (AuthBasic username password) vars
      = inl invalidCharacter
      /\ forall URL_protocol request resolvedUrl st uuid now request_fn,
          req_headers request = headers ->
          req_auth request = AuthBasic username password ->
          isValidHttpUrl URL_protocol resolvedUrl = true ->
          handleSend URL_protocol
            {| api_request := Some request_fn; randomUUID := uuid;
               dateNow := now |} request vars resolvedUrl st
          = {| response :=
                 Some (localFailure (js "Request failed")
                         (messageOr (js "Unknown error") invalidCharacter));
               history := history st;
               sending := false |}).
Proof.
  split.
  - intros Hlatin. unfold buildHeaders, btoa. rewrite Hlatin.
    eexists. split; [reflexivity|]. apply lookup_insert_eq.
  - intros Hwide.
    assert (Hthrow : buildHeaders headers (AuthBasic username password) vars
                     = inl invalidCharacter).
    { unfold buildHeaders, btoa. rewrite Hwide. reflexivity. }
    split; [exact Hthrow|].
    intros URL_protocol request resolvedUrl st uuid now request_fn
      Hheaders Hauth Hvalid.
    apply (handleSend_not_prepared URL_protocol
             {| api_request := Some request_fn; randomUUID := uuid;
                dateNow := now |}
             request vars resolvedUrl st request_fn invalidCharacter
             eq_refl Hvalid).
    unfold preparePayload. rewrite Hheaders, Hauth, Hthrow. reflexivity.
Qed.

Lemma basic_auth_needs_latin1_witness :
  exists resolved,
    buildHeaders [] (AuthBasic (js "user") (js "pass")) ∅ = inr resolved
    /\ resolved !! js "Authorization" = Some (js "Basic dXNlcjpwYXNz").
Proof.
  apply (proj1 (basic_auth_needs_latin1 [] ∅ (js "user") (js "pass"))).
  vm_compute. reflexivity.
Defined.

(** ** The body of a request *)

(** X9. For a draft whose method is neither GET nor HEAD and whose body
    text is not blank: with body type [json] the payload carries the
    body text as it is and ["Content-Type"] is ["application/json"],
    whatever the explicit headers say; with body type [text] the payload
    carries the body text as it is and the headers are those of
    [buildHeaders].  The variable map has no part in the body:
    placeholders in it are sent as written. *)
Theorem body_text_sent_as_written request vars resolvedUrl :
  req_method request ∉ [js "GET"; js "HEAD"] ->
  isNonBlank (req_body request) = true ->
  (req_bodyType request = BodyJson ->
   preparePayload request vars resolvedUrl
   = (mergedHeaders ←
        buildHeaders (req_headers request) (req_auth request) vars;
      url ← apiKeyUrl (req_auth request) resolvedUrl;
      mret {| p_url := url; p_method := req_method request;
              p_headers :=
                <[js "Content-Type" := js "application/json"]> mergedHeaders;
              p_body := Some (req_body request) |}))
  /\ (req_bodyType request = BodyText ->
      preparePayload request vars resolvedUrl
      = (mergedHeaders ←
           buildHeaders (req_headers request) (req_auth request) vars;
         url ← apiKeyUrl (req_auth request) resolvedUrl;
         mret {| p_url := url; p_method := req_method request;
                 p_headers := mergedHeaders;
                 p_body := Some (req_body request) |})).
Proof.
  intros Hmethod Hbody. split; intros Htype; unfold preparePayload;
    (destruct (buildHeaders _ _ _) as [t|h]; [reflexivity|]);
    cbn [mbind result_bind]; unfold selectBody;
    rewrite (bool_decide_eq_false_2 _ Hmethod), Htype, Hbody; reflexivity.
Qed.

Lemma body_text_sent_as_written_witness :
  p_body <$> (match preparePayload
                      {| req_id := js "r"; req_name := js "n";
                         req_method := js "POST"; req_url := js "https://h/p";
                         req_params := []; req_headers := [];
                         req_bodyType := BodyJson;
                         req_body := js "{{token}}";
                         req_formDataFields := None; req_auth := AuthNone;
                         req_documentation := None |}
                      {[ js "token" := js "secret" ]} (js "https://h/p") with
              | inr p => Some p
              | inl _ => None
              end)
  = Some (Some (js "{{token}}")).
Proof.
  rewrite (proj1 (body_text_sent_as_written
                    {| req_id := js "r"; req_name := js "n";
                       req_method := js "POST"; req_url := js "https://h/p";
                       req_params := []; req_headers := [];
                       req_bodyType := BodyJson;
                       req_body := js "{{token}}";
                       req_formDataFields := None; req_auth := AuthNone;
                       req_documentation := None |}
                    {[ js "token" := js "secret" ]} (js "https://h/p")
                    ltac:(by_evaluation) eq_refl) eq_refl).
  reflexivity.
Defined.

(** X10. For a draft with body type [form-data], a method that is neither
    GET nor HEAD and a list of form fields that is not empty, the content
    type is set to ["application/x-www-form-urlencoded"] and a body is
    sent even when none of the fields is selected: the body is then the
    empty string. *)
Theorem form_without_selected_field request vars mergedHeaders fields :
  req_method request ∉ [js "GET"; js "HEAD"] ->
  req_bodyType request = BodyFormData ->
  req_formDataFields request = Some fields ->
  fields <> [] ->
  List.filter isSelected fields = [] ->
  selectBody request vars mergedHeaders
  = inr (<[js "Content-Type" := js "application/x-www-form-urlencoded"]>
           mergedHeaders,
         Some []).
Proof.
  intros Hmethod Htype Hfields Hne Hsel. unfold selectBody.
  rewrite (bool_decide_eq_false_2 _ Hmethod), Htype, Hfields.
  destruct fields as [|f fields]; [congruence|].
  cbn [hasLength].
  change (default [] (Some (f :: fields))) with (f :: fields).
  rewrite Hsel. reflexivity.
Qed.

Lemma form_without_selected_field_witness :
  selectBody
    {| req_id := js "r"; req_name := js "n"; req_method := js "POST";
       req_url := js "https://h/p"; req_params := []; req_headers := [];
       req_bodyType := BodyFormData; req_body := [];
       req_formDataFields := Some [emptyKeyValue (js "f1")];
       req_auth := AuthNone; req_documentation := None |} ∅ ∅
  = inr ({[ js "Content-Type" := js "application/x-www-form-urlencoded" ]},
         Some []).
Proof.
  apply (form_without_selected_field _ ∅ ∅ [emptyKeyValue (js "f1")]);
    try reflexivity; by_evaluation.
Defined.

(** ** What [handleSend] always does *)

Lemma handleSend_response URL_protocol w request vars resolvedUrl st :
  exists r,
    response (handleSend URL_protocol w request vars resolvedUrl st) = Some r
    /\ ((exists request_fn payload,
            api_request w = Some request_fn
            /\ preparePayload request vars resolvedUrl = inr payload
            /\ request_fn payload = inr r)
        \/ (resp_status r = 0%Z /\ resp_duration r = 0%Z
            /\ resp_size r = 0%Z /\ resp_headers r = ∅)).
Proof.
  destruct (api_request w) as [request_fn|] eqn:Hapi.
  2:{ rewrite handleSend_unavailable by exact Hapi. simpl.
      eexists; split; [reflexivity | right; auto]. }
  destruct (isValidHttpUrl URL_protocol resolvedUrl) eqn:Hv.
  2:{ rewrite (handleSend_invalid _ _ _ _ _ _ _ Hapi Hv). simpl.
      eexists; split; [reflexivity | right; auto]. }
  destruct (preparePayload request vars resolvedUrl) as [t|payload] eqn:Hp.
  { rewrite (handleSend_thrown _ _ _ _ _ _ request_fn t Hapi Hv) by auto.
    simpl. eexists; split; [reflexivity | right; auto]. }
  destruct (request_fn payload) as [t|resp] eqn:Hr.
  - rewrite (handleSend_thrown _ _ _ _ _ _ request_fn t Hapi Hv) by eauto.
    simpl. eexists; split; [reflexivity | right; auto].
  - rewrite (handleSend_resolved _ _ _ _ _ _ _ _ _ Hapi Hv Hp Hr). simpl.
    eexists; split; [reflexivity | left; eauto].
Qed.

(** X11. Every run of [handleSend] ends with a response record set,
    whatever the surroundings do; when the run gets no record from the
    transport, the record has status 0, duration 0 and size 0 and no
    headers.  A run that starts with [sending] off ends with [sending]
    off. *)
Theorem handleSend_always_responds URL_protocol w request vars resolvedUrl st :
  (exists r,
      response (handleSend URL_protocol w request vars resolvedUrl st)
      = Some r
      /\ ((exists request_fn payload,
              api_request w = Some request_fn
              /\ preparePayload request vars resolvedUrl = inr payload
              /\ request_fn payload = inr r)
          \/ (resp_status r = 0%Z /\ resp_duration r = 0%Z
              /\ resp_size r = 0%Z /\ resp_headers r = ∅)))
  /\ (sending st = false ->
      sending (handleSend URL_protocol w request vars resolvedUrl st) = false).
Proof.
  split; [apply handleSend_response|].
  intros Hoff. unfold handleSend.
  destruct (api_request w) as [request_fn|]; [|exact Hoff].
  destruct (negb (isValidHttpUrl URL_protocol resolvedUrl)); [exact Hoff|].
  reflexivity.
Qed.

Lemma handleSend_always_responds_witness :
  sending
    (handleSend Demo.URL_protocol (Demo.world Demo.rejecting)
       (Demo.draft "GET" "https://h/p" AuthNone) ∅ (js "https://h/p")
       (Demo.idle []))
  = false.
Proof.
  apply (handleSend_always_responds Demo.URL_protocol). reflexivity.
Defined.

(** X12. When the resolved URL fails the check of [handleSend], or when
    preparing the request throws (an unpaired surrogate in a form field
    or in an API key, credentials beyond U+00FF), the run ends in the
    same state for every transport: the transport is not called. *)
Theorem handleSend_stops_before_transport URL_protocol request vars
    resolvedUrl st uuid now :
  isValidHttpUrl URL_protocol resolvedUrl = false
  \/ (exists error, preparePayload request vars resolvedUrl = inl error) ->
  forall request_fn1 request_fn2,
    handleSend URL_protocol
      {| api_request := Some request_fn1; randomUUID := uuid;
         dateNow := now |} request vars resolvedUrl st
    = handleSend URL_protocol
        {| api_request := Some request_fn2; randomUUID := uuid;
           dateNow := now |} request vars resolvedUrl st.
Proof.
  intros Hstop request_fn1 request_fn2.
  set (w1 := {| api_request := Some request_fn1; randomUUID := uuid;
                dateNow := now |}).
  set (w2 := {| api_request := Some request_fn2; randomUUID := uuid;
                dateNow := now |}).
  destruct (isValidHttpUrl URL_protocol resolvedUrl) eqn:Hv.
  - destruct Hstop as [H | [error Hp]]; [discriminate|].
    rewrite (handleSend_not_prepared URL_protocol w1 request vars resolvedUrl
               st request_fn1 error eq_refl Hv Hp).
    rewrite (handleSend_not_prepared URL_protocol w2 request vars resolvedUrl
               st request_fn2 error eq_refl Hv Hp).
    reflexivity.
  - rewrite (handleSend_invalid URL_protocol w1 request vars resolvedUrl st
               request_fn1 eq_refl Hv).
    rewrite (handleSend_invalid URL_protocol w2 request vars resolvedUrl st
               request_fn2 eq_refl Hv).
    reflexivity.
Qed.

Lemma handleSend_stops_before_transport_witness :
  handleSend Demo.URL_protocol (Demo.world Demo.answering)
    (Demo.draft "GET" "ftp://h/p" AuthNone) ∅ (js "ftp://h/p") (Demo.idle [])
  = handleSend Demo.URL_protocol (Demo.world Demo.rejecting)
      (Demo.draft "GET" "ftp://h/p" AuthNone) ∅ (js "ftp://h/p")
      (Demo.idle []).
Proof.
  apply (handleSend_stops_before_transport Demo.URL_protocol).
  left. reflexivity.
Defined.

(** ** The tone of a response *)

(** X13. [statusTone] sorts every status into one of four tones: ok from
    200 to 299, warn from 300 to 399, error from 400 on, info below 200.
    A response that [handleSend] makes itself (no transport, invalid
    URL, request failed) is therefore shown in the info tone, not in the
    error tone. *)
Theorem statusTone_classes :
  (forall status,
      (statusTone status = js "status-ok" <-> (200 <= status < 300)%Z)
      /\ (statusTone status = js "status-warn" <-> (300 <= status < 400)%Z)
      /\ (statusTone status = js "status-error" <-> (400 <= status)%Z)
      /\ (statusTone status = js "status-info" <-> (status < 200)%Z))
  /\ (forall URL_protocol w request vars resolvedUrl st,
        exists r,
          response (handleSend URL_protocol w request vars resolvedUrl st)
          = Some r
          /\ ((exists request_fn payload,
                  api_request w = Some request_fn
                  /\ preparePayload request vars resolvedUrl = inr payload
                  /\ request_fn payload = inr r)
              \/ statusTone (resp_status r) = js "status-info")).
Proof.
  split.
  - intros status. unfold statusTone.
    destruct (Z.leb_spec 200 status); destruct (Z.ltb_spec status 300);
      cbn [andb];
      [| destruct (Z.leb_spec 400 status) | | ];
      try (destruct (Z.leb_spec 400 status));
      try (destruct (Z.leb_spec 300 status));
      repeat split; intros; try lia; try reflexivity;
      try (exfalso; discriminate).
  - intros URL_protocol w request vars resolvedUrl st.
    destruct (handleSend_response URL_protocol w request vars resolvedUrl st)
      as (r & Hr & [Hfrom | (Hstatus & _)]).
    + exists r. auto.
    + exists r. split; [exact Hr|]. right. rewrite Hstatus. reflexivity.
Qed.

(** ** The history after a sequence of runs *)

Lemma handleSend_recordedEntry URL_protocol s st :
  history (handleSend URL_protocol (s_world s) (s_request s) (s_vars s)
             (s_resolvedUrl s) st)
  = match recordedEntry URL_protocol s with
    | Some entry => nextHistory entry (history st)
    | None => history st
    end.
Proof.
  unfold recordedEntry.
  destruct (api_request (s_world s)) as [request_fn|] eqn:Hapi;
    [| rewrite handleSend_unavailable by exact Hapi; reflexivity].
  destruct (isValidHttpUrl URL_protocol (s_resolvedUrl s)) eqn:Hv;
    [| rewrite (handleSend_invalid _ _ _ _ _ _ _ Hapi Hv); reflexivity].
  destruct (preparePayload _ _ _) as [t|payload] eqn:Hp;
    [rewrite (handleSend_thrown _ _ _ _ _ _ request_fn t Hapi Hv) by auto;
     reflexivity|].
  destruct (request_fn payload) as [t|resp] eqn:Hr.
  - rewrite (handleSend_thrown _ _ _ _ _ _ request_fn t Hapi Hv) by eauto.
    reflexivity.
  - rewrite (handleSend_resolved _ _ _ _ _ _ _ _ _ Hapi Hv Hp Hr).
    reflexivity.
Qed.

Lemma omap_snoc {A B} (f : A -> option B) l x :
  omap f (l ++ [x])
  = omap f l ++ match f x with Some y => [y] | None => [] end.
Proof.
  rewrite omap_app. f_equal.
Qed.

(** X14. After a sequence of runs of [handleSend] that do not overlap
    (each starts in the state the one before left), the history is: the
    entries of the runs that recorded an execution, the latest first,
    followed by the history before the runs, cut after 20 entries; when
    no run recorded, the history is as before.  Such runs drop nothing
    but the oldest entries and do not change the order. *)
Theorem history_is_latest_first URL_protocol sends st :
  history (runSends URL_protocol sends st)
  = match omap (recordedEntry URL_protocol) sends with
    | [] => history st
    | entries => take 20 (rev entries ++ history st)
    end.
Proof.
  induction sends as [|s sends IH] using rev_ind; [reflexivity|].
  rewrite runSends_snoc, handleSend_recordedEntry, omap_snoc, IH.
  destruct (recordedEntry URL_protocol s) as [entry|].
  - unfold nextHistory.
    destruct (omap (recordedEntry URL_protocol) sends) as [|e entries].
    + reflexivity.
    + change ((e :: entries) ++ [entry]) with (e :: (entries ++ [entry])).
      cbn [app]. rewrite app_comm_cons, rev_app_distr. cbn [rev app].
      rewrite !firstn_cons, take_take. reflexivity.
  - rewrite app_nil_r. reflexivity.
Qed.

(** ** Runs that overlap *)

(** A run that no other run overlaps is a run of [handleSend]. *)
Lemma handleSend_start_settle URL_protocol s st :
  handleSend URL_protocol (s_world s) (s_request s) (s_vars s)
    (s_resolvedUrl s) st
  = match startSend URL_protocol s st with
    | (st', Some a) => settleSend a st'
    | (st', None) => st'
    end.
Proof.
  unfold handleSend, startSend, trySend, settleSend.
  destruct (api_request (s_world s)) as [request_fn|]; [|reflexivity].
  destruct (isValidHttpUrl URL_protocol (s_resolvedUrl s)); [|reflexivity].
  cbn [negb].
  destruct (preparePayload _ _ _) as [t|payload]; [reflexivity|].
  cbn. destruct (request_fn payload); reflexivity.
Qed.

(** A run that records waits, with the history of the state in which it
    started and the response its entry is made of. *)
Lemma startSend_recorded URL_protocol s st entry :
  recordedEntry URL_protocol s = Some entry ->
  exists resp,
    entry = historyItem (s_world s) (s_request s) (s_resolvedUrl s) resp
    /\ startSend URL_protocol s st
       = (setResponse None (setSending true st),
          Some {| aw_send := s; aw_answer := inr resp;
                  aw_history := history st |}).
Proof.
  unfold recordedEntry, startSend.
  destruct (api_request (s_world s)) as [request_fn|]; [|discriminate].
  destruct (isValidHttpUrl URL_protocol (s_resolvedUrl s)); [|discriminate].
  destruct (preparePayload _ _ _) as [t|payload]; [discriminate|].
  destruct (request_fn payload) as [t|resp]; [discriminate|].
  intros [= <-]. exists resp. split; reflexivity.
Qed.

Lemma startSend_history URL_protocol s st :
  history (startSend URL_protocol s st).1 = history st.
Proof.
  unfold startSend.
  destruct (api_request (s_world s)) as [request_fn|]; [|reflexivity].
  destruct (isValidHttpUrl URL_protocol (s_resolvedUrl s)); [|reflexivity].
  cbn [negb]. destruct (preparePayload _ _ _); reflexivity.
Qed.

Lemma settleSend_history a st :
  history (settleSend a st) = history st
  \/ exists entry,
      history (settleSend a st) = nextHistory entry (aw_history a).
Proof.
  unfold settleSend. destruct (aw_answer a); [left | right; eexists];
    reflexivity.
Qed.

(** X30. Runs of [handleSend] can overlap, since the shortcut starts one
    whether or not another waits for its answer.  Runs started and
    settled one after the other are the runs of [handleSend] as a
    whole.  Under every order of starting and settling the history
    keeps at most 20 entries.  But of two runs that both record an
    execution and of which the second starts before the first settles,
    only the run that settles last leaves its entry: the history is that
    entry in front of the history before the two runs, and the entry of
    the other run is lost, where the same two runs one after the other
    leave both entries. *)
Theorem overlapping_runs_lose_an_entry URL_protocol :
  (forall sends st,
      runEvents URL_protocol
        (flat_map (fun s => [Start s; Settle 0]) sends) (st, [])
      = (runSends URL_protocol sends st, []))
  /\ (forall events st waiting,
        (length (history st) <= 20)%nat ->
        (length (history (runEvents URL_protocol events (st, waiting)).1)
         <= 20)%nat)
  /\ (forall s1 s2 e1 e2 st,
        recordedEntry URL_protocol s1 = Some e1 ->
        recordedEntry URL_protocol s2 = Some e2 ->
        history
          (runEvents URL_protocol [Start s1; Start s2; Settle 0; Settle 0]
             (st, [])).1
        = take 20 (e2 :: history st)
        /\ history
             (runEvents URL_protocol [Start s1; Start s2; Settle 1; Settle 0]
                (st, [])).1
           = take 20 (e1 :: history st)
        /\ history (runSends URL_protocol [s1; s2] st)
           = take 20 (e2 :: e1 :: history st)).
Proof.
  split; [| split].
  - intros sends. induction sends as [|s sends IH]; intros st; [reflexivity|].
    cbn [flat_map]. unfold runEvents. rewrite fold_left_app.
    assert (Hone : fold_left (fun c e => step URL_protocol e c)
                     [Start s; Settle 0] (st, [])
                   = (handleSend URL_protocol (s_world s) (s_request s)
                        (s_vars s) (s_resolvedUrl s) st, [])).
    { cbn [fold_left step fst snd app].
      rewrite (handleSend_start_settle URL_protocol s st).
      destruct (startSend URL_protocol s st) as [st' [a|]]; reflexivity. }
    rewrite Hone. apply IH.
  - intros events. induction events as [|e events IH]; intros st waiting Hst;
      [exact Hst|].
    unfold runEvents in *. cbn [fold_left].
    destruct (step URL_protocol e (st, waiting)) as [st' waiting'] eqn:Hstep.
    apply IH. destruct e as [s|k]; cbn [step fst snd] in Hstep.
    + injection Hstep as <- _. rewrite startSend_history. exact Hst.
    + destruct (waiting !! k) as [a|]; injection Hstep as <- _; [|exact Hst].
      destruct (settleSend_history a st) as [-> | [entry ->]];
        [exact Hst | apply nextHistory_length].
  - intros s1 s2 e1 e2 st H1 H2.
    assert (Hseq : history (runSends URL_protocol [s1; s2] st)
                   = take 20 (e2 :: e1 :: history st)).
    { change [s1; s2] with ([s1] ++ [s2]).
      rewrite runSends_snoc, handleSend_recordedEntry, H2.
      change (runSends URL_protocol [s1] st)
        with (handleSend URL_protocol (s_world s1) (s_request s1)
                (s_vars s1) (s_resolvedUrl s1) st).
      rewrite handleSend_recordedEntry, H1. unfold nextHistory.
      rewrite !firstn_cons, take_take. reflexivity. }
    unfold runEvents. cbn [fold_left step fst snd].
    destruct (startSend_recorded URL_protocol s1 st e1 H1)
      as (r1 & -> & ->).
    cbn [fst snd app].
    destruct (startSend_recorded URL_protocol s2
                (setResponse None (setSending true st)) _ H2)
      as (r2 & -> & ->).
    split; [reflexivity|]. split; [reflexivity | exact Hseq].
Qed.

(** Two recorded runs, the second started while the first waits: one
    entry, where one after the other they leave two. *)
Lemma overlapping_runs_lose_an_entry_witness :
  let first := {| s_world := Demo.world Demo.answering;
                  s_request := Demo.draft "GET" "https://h/p" AuthNone;
                  s_vars := ∅; s_resolvedUrl := js "https://h/p" |} in
  let second := {| s_world := Demo.world Demo.answering;
                   s_request := Demo.draft "POST" "https://h/q" AuthNone;
                   s_vars := ∅; s_resolvedUrl := js "https://h/q" |} in
  map hist_url
    (history
       (runEvents Demo.URL_protocol
          [Start first; Start second; Settle 0; Settle 0]
          (Demo.idle [], [])).1)
  = [js "https://h/q"]
  /\ map hist_url
       (history (runSends Demo.URL_protocol [first; second] (Demo.idle [])))
     = [js "https://h/q"; js "https://h/p"].
Proof.
  intros first second.
  destruct (proj2 (proj2 (overlapping_runs_lose_an_entry Demo.URL_protocol))
              first second
              (historyItem (s_world first) (s_request first)
                 (s_resolvedUrl first) Demo.ok)
              (historyItem (s_world second) (s_request second)
                 (s_resolvedUrl second) Demo.ok)
              (Demo.idle []))
    as (Hoverlap & _ & Hseq); [vm_compute; reflexivity.. |].
  rewrite Hoverlap, Hseq. split; reflexivity.
Defined.

(** ** The checks of the main process *)

Lemma get_allowed : js "GET" ∈ ALLOWED_METHODS.
Proof. by_evaluation. Qed.

(** X15. The checked handler answers every payload in one of two ways.
    Either a check fails and the answer is a record with status 0, the
    text ["Invalid request"], no headers and size 0, which is the same
    for every [fetch]; or the URL is a string that is not blank and
    parses with the protocol [http:] or [https:], the method (["GET"]
    when the payload has none) is among the allowed ones once in upper
    case, and the answer is that of the exchange with the trimmed URL
    and that method. *)
Theorem httpRequest_checks URL_protocol toUpperCase w payload :
  (resp_status (httpRequest URL_protocol toUpperCase w payload) = 0%Z
   /\ resp_statusText (httpRequest URL_protocol toUpperCase w payload)
      = js "Invalid request"
   /\ resp_headers (httpRequest URL_protocol toUpperCase w payload) = ∅
   /\ resp_size (httpRequest URL_protocol toUpperCase w payload) = 0%Z
   /\ forall fetch',
       httpRequest URL_protocol toUpperCase (withFetch fetch' w) payload
       = httpRequest URL_protocol toUpperCase w payload)
  \/ (exists p url method protocol,
         payload = Some p
         /\ raw_url p = VStr url
         /\ trim url <> []
         /\ URL_protocol (trim url) = Some protocol
         /\ protocol ∈ ALLOWED_PROTOCOLS
         /\ method = match raw_method p with
                     | VStr m => toUpperCase m
                     | _ => js "GET"
                     end
         /\ method ∈ ALLOWED_METHODS
         /\ httpRequest URL_protocol toUpperCase w payload
            = guardedExchange w url method p).
Proof.
  unfold httpRequest.
  destruct payload as [p|]; [| left; repeat split; reflexivity].
  destruct (raw_url p) as [url| |] eqn:Hurl;
    try (left; repeat split; reflexivity).
  destruct (trim url) as [|c t] eqn:Ht; [left; repeat split; reflexivity|].
  destruct (URL_protocol (c :: t)) as [protocol|] eqn:Hproto;
    [| left; repeat split; reflexivity].
  destruct (decide (protocol ∈ ALLOWED_PROTOCOLS)) as [Hallowed|Hnot].
  2:{ rewrite (bool_decide_eq_false_2 _ Hnot).
      left; repeat split; reflexivity. }
  rewrite (bool_decide_eq_true_2 _ Hallowed). cbn [negb].
  destruct (raw_method p) as [m| |] eqn:Hmethod.
  - destruct (decide (toUpperCase m ∈ ALLOWED_METHODS)) as [Hm|Hm].
    + rewrite (bool_decide_eq_true_2 _ Hm). cbn [negb]. right.
      exists p, url, (toUpperCase m), protocol.
      rewrite Ht, Hmethod. repeat split; auto; discriminate.
    + rewrite (bool_decide_eq_false_2 _ Hm).
      left; repeat split; reflexivity.
  - right. exists p, url, (js "GET"), protocol.
    rewrite Ht, Hmethod. repeat split; auto using get_allowed; discriminate.
  - right. exists p, url, (js "GET"), protocol.
    rewrite Ht, Hmethod. repeat split; auto using get_allowed; discriminate.
Qed.

Lemma guardedExchange_allowListed URL_protocol w url method p protocol :
  URL_protocol (trim url) = Some protocol ->
  protocol ∈ ALLOWED_PROTOCOLS ->
  method ∈ ALLOWED_METHODS ->
  guardedExchange
    (withFetch (allowListed URL_protocol (fetch w)) w) url method p
  = guardedExchange w url method p.
Proof.
  intros Hproto Hallowed Hm. unfold guardedExchange, exchange.
  cbn [fetch withFetch startedAt finishedAt]. unfold allowListed.
  rewrite trim_idempotent, Hproto.
  rewrite (bool_decide_eq_true_2 _ eq_refl),
    (bool_decide_eq_true_2 _ Hallowed), (bool_decide_eq_true_2 _ Hm).
  destruct (raw_body p) as [[|c b]| |]; reflexivity.
Qed.

(** X16. The checked handler asks [fetch] only for what its allow-lists
    admit: with a [fetch] that refuses every URL that is not trimmed or
    whose protocol is neither [http:] nor [https:], every method outside
    the allowed ones and every body that is the empty string, the
    handler answers every payload as it does with [fetch] itself. *)
Theorem httpRequest_fetches_allow_listed URL_protocol toUpperCase w payload :
  httpRequest URL_protocol toUpperCase
    (withFetch (allowListed URL_protocol (fetch w)) w) payload
  = httpRequest URL_protocol toUpperCase w payload.
Proof.
  unfold httpRequest.
  destruct payload as [p|]; [|reflexivity].
  destruct (raw_url p) as [url| |]; try reflexivity.
  destruct (trim url) as [|c t] eqn:Ht; [reflexivity|].
  destruct (URL_protocol (c :: t)) as [protocol|] eqn:Hproto; [|reflexivity].
  destruct (decide (protocol ∈ ALLOWED_PROTOCOLS)) as [Hallowed|Hnot];
    [| rewrite (bool_decide_eq_false_2 _ Hnot); reflexivity].
  rewrite (bool_decide_eq_true_2 _ Hallowed). cbn [negb].
  rewrite <- Ht in Hproto.
  destruct (raw_method p) as [m| |].
  - destruct (decide (toUpperCase m ∈ ALLOWED_METHODS)) as [Hm|Hm];
      [| rewrite (bool_decide_eq_false_2 _ Hm); reflexivity].
    rewrite (bool_decide_eq_true_2 _ Hm). cbn [negb].
    apply (guardedExchange_allowListed _ _ _ _ _ protocol); assumption.
  - apply (guardedExchange_allowListed _ _ _ _ _ protocol);
      auto using get_allowed.
  - apply (guardedExchange_allowListed _ _ _ _ _ protocol);
      auto using get_allowed.
Qed.

(** ** The renderer and the main process *)

Lemma isValidHttpUrl_true URL_protocol url :
  isValidHttpUrl URL_protocol url = true ->
  trim url <> []
  /\ exists protocol,
      URL_protocol (trim url) = Some protocol
      /\ protocol ∈ ALLOWED_PROTOCOLS.
Proof.
  unfold isValidHttpUrl. destruct (trim url) as [|c t]; [discriminate|].
  destruct (URL_protocol (c :: t)) as [protocol|]; [|discriminate].
  intros H. split; [discriminate|]. exists protocol. split; [reflexivity|].
  apply orb_true_iff in H as [H | H]; apply bool_decide_eq_true_1 in H;
    subst protocol; by_evaluation.
Qed.

(** X17. A URL that passes the check of the renderer passes the checks
    of the main process: for a payload with such a URL and a method that
    is allowed once in upper case, the checked handler goes on to the
    exchange, so that a record of it with status 0 comes from the
    exchange and not from a check. *)
Theorem valid_url_passes_main_checks URL_protocol toUpperCase w payload :
  isValidHttpUrl URL_protocol (p_url payload) = true ->
  toUpperCase (p_method payload) ∈ ALLOWED_METHODS ->
  invokeHttpRequest URL_protocol toUpperCase w payload
  = inr (guardedExchange w (p_url payload) (toUpperCase (p_method payload))
           {| raw_url := VStr (p_url payload);
              raw_method := VStr (p_method payload);
              raw_headers := VObj (p_headers payload);
              raw_body := match p_body payload with
                          | Some b => VStr b
                          | None => VOther
                          end |}).
Proof.
  intros Hvalid Hm.
  apply isValidHttpUrl_true in Hvalid as (Hne & protocol & Hproto & Hallowed).
  unfold invokeHttpRequest.
  rewrite (httpRequest_dispatch URL_protocol toUpperCase w _ (p_url payload)
             (p_method payload) protocol); auto.
Qed.

Lemma valid_url_passes_main_checks_witness :
  invokeHttpRequest Demo.URL_protocol Demo.toUpperCase Demo.offline
    {| p_url := js "https://h/p"; p_method := js "GET"; p_headers := ∅;
       p_body := None |}
  = inr {| resp_status := 0; resp_statusText := js "Request failed";
           resp_headers := ∅; resp_body := []; resp_duration := 30;
           resp_size := 0 |}.
Proof.
  rewrite (valid_url_passes_main_checks Demo.URL_protocol Demo.toUpperCase
             Demo.offline); [reflexivity | reflexivity | by_evaluation].
Defined.

(** X18. With the checked handler behind [window.api.request], a run of
    [handleSend] that passes its URL check and prepares its request is
    always recorded: the response shown is the record of the handler and
    its entry is put in front of the history, also when [fetch] fails
    and the record has status 0. *)
Theorem checked_handler_always_recorded URL_protocol toUpperCase main w
    request vars resolvedUrl st payload :
  api_request w = Some (invokeHttpRequest URL_protocol toUpperCase main) ->
  isValidHttpUrl URL_protocol resolvedUrl = true ->
  preparePayload request vars resolvedUrl = inr payload ->
  exists resp,
    invokeHttpRequest URL_protocol toUpperCase main payload = inr resp
    /\ response (handleSend URL_protocol w request vars resolvedUrl st)
       = Some resp
    /\ history (handleSend URL_protocol w request vars resolvedUrl st)
       = take 20 (historyItem w request resolvedUrl resp :: history st).
Proof.
  intros Hapi Hvalid Hp. eexists. split; [reflexivity|].
  rewrite (handleSend_resolved URL_protocol w request vars resolvedUrl st
             _ payload _ Hapi Hvalid Hp eq_refl).
  split; reflexivity.
Qed.

Lemma checked_handler_always_recorded_witness :
  hist_status
    <$> history
          (handleSend Demo.URL_protocol
             (Demo.world (invokeHttpRequest Demo.URL_protocol
                            Demo.toUpperCase Demo.offline))
             (Demo.draft "GET" "https://h/p" AuthNone) ∅ (js "https://h/p")
             (Demo.idle [])) !! 0%nat
  = Some 0%Z.
Proof.
  destruct (checked_handler_always_recorded Demo.URL_protocol
              Demo.toUpperCase Demo.offline
              (Demo.world (invokeHttpRequest Demo.URL_protocol
                             Demo.toUpperCase Demo.offline))
              (Demo.draft "GET" "https://h/p" AuthNone) ∅ (js "https://h/p")
              (Demo.idle [])
              {| p_url := js "https://h/p"; p_method := js "GET";
                 p_headers := ∅; p_body := None |}
              eq_refl eq_refl eq_refl) as (resp & Hresp & _ & ->).
  injection Hresp as <-. reflexivity.
Defined.

(** ** The size of a response *)

Lemma utf8Length_bounds s :
  (Z.of_nat (length s) <= utf8Length s <= 3 * Z.of_nat (length s))%Z.
Proof.
  remember (length s) as n eqn:Hn. revert s Hn.
  induction n as [n IH] using lt_wf_ind. intros s ->.
  destruct s as [|c s]; [simpl; lia|].
  assert (Hs := IH (length s) ltac:(simpl; lia) s eq_refl).
  cbn [utf8Length length].
  destruct (c <? 0x80); [lia|]. destruct (c <? 0x800); [lia|].
  destruct (Char.isHighSurrogate c); [|lia].
  destruct s as [|d s]; [simpl; lia|].
  destruct (Char.isLowSurrogate d); [|lia].
  assert (Hs' := IH (length s) ltac:(simpl; lia) s eq_refl).
  cbn [length]. lia.
Qed.

(** X19. The size of a record the exchange returns is the number of
    octets of the body in UTF-8: at least the number of code units of
    the body and at most three times that number. *)
Theorem response_size_bounds w url method headers body r :
  exchange w url method headers body = inr r ->
  resp_size r = utf8Length (resp_body r)
  /\ (Z.of_nat (length (resp_body r)) <= resp_size r
      <= 3 * Z.of_nat (length (resp_body r)))%Z.
Proof.
  unfold exchange.
  destruct (fetch w url method headers body) as [t|response]; [discriminate|].
  cbn [mbind result_bind].
  destruct (fr_text response) as [t|text]; [discriminate|].
  intros [= <-]. cbn [resp_size resp_body].
  split; [reflexivity | apply utf8Length_bounds].
Qed.

Lemma response_size_bounds_witness :
  resp_size
    {| resp_status := 200; resp_statusText := js "OK"; resp_headers := ∅;
       resp_body := [0x68; 0xE9; 0x20AC; 0xD83D; 0xDE00];
       resp_duration := 5; resp_size := 10 |}
  = utf8Length [0x68; 0xE9; 0x20AC; 0xD83D; 0xDE00].
Proof.
  apply (response_size_bounds
           {| fetch := fun _ _ _ _ =>
                         inr {| fr_status := 200; fr_statusText := js "OK";
                                fr_headers := [];
                                fr_text :=
                                  inr [0x68; 0xE9; 0x20AC; 0xD83D; 0xDE00] |};
              startedAt := 0; finishedAt := 5 |}
           (js "https://h/p") (js "GET") ∅ None).
  reflexivity.
Defined.

(** ** The tabs *)

Lemma sameString_true a b : sameString a b = true <-> a = b.
Proof. unfold sameString. apply bool_decide_eq_true. Qed.

Lemma sameString_refl a : sameString a a = true.
Proof. apply sameString_true. reflexivity. Qed.

Lemma find_active_some (tabs : list RequestDraft) id :
  id ∈ map req_id tabs ->
  exists t, List.find (fun t => sameString (req_id t) id) tabs = Some t
            /\ req_id t = id.
Proof.
  induction tabs as [|t tabs IH]; cbn [map List.find].
  - intros H. apply elem_of_nil in H. contradiction.
  - intros H. destruct (sameString (req_id t) id) eqn:Ht.
    + exists t. split; [reflexivity | apply sameString_true, Ht].
    + apply elem_of_cons in H as [-> | H]; [| apply IH, H].
      rewrite sameString_refl in Ht. discriminate.
Qed.

Lemma find_active_elem (tabs : list RequestDraft) id t :
  List.find (fun t => sameString (req_id t) id) tabs = Some t ->
  req_id t = id /\ id ∈ map req_id tabs.
Proof.
  induction tabs as [|t0 tabs IH]; cbn [map List.find]; [discriminate|].
  destruct (sameString (req_id t0) id) eqn:Ht.
  - intros [= <-]. apply sameString_true in Ht. split; [exact Ht|].
    rewrite Ht. left.
  - intros H. destruct (IH H) as [Hid Hin]. split; [exact Hid|].
    right. exact Hin.
Qed.

(** An updater that keeps the identifier keeps the identifiers of the
    tabs. *)
Lemma setRequest_ids updater ui :
  (forall t, req_id t = ui_activeTabId ui -> req_id (updater t) = req_id t) ->
  map req_id (ui_tabs (setRequest updater ui)) = map req_id (ui_tabs ui).
Proof.
  intros Hkeep. unfold setRequest. cbn [ui_tabs setTabs].
  induction (ui_tabs ui) as [|t tabs IH]; [reflexivity|].
  cbn [map]. rewrite IH. f_equal.
  destruct (sameString (req_id t) (ui_activeTabId ui)) eqn:Ht; [|reflexivity].
  apply Hkeep, sameString_true, Ht.
Qed.

Lemma currentRequest_active ui :
  activeTabExists ui ->
  exists request,
    currentRequest ui = Some request
    /\ req_id request = ui_activeTabId ui.
Proof.
  intros Hok. unfold currentRequest.
  destruct (find_active_some _ _ Hok) as (t & -> & Hid). eauto.
Qed.

(** X20. Once the active identifier is that of one of the tabs, it stays
    so under every action on the tabs: adding a tab, closing a tab (the
    last one is replaced by a new default tab), selecting one of the
    tabs, loading a request of a collection, loading a history entry,
    resetting the request.  The effect that repairs the active
    identifier makes it so from any state with a tab.  In such a state
    the request shown is the tab with the active identifier. *)
Theorem active_tab_always_exists :
  (forall a ui, activeTabExists ui -> offered a ui ->
                activeTabExists (act a ui))
  /\ (forall ui, ui_tabs ui <> [] -> activeTabExists (ensureActiveTab ui))
  /\ (forall ui, activeTabExists ui ->
                 exists request,
                   currentRequest ui = Some request
                   /\ req_id request = ui_activeTabId ui
                   /\ request ∈ ui_tabs ui).
Proof.
  assert (Hensure : forall ui, ui_tabs ui <> [] ->
                               activeTabExists (ensureActiveTab ui)).
  { intros ui Hne. unfold ensureActiveTab, activeTabExists.
    destruct (ui_tabs ui) as [|first tabs] eqn:Htabs; [congruence|].
    destruct (ui_activeTabId ui) as [|c id] eqn:Hid.
    - cbn. rewrite Htabs. left.
    - destruct (List.find _ (first :: tabs)) as [t|] eqn:Hfind.
      + rewrite Htabs, Hid. apply find_active_elem in Hfind as [_ Hin].
        exact Hin.
      + cbn. rewrite Htabs. left. }
  split; [| split; [exact Hensure|] ].
  - intros a ui Hok Hoffered. unfold activeTabExists in *.
    destruct a as [fresh | fresh id | id | fresh item | item | fresh | ];
      cbn [act].
    + cbn. rewrite map_app, elem_of_app. right. left.
    + unfold closeTab.
      destruct (List.filter _ (ui_tabs ui)) as [|first next] eqn:Hnext.
      * destruct (sameString (ui_activeTabId ui) id); cbn; left.
      * destruct (sameString (ui_activeTabId ui) id) eqn:Hid.
        -- cbn. left.
        -- cbn [ui_tabs ui_activeTabId setTabs setActiveTabId setApp].
           rewrite <- Hnext.
           apply list_elem_of_fmap in Hok as (t & Ht & Hin).
           apply list_elem_of_fmap. exists t. split; [exact Ht|].
           apply list_elem_of_In, List.filter_In. split;
             [apply list_elem_of_In, Hin|].
           rewrite Ht in Hid. rewrite Hid. reflexivity.
    + cbn. exact Hoffered.
    + unfold loadRequest.
      destruct (List.find _ (ui_tabs ui)) as [t|] eqn:Hfind.
      * cbn. apply find_active_elem in Hfind as [_ Hin]. exact Hin.
      * cbn. rewrite map_app, elem_of_app. right. left.
    + unfold loadFromHistory. cbn [ui_activeTabId ui_tabs setApp].
      rewrite setRequest_ids; [exact Hok | reflexivity].
    + destruct (currentRequest_active ui Hok) as (request & -> & Hid).
      unfold resetRequest. cbn [ui_activeTabId ui_tabs setApp].
      rewrite setRequest_ids; [exact Hok|].
      intros t Ht. cbn. congruence.
    + apply Hensure. intros Hnil. rewrite Hnil in Hok.
      apply elem_of_nil in Hok. exact Hok.
  - intros ui Hok. unfold currentRequest.
    destruct (find_active_some _ _ Hok) as (t & Hfind & Hid).
    rewrite Hfind. exists t. repeat split; auto.
    apply list_elem_of_In. apply (List.find_some _ _ Hfind).
Qed.

(** Closing the active one of two tabs, and closing the only tab. *)
Lemma active_tab_always_exists_witness :
  let ui tabs :=
    {| ui_tabs := tabs; ui_activeTabId := js "r1"; ui_folders := [];
       ui_environments := []; ui_activeEnvId := js "dev";
       ui_envVarVisibleIds := ∅; ui_searchQuery := [];
       ui_app := Demo.idle [] |} in
  let r1 := Demo.draft "GET" "https://h/p" AuthNone in
  let r2 := withId (js "r2") (Demo.draft "POST" "https://h/q" AuthNone) in
  (activeTabExists (closeTab (fun _ => js "new") (js "r1") (ui [r1; r2]))
   /\ ui_activeTabId (closeTab (fun _ => js "new") (js "r1") (ui [r1; r2]))
      = js "r2")
  /\ (activeTabExists (closeTab (fun _ => js "new") (js "r1") (ui [r1]))
      /\ ui_activeTabId (closeTab (fun _ => js "new") (js "r1") (ui [r1]))
         = js "new").
Proof.
  intros ui r1 r2. split; (split; [| reflexivity]).
  - apply (proj1 active_tab_always_exists
             (CloseTab (fun _ => js "new") (js "r1")) (ui [r1; r2])).
    + unfold activeTabExists. by_evaluation.
    + exact I.
  - apply (proj1 active_tab_always_exists
             (CloseTab (fun _ => js "new") (js "r1")) (ui [r1])).
    + unfold activeTabExists. by_evaluation.
    + exact I.
Defined.

(** ** Editing the request *)

(** X21. In a state whose active identifier is that of one of the tabs,
    [setRequest] with an updater that keeps the identifier changes the
    request shown into what the updater makes of it, keeps the number of
    tabs, and leaves every tab with another identifier as it is. *)
Theorem setRequest_updates_the_request updater ui request :
  activeTabExists ui ->
  currentRequest ui = Some request ->
  req_id (updater request) = req_id request ->
  currentRequest (setRequest updater ui) = Some (updater request)
  /\ length (ui_tabs (setRequest updater ui)) = length (ui_tabs ui)
  /\ (forall i t, ui_tabs ui !! i = Some t ->
                  req_id t <> ui_activeTabId ui ->
                  ui_tabs (setRequest updater ui) !! i = Some t).
Proof.
  intros Hok Hcurrent Hkeep.
  destruct (find_active_some _ _ Hok) as (t0 & Hfind & Hid0).
  unfold currentRequest in Hcurrent. rewrite Hfind in Hcurrent.
  injection Hcurrent as ->.
  split; [| split].
  - unfold currentRequest, setRequest.
    cbn [ui_tabs ui_activeTabId setTabs].
    assert (H : List.find
                  (fun t => sameString (req_id t) (ui_activeTabId ui))
                  (map (fun t =>
                          if sameString (req_id t) (ui_activeTabId ui)
                          then updater t else t) (ui_tabs ui))
                = Some (updater request)).
    { revert Hfind. induction (ui_tabs ui) as [|t tabs IH];
        cbn [map List.find]; [discriminate|].
      destruct (sameString (req_id t) (ui_activeTabId ui)) eqn:Ht.
      - intros [= ->]. rewrite Hkeep, Ht. reflexivity.
      - rewrite Ht. exact IH. }
    rewrite H. reflexivity.
  - unfold setRequest. cbn [ui_tabs setTabs]. apply length_map.
  - intros i t Hi Hne. unfold setRequest. cbn [ui_tabs setTabs].
    rewrite list_lookup_fmap, Hi. cbn.
    destruct (sameString (req_id t) (ui_activeTabId ui)) eqn:Ht;
      [| reflexivity].
    apply sameString_true in Ht. contradiction.
Qed.

Lemma setRequest_updates_the_request_witness :
  let ui := {| ui_tabs := [Demo.draft "POST" "https://h/p" AuthNone];
               ui_activeTabId := js "r1"; ui_folders := [];
               ui_environments := []; ui_activeEnvId := js "dev";
               ui_envVarVisibleIds := ∅; ui_searchQuery := [];
               ui_app := Demo.idle [] |} in
  req_url
    <$> currentRequest
          (setRequest (withUrlMethod (js "https://h/old") (js "GET")) ui)
  = Some (js "https://h/old").
Proof.
  intros ui.
  destruct (setRequest_updates_the_request
              (withUrlMethod (js "https://h/old") (js "GET")) ui
              (Demo.draft "POST" "https://h/p" AuthNone)) as [H _].
  - unfold activeTabExists. by_evaluation.
  - reflexivity.
  - reflexivity.
  - rewrite H. reflexivity.
Defined.

(** ** Collections *)

Lemma findIndexFrom_none {A} (p : A -> bool) l i :
  Forall (fun x => p x = false) l -> findIndexFrom p l i = (-1)%Z.
Proof.
  intros H. revert i. induction H as [|x l Hx _ IH]; intros i; [reflexivity|].
  cbn [findIndexFrom]. rewrite Hx. apply IH.
Qed.

Lemma findIndexFrom_spec {A} (p : A -> bool) l i :
  (0 <= i)%Z ->
  (findIndexFrom p l i = (-1)%Z /\ Forall (fun x => p x = false) l)
  \/ exists k x,
      findIndexFrom p l i = (i + Z.of_nat k)%Z
      /\ l !! k = Some x /\ p x = true
      /\ Forall (fun y => p y = false) (take k l).
Proof.
  revert i. induction l as [|x l IH]; intros i Hi; [left; auto|].
  cbn [findIndexFrom]. destruct (p x) eqn:Hx.
  - right. exists 0%nat, x.
    split; [lia|]. split; [reflexivity|]. split; [exact Hx | constructor].
  - destruct (IH (i + 1)%Z ltac:(lia))
      as [[-> Hall] | (k & y & -> & Hk & Hy & Hbefore)].
    + left. split; [reflexivity | constructor; assumption].
    + right. exists (S k), y.
      split; [lia|]. split; [exact Hk|]. split; [exact Hy|].
      cbn [take]. constructor; assumption.
Qed.

Lemma findIndexFrom_found {A} (p : A -> bool) l i k x :
  l !! k = Some x -> p x = true ->
  Forall (fun y => p y = false) (take k l) ->
  findIndexFrom p l i = (i + Z.of_nat k)%Z.
Proof.
  revert l i. induction k as [|k IH]; intros [|y l] i Hk Hx Hbefore;
    try discriminate.
  - cbn in Hk. injection Hk as ->. cbn [findIndexFrom]. rewrite Hx. lia.
  - cbn [findIndexFrom]. cbn [take] in Hbefore.
    apply Forall_cons in Hbefore as [Hy Hbefore]. rewrite Hy.
    rewrite (IH l (i + 1)%Z Hk Hx Hbefore). lia.
Qed.

(** X22. Saving a request to the collections changes the first folder
    alone, and of it the requests alone: the request takes the place of
    the first request there with the same identifier, or else goes in
    front, and every other request stays where it is.  Saving the same
    request again changes nothing, so no request is stored twice by
    saving.  Without any folder nothing is stored. *)
Theorem saveToCollection_idempotent request folders :
  saveToCollection request (saveToCollection request folders)
  = saveToCollection request folders
  /\ (folders = [] -> saveToCollection request folders = [])
  /\ (forall first rest,
        folders = first :: rest ->
        exists requests,
          saveToCollection request folders
          = {| folder_id := folder_id first;
               folder_name := folder_name first;
               folder_open := folder_open first;
               folder_requests := requests |} :: rest
          /\ ((Forall (fun r => req_id r <> req_id request)
                 (folder_requests first)
               /\ requests = request :: folder_requests first)
              \/ exists before old after,
                  folder_requests first = before ++ old :: after
                  /\ Forall (fun r => req_id r <> req_id request) before
                  /\ req_id old = req_id request
                  /\ requests = before ++ request :: after)).
Proof.
  destruct folders as [|first rest].
  { split; [reflexivity|].
    split; [reflexivity | intros ? ? H; discriminate H]. }
  set (p := fun r : RequestDraft => sameString (req_id r) (req_id request)).
  assert (Hp : p request = true) by apply sameString_refl.
  assert (Hother : forall l,
             Forall (fun r => p r = false) l ->
             Forall (fun r => req_id r <> req_id request) l).
  { intros l Hl. eapply Forall_impl; [exact Hl|]. intros r Hr Heq.
    apply sameString_true in Heq. unfold p in Hr. congruence. }
  unfold saveToCollection. fold p. unfold findIndex.
  destruct (findIndexFrom_spec p (folder_requests first) 0 ltac:(lia))
    as [[Hidx Hall] | (k & x & Hidx & Hk & Hx & Hbefore)]; rewrite Hidx.
  - replace (0 <=? -1)%Z with false by reflexivity.
    cbn [withRequests folder_requests findIndexFrom]. rewrite Hp.
    split; [reflexivity|]. split; [discriminate|].
    intros first' rest' [= <- <-]. eexists. split; [reflexivity|].
    left. split; [apply Hother, Hall | reflexivity].
  - replace (0 <=? 0 + Z.of_nat k)%Z with true by (symmetry; apply Z.leb_le; lia).
    replace (Z.to_nat (0 + Z.of_nat k)) with k by lia.
    cbn [withRequests folder_requests].
    assert (Hlt : (k < length (folder_requests first))%nat)
      by (eapply lookup_lt_Some, Hk).
    rewrite (findIndexFrom_found p (<[k := request]> (folder_requests first))
               0 k request).
    + replace (0 <=? 0 + Z.of_nat k)%Z with true
        by (symmetry; apply Z.leb_le; lia).
      replace (Z.to_nat (0 + Z.of_nat k)) with k by lia.
      rewrite list_insert_insert_eq.
      split; [reflexivity|]. split; [discriminate|].
      intros first' rest' [= <- <-]. eexists. split; [reflexivity|].
      right. exists (take k (folder_requests first)), x,
        (drop (S k) (folder_requests first)).
      split; [symmetry; apply take_drop_middle, Hk|].
      split; [apply Hother, Hbefore|].
      split; [apply sameString_true, Hx|].
      apply insert_take_drop, Hlt.
    + apply list_lookup_insert_eq. exact Hlt.
    + exact Hp.
    + rewrite take_insert_ge by lia. exact Hbefore.
Qed.

(** A request saved over the one of its identifier, between two others. *)
Lemma saveToCollection_idempotent_witness :
  let a := withId (js "a") (Demo.draft "GET" "https://h/a" AuthNone) in
  let b := withId (js "b") (Demo.draft "GET" "https://h/old" AuthNone) in
  let c := withId (js "c") (Demo.draft "GET" "https://h/c" AuthNone) in
  let b' := withId (js "b") (Demo.draft "GET" "https://h/new" AuthNone) in
  let folder requests :=
    {| folder_id := js "f1"; folder_name := js "User Service API";
       folder_open := true; folder_requests := requests |} in
  saveToCollection b' [folder [a; b; c]] = [folder [a; b'; c]].
Proof.
  intros a b c b' folder.
  destruct (saveToCollection_idempotent b' [folder [a; b; c]])
    as (_ & _ & Hplace).
  destruct (Hplace _ _ eq_refl) as (requests & -> & Hrequests).
  destruct Hrequests
    as [[Hnone _] | (before & old & after & Hsplit & Hbefore & Hold & ->)].
  - exfalso. apply Forall_cons in Hnone as [_ Hnone].
    apply Forall_cons in Hnone as [Hb _]. apply Hb. reflexivity.
  - cbn in Hsplit. destruct before as [|x before].
    { injection Hsplit as <- _. vm_compute in Hold. discriminate Hold. }
    injection Hsplit as <- Hsplit.
    destruct before as [|y before].
    + injection Hsplit as <- <-. reflexivity.
    + exfalso. injection Hsplit as <- _.
      apply Forall_cons in Hbefore as [_ Hbefore].
      apply Forall_cons in Hbefore as [Hb _]. apply Hb. reflexivity.
Defined.

(** X23. [removeRequest] leaves no request with the given identifier in
    any folder with the given folder identifier, keeps the number of the
    folders, and leaves every folder with another identifier as it is.
    Removing a request just saved from the first folder, which held no
    request of that identifier before and is the only folder of its
    identifier, gives the folders back as they were. *)
Theorem removeRequest_removes id folderId folders :
  length (removeRequest id folderId folders) = length folders
  /\ (forall f, f ∈ removeRequest id folderId folders ->
                folder_id f = folderId ->
                id ∉ map req_id (folder_requests f))
  /\ (forall i f, folders !! i = Some f -> folder_id f <> folderId ->
                  removeRequest id folderId folders !! i = Some f)
  /\ (forall request first rest,
        folders = first :: rest ->
        req_id request = id ->
        folder_id first = folderId ->
        id ∉ map req_id (folder_requests first) ->
        Forall (fun f => folder_id f <> folderId) rest ->
        removeRequest id folderId (saveToCollection request folders)
        = folders).
Proof.
  split; [apply length_map|]. split; [| split].
  - intros f Hf Hid. unfold removeRequest in Hf.
    apply list_elem_of_fmap in Hf as (f0 & -> & _).
    destruct (sameString (folder_id f0) folderId) eqn:Hf0.
    + cbn. intros Hin. apply list_elem_of_fmap in Hin as (r & Hr & Hin).
      apply list_elem_of_In, List.filter_In in Hin as [_ Hkeep].
      rewrite <- Hr, sameString_refl in Hkeep. discriminate.
    + apply sameString_true in Hid. congruence.
  - intros i f Hi Hne. unfold removeRequest.
    rewrite list_lookup_fmap, Hi. cbn.
    destruct (sameString (folder_id f) folderId) eqn:Hf; [|reflexivity].
    apply sameString_true in Hf. contradiction.
  - intros request first rest -> Hreq Hfirst Hfresh Hrest.
    assert (Hall : Forall
                     (fun r => sameString (req_id r) (req_id request) = false)
                     (folder_requests first)).
    { apply Forall_forall. intros r Hr.
      destruct (sameString (req_id r) (req_id request)) eqn:Hs; [|reflexivity].
      apply sameString_true in Hs. exfalso. apply Hfresh.
      rewrite <- Hreq, <- Hs. apply list_elem_of_fmap. eauto. }
    unfold saveToCollection, findIndex.
    rewrite (findIndexFrom_none _ _ _ Hall).
    replace (0 <=? -1)%Z with false by reflexivity.
    unfold removeRequest. cbn [map withRequests folder_id folder_requests].
    rewrite Hfirst, sameString_refl. cbn [List.filter].
    rewrite Hreq, sameString_refl. cbn [negb].
    f_equal.
    + destruct first as [fid fname fopen freqs]. unfold withRequests.
      cbn in *. f_equal.
      clear -Hall Hreq. induction Hall as [|r l Hr _ IH]; [reflexivity|].
      cbn [List.filter]. rewrite <- Hreq, Hr. cbn [negb]. f_equal.
      rewrite Hreq. exact IH.
    + clear -Hrest. induction Hrest as [|f l Hf _ IH]; [reflexivity|].
      cbn [map]. rewrite IH. f_equal.
      destruct (sameString (folder_id f) folderId) eqn:Hs; [|reflexivity].
      apply sameString_true in Hs. contradiction.
Qed.

Lemma removeRequest_removes_witness :
  let folder := {| folder_id := js "f1"; folder_name := js "User Service API";
                   folder_open := true; folder_requests := [] |} in
  removeRequest (js "r1") (js "f1")
    (saveToCollection (Demo.draft "GET" "https://h/p" AuthNone) [folder])
  = [folder].
Proof.
  intros folder.
  apply (proj2 (proj2 (proj2 (removeRequest_removes (js "r1") (js "f1")
                                [folder])))
           (Demo.draft "GET" "https://h/p" AuthNone) folder []);
    try reflexivity.
  - cbn. apply not_elem_of_nil.
  - constructor.
Defined.

(** X24. Toggling a folder twice gives the folders back as they were,
    and toggling the visibility of a variable twice gives the state back
    as it was. *)
Theorem toggle_twice_restores :
  (forall folderId folders,
      toggleFolder folderId (toggleFolder folderId folders) = folders)
  /\ (forall id ui,
        toggleEnvVarVisible id (toggleEnvVarVisible id ui) = ui).
Proof.
  split.
  - intros folderId folders. unfold toggleFolder.
    induction folders as [|f folders IH]; [reflexivity|].
    cbn [map]. rewrite IH. f_equal.
    destruct (sameString (folder_id f) folderId) eqn:Hf.
    + cbn [folder_id]. rewrite Hf. destruct f as [fid fname fopen freqs].
      cbn. rewrite negb_involutive. reflexivity.
    + rewrite Hf. reflexivity.
  - intros id ui. destruct ui as [tabs active folders envs env visible q app].
    unfold toggleEnvVarVisible, setEnvVarVisibleIds. cbn. f_equal.
    destruct (decide (id ∈ visible)) as [Hin|Hout].
    + rewrite (bool_decide_eq_true_2 _ Hin).
      rewrite bool_decide_eq_false_2
        by (rewrite elem_of_difference, elem_of_singleton; tauto).
      apply set_eq. intros x.
      rewrite elem_of_union, elem_of_difference, elem_of_singleton.
      destruct (decide (x = id)) as [->|]; tauto.
    + rewrite (bool_decide_eq_false_2 _ Hout).
      rewrite bool_decide_eq_true_2
        by (rewrite elem_of_union, elem_of_singleton; tauto).
      apply set_eq. intros x.
      rewrite elem_of_difference, elem_of_union, elem_of_singleton.
      destruct (decide (x = id)) as [->|]; tauto.
Qed.

(** ** Duplicating a request *)

Lemma reidentify_selected fresh from items :
  map (fun item => (kv_key item, kv_value item))
      (List.filter isSelected (reidentify fresh from items))
  = map (fun item => (kv_key item, kv_value item))
        (List.filter isSelected items).
Proof.
  revert from. induction items as [|p items IH]; intros from; [reflexivity|].
  cbn [reidentify List.filter].
  change (isSelected
            {| kv_id := fresh from; kv_key := kv_key p;
               kv_value := kv_value p; kv_enabled := kv_enabled p;
               kv_secret := kv_secret p |}) with (isSelected p).
  destruct (isSelected p); cbn [map]; rewrite IH; reflexivity.
Qed.

Lemma resolvePairs_by_key_value items1 items2 vars :
  map (fun item => (kv_key item, kv_value item))
      (List.filter isSelected items1)
  = map (fun item => (kv_key item, kv_value item))
        (List.filter isSelected items2) ->
  resolvePairs items1 vars = resolvePairs items2 vars.
Proof.
  intros H. unfold resolvePairs.
  apply (f_equal
           (map (fun kv : list N * list N =>
                   (applyVariables (trim kv.1) vars,
                    applyVariables kv.2 vars)))) in H.
  rewrite !List.map_map in H. exact H.
Qed.

Lemma buildHeaders_by_key_value items1 items2 auth vars :
  map (fun item => (kv_key item, kv_value item))
      (List.filter isSelected items1)
  = map (fun item => (kv_key item, kv_value item))
        (List.filter isSelected items2) ->
  buildHeaders items1 auth vars = buildHeaders items2 auth vars.
Proof.
  intros H. unfold buildHeaders.
  assert (Hfold : forall (l : list KeyValue) (acc : gmap (list N) (list N)),
             fold_left (headerStep vars) l acc
             = fold_left
                 (fun (m : gmap (list N) (list N)) (kv : list N * list N) =>
                    setProperty (applyVariables (trim kv.1) vars)
                      (applyVariables kv.2 vars) m)
                 (map (fun item => (kv_key item, kv_value item)) l) acc).
  { induction l as [|x l IH]; intros acc; [reflexivity|]. cbn. apply IH. }
  change (fold_left _ (List.filter isSelected items1) ∅)
    with (fold_left (headerStep vars) (List.filter isSelected items1) ∅).
  change (fold_left _ (List.filter isSelected items2) ∅)
    with (fold_left (headerStep vars) (List.filter isSelected items2) ∅).
  rewrite !Hfold, H. reflexivity.
Qed.

Lemma reidentify_ids fresh from items :
  map kv_id (reidentify fresh from items)
  = map fresh (seq from (length items)).
Proof.
  revert from. induction items as [|p items IH]; intros from; [reflexivity|].
  cbn [reidentify map length seq kv_id]. rewrite IH. reflexivity.
Qed.

Lemma reidentify_entries fresh from items :
  Forall2
    (fun copy p =>
       kv_key copy = kv_key p /\ kv_value copy = kv_value p
       /\ kv_enabled copy = kv_enabled p /\ kv_secret copy = kv_secret p)
    (reidentify fresh from items) items.
Proof.
  revert from. induction items as [|p items IH]; intros from;
    cbn [reidentify]; constructor; auto.
Qed.

(** X25. The copy [deepCloneRequest] makes of a request has the name of
    the request followed by [" Copy"] and the identifiers
    [crypto.randomUUID()] returns in the order of the calls: the first
    for the copy, the next for its parameters, the next for its headers,
    so that they are pairwise distinct when the calls return distinct
    identifiers.  The parameters and the headers are otherwise those of
    the request, in their order; the form fields are those of the
    request with the identifiers they have.  For every variable map the
    copy resolves to the same URL and the same payload as the
    request. *)
Theorem deepCloneRequest_sends_the_same fresh item :
  req_id (deepCloneRequest fresh item) = fresh 0%nat
  /\ req_name (deepCloneRequest fresh item) = req_name item ++ js " Copy"
  /\ map kv_id (req_params (deepCloneRequest fresh item))
     = map fresh (seq 1 (length (req_params item)))
  /\ map kv_id (req_headers (deepCloneRequest fresh item))
     = map fresh
         (seq (1 + length (req_params item)) (length (req_headers item)))
  /\ ((forall i j, fresh i = fresh j -> i = j) ->
      NoDup (req_id (deepCloneRequest fresh item)
             :: map kv_id (req_params (deepCloneRequest fresh item))
                ++ map kv_id (req_headers (deepCloneRequest fresh item))))
  /\ Forall2
       (fun c p =>
          kv_key c = kv_key p /\ kv_value c = kv_value p
          /\ kv_enabled c = kv_enabled p /\ kv_secret c = kv_secret p)
       (req_params (deepCloneRequest fresh item)) (req_params item)
  /\ Forall2
       (fun c p =>
          kv_key c = kv_key p /\ kv_value c = kv_value p
          /\ kv_enabled c = kv_enabled p /\ kv_secret c = kv_secret p)
       (req_headers (deepCloneRequest fresh item)) (req_headers item)
  /\ req_formDataFields (deepCloneRequest fresh item)
     = req_formDataFields item
  /\ (forall vars,
        buildUrl (req_url (deepCloneRequest fresh item))
          (req_params (deepCloneRequest fresh item)) vars
        = buildUrl (req_url item) (req_params item) vars)
  /\ (forall vars resolvedUrl,
        preparePayload (deepCloneRequest fresh item) vars resolvedUrl
        = preparePayload item vars resolvedUrl).
Proof.
  split; [reflexivity|]. split; [reflexivity|].
  split; [apply reidentify_ids|]. split; [apply reidentify_ids|].
  split.
  { intros Hinj. cbn [deepCloneRequest req_id req_params req_headers].
    rewrite !reidentify_ids, <- List.map_app, <- seq_app.
    change (NoDup (fresh <$> seq 0 (S (length (req_params item)
                                       + length (req_headers item))))).
    apply NoDup_fmap_2; [exact Hinj | apply NoDup_seq]. }
  split; [apply reidentify_entries|]. split; [apply reidentify_entries|].
  split; [reflexivity|]. split.
  - intros vars. unfold buildUrl. cbn [deepCloneRequest req_url req_params].
    rewrite (resolvePairs_by_key_value _ (req_params item) vars
               (reidentify_selected fresh _ _)).
    reflexivity.
  - intros vars resolvedUrl. unfold preparePayload.
    cbn [deepCloneRequest req_headers req_auth req_method].
    rewrite (buildHeaders_by_key_value _ (req_headers item) (req_auth item)
               vars (reidentify_selected fresh _ _)).
    reflexivity.
Qed.

(** ** Loading a history entry *)



(** ** The variables of the active environment *)

(** X27. When the active environment identifier is that of one of the
    environments, the variables read after [setEnvironmentVariables] are
    the variables written, and after [removeEnvVariable] no variable with
    the removed identifier is left among them.  When it is the identifier
    of no environment, there are no variables to read and writing them
    changes nothing: the variables written are lost. *)
Theorem environment_variables_written_and_read ui :
  (ui_activeEnvId ui ∈ map environment_id (ui_environments ui) ->
   (forall vars, activeVariables (setEnvironmentVariables vars ui) = vars)
   /\ (forall id,
         id ∉ map env_id (activeVariables (removeEnvVariable id ui))))
  /\ (ui_activeEnvId ui ∉ map environment_id (ui_environments ui) ->
      activeVariables ui = []
      /\ forall vars, setEnvironmentVariables vars ui = ui).
Proof.
  split.
  - intros Hactive.
    assert (Hread : forall vars,
               activeVariables (setEnvironmentVariables vars ui) = vars).
    { intros vars. unfold activeVariables, setEnvironmentVariables.
      cbn [ui_environments ui_activeEnvId setEnvironments].
      induction (ui_environments ui) as [|e envs IH].
      - apply elem_of_nil in Hactive. contradiction.
      - cbn [map List.find].
        destruct (sameString (environment_id e) (ui_activeEnvId ui)) eqn:He.
        + cbn [environment_id]. rewrite He. reflexivity.
        + rewrite He. apply IH.
          cbn [map] in Hactive. apply elem_of_cons in Hactive as [H | H];
            [| exact H].
          rewrite H, sameString_refl in He. discriminate. }
    split; [exact Hread|].
    intros id. unfold removeEnvVariable. rewrite Hread.
    intros Hin. apply list_elem_of_fmap in Hin as (v & Hv & Hin).
    apply list_elem_of_In, List.filter_In in Hin as [_ Hkeep].
    rewrite <- Hv, sameString_refl in Hkeep. discriminate.
  - intros Hnone.
    assert (Hall : Forall
                     (fun e => sameString (environment_id e)
                                 (ui_activeEnvId ui) = false)
                     (ui_environments ui)).
    { apply Forall_forall. intros e He.
      destruct (sameString (environment_id e) (ui_activeEnvId ui)) eqn:Hs;
        [|reflexivity].
      apply sameString_true in Hs. exfalso. apply Hnone.
      rewrite <- Hs. apply list_elem_of_fmap. eauto. }
    clear Hnone. split.
    + unfold activeVariables.
      induction Hall as [|e envs He _ IH]; [reflexivity|].
      cbn [List.find]. rewrite He. exact IH.
    + intros vars. destruct ui as [tabs active folders envs env visible q app].
      unfold setEnvironmentVariables, setEnvironments. cbn in *. f_equal.
      induction Hall as [|e envs' He _ IH]; [reflexivity|].
      cbn [map]. rewrite He, IH. reflexivity.
Qed.

Lemma environment_variables_written_and_read_witness :
  let ui := {| ui_tabs := []; ui_activeTabId := [];
               ui_folders := [];
               ui_environments :=
                 [ {| environment_id := js "dev";
                      environment_name := js "Development";
                      environment_variables := [] |} ];
               ui_activeEnvId := js "dev"; ui_envVarVisibleIds := ∅;
               ui_searchQuery := []; ui_app := Demo.idle [] |} in
  let variable := {| env_id := js "1"; env_key := js "base_url";
                     env_initialValue := js "https://h";
                     env_currentValue := js "https://h";
                     env_sensitive := false |} in
  activeVariables (setEnvironmentVariables [variable] ui) = [variable].
Proof.
  intros ui variable.
  apply (proj1 (environment_variables_written_and_read ui)).
  by_evaluation.
Defined.

(** ** Searching the collections *)

Lemma filter_sublist {A} (keep : A -> bool) (l : list A) :
  sublist (List.filter keep l) l.
Proof.
  induction l as [|x l IH]; cbn [List.filter]; [constructor|].
  destruct (keep x); [apply sublist_skip | apply sublist_cons]; exact IH.
Qed.

(** X28. Searching never adds, reorders or changes a folder: for every
    query the folders shown are the folders there are, each with its
    identifier, name and open flag and with a sublist of its requests.
    A query that is white space throughout shows everything. *)
Theorem filteredFolders_only_drops_requests toLowerCase folders searchQuery :
  Forall2
    (fun shown folder =>
       folder_id shown = folder_id folder
       /\ folder_name shown = folder_name folder
       /\ folder_open shown = folder_open folder
       /\ sublist (folder_requests shown) (folder_requests folder))
    (filteredFolders toLowerCase folders searchQuery) folders
  /\ (Forall (fun c => Char.isWhiteSpace c = true) searchQuery ->
      toLowerCase [] = [] ->
      filteredFolders toLowerCase folders searchQuery = folders).
Proof.
  split.
  - unfold filteredFolders.
    destruct (toLowerCase (trim searchQuery)) as [|c q].
    + induction folders; constructor; auto.
    + induction folders as [|f folders IH]; cbn [map]; constructor; auto.
      cbn. repeat split; auto. apply filter_sublist.
  - intros Hblank Hempty. unfold filteredFolders.
    apply trim_nil in Hblank. rewrite Hblank, Hempty. reflexivity.
Qed.

Lemma filteredFolders_only_drops_requests_witness :
  filteredFolders (fun s => s)
    [ {| folder_id := js "f1"; folder_name := js "User Service API";
         folder_open := true;
         folder_requests := [Demo.draft "GET" "https://h/p" AuthNone] |} ]
    (js "   ")
  = [ {| folder_id := js "f1"; folder_name := js "User Service API";
         folder_open := true;
         folder_requests := [Demo.draft "GET" "https://h/p" AuthNone] |} ].
Proof.
  apply (proj2 (filteredFolders_only_drops_requests (fun s => s) _ (js "   "))).
  - cbn. repeat constructor.
  - reflexivity.
Defined.
